(** * RX front-end calibration table generator

    A shallow embedding of [host/utils/usrp_gen_rx_fe_cal_table.cpp]:
    the LO sweep, the zoom-in grid search for the IQ-balance correction,
    the tuning and capture helpers, and the properties of them that the
    design document states.

    Conventions of the embedding.

    - [double] and [float] are rationals [Q], without infinities or
      NaN, and equalities between computed numbers are stated with
      [==].  The arithmetic of the zoom-in search is the ideal one.
      That of the loop variable of the sweep (line 183) is rounded to
      binary64 by [to_double], and the narrowing of the amplitude to a
      [float] sample (line 53) is [to_float]: the two roundings are
      parameters of the program, and [round_nearest_even] is the one run
      on the simulated device.
    - [size_t] is a [Z] reduced modulo [2^64] where the code computes
      with it.
    - The device, the clock and the sample stream are an abstract world
      [W] reached only through the operations of [multi_usrp]; every
      call threads the world.
    - A C++ exception is the outcome [Throw]; the world and the log are
      kept when it is raised, as side effects are in C++.
    - Loops controlled by a [double] or by the clock take fuel, and
      [OutOfFuel] is the outcome of a run that needs more.
    - The machine carries a log of events.  No branch of the program
      reads it: it records what the program did, so that properties of a
      run can be stated.
    - The operations of the device are total functions: an exception
      raised inside the device library is not part of the model, and
      the exceptions of a run are those that the program itself raises.
    - The calls made on the device are observed through [traced], the
      device with a journal of its calls. *)

From Stdlib Require Import ZArith QArith Qpower Qfield Qround Lqa Lia.
From Stdlib Require Import List String HexString Bool.
Import ListNotations.

Local Open Scope Q_scope.

(** ** Numbers *)

Definition double := Q.

(** [a > b] and [a < b] on doubles, as decidable tests. *)
Definition Qgtb (a b : Q) : bool := negb (Qle_bool a b).
Definition Qltb (a b : Q) : bool := negb (Qle_bool b a).

(** [std::complex<double>]: real and imaginary part. *)
Definition complex := (Q * Q)%type.

(** The value of a default-constructed [std::complex<double>]. *)
Definition complex_zero : complex := (0, 0).

Definition real (c : complex) : Q := fst c.
Definition imag (c : complex) : Q := snd c.

(** [size_t] arithmetic wraps modulo [2^64]. *)
Definition size_t_wrap (z : Z) : Z := (z mod 2 ^ 64)%Z.

(** ** Rounding

    What the properties ask of a rounding: it keeps the order, and it
    leaves a number it produced as it is. *)
Definition monotone (r : Q -> Q) : Prop := forall x y, x <= y -> r x <= r y.

Definition idempotent (r : Q -> Q) : Prop := forall x, r (r x) == r x.

(** The integer nearest to [x], the even one of the two when [x] is
    half way between them. *)
Definition round_half_even (x : Q) : Z :=
  let f := Qfloor x in
  match Qcompare (x - inject_Z f) (1 # 2) with
  | Lt => f
  | Gt => (f + 1)%Z
  | Eq => if Z.even f then f else (f + 1)%Z
  end.

(** The binade of a positive number, and the exponent that a positive
    [x] has: [2 ^ exponent x <= x < 2 ^ (exponent x + 1)]. *)
Definition binade (x : Q) (e : Z) : Prop := 2 ^ e <= x < 2 ^ (e + 1).

Definition exponent (x : Q) : Z :=
  let e := (Z.log2 (Qnum x) - Z.log2 (Zpos (Qden x)))%Z in
  if Qle_bool (2 ^ e) x then e else (e - 1)%Z.

Definition round_positive (prec : Z) (x : Q) : Q :=
  let ulp := 2 ^ (exponent x - (prec - 1)) in
  inject_Z (round_half_even (x / ulp)) * ulp.

(** Rounding to the nearest number with a significand of [prec] bits,
    ties to even: what IEEE 754 arithmetic does to an exact result
    within the normal range of a format, with [prec = 53] for binary64
    and [prec = 24] for binary32.  The bounds of the exponent are left
    out. *)
Definition round_nearest_even (prec : Z) (x : Q) : Q :=
  match Qnum x with
  | Z0 => 0
  | Zpos _ => Qred (round_positive prec x)
  | Zneg _ => Qred (- round_positive prec (- x))
  end.

(** ** Values exchanged with the device *)

Inductive policy_t := POLICY_NONE | POLICY_AUTO | POLICY_MANUAL.

Record tune_request_t := {
  target_freq : double;
  dsp_freq_policy : policy_t;
  dsp_freq : double
}.

Inductive stream_mode_t :=
| STREAM_MODE_START_CONTINUOUS
| STREAM_MODE_STOP_CONTINUOUS
| STREAM_MODE_NUM_SAMPS_AND_DONE
| STREAM_MODE_NUM_SAMPS_AND_MORE.

Record stream_cmd_t := {
  stream_mode : stream_mode_t;
  num_samps : nat;
  stream_now : bool
}.

(** What one [recv] call produced: the samples written to the front of
    the buffer (their number is the return value of [recv]) and the
    error code left in the metadata. *)
Record recv_t := {
  rx_samps : list complex;
  error_code : Z
}.

Definition ERROR_CODE_NONE : Z := 0.

(** The fields of [uhd::tx_metadata_t] that the program sets. *)
Record tx_metadata_t := {
  has_time_spec : bool;
  end_of_burst : bool
}.

(** Durations and instants, in microseconds. *)
Definition milliseconds (n : Z) : Z := (1000 * n)%Z.

(** One row of the calibration table. *)
Record result_t := {
  freq : double;
  real_corr : double;
  imag_corr : double;
  sup : double
}.

(** ** The device interface

    The methods of [uhd::usrp::multi_usrp], of the two streamers, of
    the clock and of the current thread that the program calls.
    Setters change the world, getters of settings read it, and sensors,
    the clock, [recv] and the interruption flag do both. *)
Record multi_usrp (W : Type) := {
  make : string -> W -> W;
  get_rx_antennas : W -> list string;
  get_tx_antennas : W -> list string;
  set_rx_antenna : string -> W -> W;
  set_tx_antenna : string -> W -> W;
  set_rx_rate : double -> W -> W;
  set_tx_rate : double -> W -> W;
  set_tx_gain : double -> W -> W;
  set_rx_gain : double -> W -> W;
  get_rx_rate : W -> double;
  set_rx_freq : tune_request_t -> W -> W;
  set_tx_freq : tune_request_t -> W -> W;
  get_rx_freq : W -> double;
  get_tx_freq : W -> double;
  get_rx_freq_range : W -> double * double;
  get_tx_sensor : string -> W -> bool * W;
  get_rx_sensor : string -> W -> bool * W;
  set_rx_iq_balance : complex -> W -> W;
  get_rx_stream : string -> W -> W;
  issue_stream_cmd : stream_cmd_t -> W -> W;
  recv : nat -> W -> recv_t * W;
  sleep : Z -> W -> W;
  get_system_time : W -> Z * W;
  set_thread_priority_safe : W -> W;
  get_tx_stream : string -> W -> W;
  get_max_num_samps : W -> nat;
  send : list complex -> tx_metadata_t -> W -> W;
  interruption_requested : W -> bool * W
}.

Arguments make {W}.
Arguments get_rx_antennas {W}.
Arguments get_tx_antennas {W}.
Arguments set_rx_antenna {W}.
Arguments set_tx_antenna {W}.
Arguments set_rx_rate {W}.
Arguments set_tx_rate {W}.
Arguments set_tx_gain {W}.
Arguments set_rx_gain {W}.
Arguments get_rx_rate {W}.
Arguments set_rx_freq {W}.
Arguments set_tx_freq {W}.
Arguments get_rx_freq {W}.
Arguments get_tx_freq {W}.
Arguments get_rx_freq_range {W}.
Arguments get_tx_sensor {W}.
Arguments get_rx_sensor {W}.
Arguments set_rx_iq_balance {W}.
Arguments get_rx_stream {W}.
Arguments issue_stream_cmd {W}.
Arguments recv {W}.
Arguments sleep {W}.
Arguments get_system_time {W}.
Arguments set_thread_priority_safe {W}.
Arguments get_tx_stream {W}.
Arguments get_max_num_samps {W}.
Arguments send {W}.
Arguments interruption_requested {W}.

(** ** Exceptions, events and the machine *)

Inductive exn := runtime_error (what : string).

Inductive event :=
| EvThreadCreated (tx_wave_ampl : double)
| EvTune (rx_lo_i : double)
| EvProbe (phase_corr ampl_corr : double) (correction : complex)
          (suppression : double)
| EvHelp
| EvPrint (line : string)
| EvProgress (rx_lo best_suppression : double)
| EvInterruptAll
| EvJoinAll
| EvStoreResults (results : list result_t) (XX xx : string)
| EvSend (nsamps : nat) (md : tx_metadata_t).

Record machine (W : Type) := {
  world : W;
  log : list event
}.

Arguments world {W}.
Arguments log {W}.
Arguments Build_machine {W}.

Inductive outcome (A : Type) :=
| Ok (a : A)
| Throw (e : exn)
| OutOfFuel.

Arguments Ok {A}.
Arguments Throw {A}.
Arguments OutOfFuel {A}.

Definition M (W A : Type) : Type := machine W -> outcome A * machine W.

Definition ret {W A} (a : A) : M W A := fun m => (Ok a, m).

Definition bind {W A B} (c : M W A) (k : A -> M W B) : M W B :=
  fun m =>
    match c m with
    | (Ok a, m') => k a m'
    | (Throw e, m') => (Throw e, m')
    | (OutOfFuel, m') => (OutOfFuel, m')
    end.

Definition throw {W A} (e : exn) : M W A := fun m => (Throw e, m).

Definition out_of_fuel {W A} : M W A := fun m => (OutOfFuel, m).

(** A setter: the world changes, nothing is returned. *)
Definition call {W} (f : W -> W) : M W unit :=
  fun m => (Ok tt, {| world := f (world m); log := log m |}).

(** A getter of a setting. *)
Definition get {W A} (f : W -> A) : M W A :=
  fun m => (Ok (f (world m)), m).

(** A call that returns a value and changes the world. *)
Definition io {W A} (f : W -> A * W) : M W A :=
  fun m => let (a, w) := f (world m) in
           (Ok a, {| world := w; log := log m |}).

(** Events are appended: the log reads in the order of time. *)
Definition emit {W} (e : event) : M W unit :=
  fun m => (Ok tt, {| world := world m; log := log m ++ [e] |}).

Declare Scope prog_scope.
Delimit Scope prog_scope with prog.
Notation "x <- c ;; k" := (bind c (fun x => k))
  (at level 61, c at next level, right associativity) : prog_scope.
Notation "c ;; k" := (bind c (fun _ => k))
  (at level 61, right associativity) : prog_scope.

Local Open Scope prog_scope.
Local Open Scope string_scope.

(** A loop [for (double x = x0; cond; x += ...) body] over the local
    variables [a].  The condition and the increment are evaluated on
    the current locals, as the loop header is. *)
Fixpoint for_double {W A} (fuel : nat) (cond : A -> double -> bool)
    (incr : A -> double -> double) (body : double -> A -> M W A)
    (x : double) (a : A) : M W A :=
  match fuel with
  | O => out_of_fuel
  | S fuel' =>
      if cond a x then
        a' <- body x a ;;
        for_double fuel' cond incr body (incr a' x) a'
      else ret a
  end.

(** A loop [for (size_t i = 0; i < n; i++) body] whose body does not
    use [i]: [n] runs of the body. *)
Fixpoint for_size_t {W A} (n : nat) (body : A -> M W A) (a : A) : M W A :=
  match n with
  | O => ret a
  | S n' => a' <- for_size_t n' body a ;; body a'
  end.

(** ** Command-line options and local variables *)

Record options := {
  help : bool;
  verbose : bool;
  args : string;
  rate : double;
  tx_wave_ampl : double;
  tx_offset : double;
  tx_gain : double;
  rx_gain : double;
  freq_step : double;
  nsamps : nat
}.

(** The variables of [main] that live across the loops.  Those of the
    search are declared in the body of the sweep loop and initialised
    there at every frequency. *)
Record locals := {
  buff : list complex;
  results : list result_t;
  best_correction : complex;
  phase_corr_start : double;
  phase_corr_stop : double;
  phase_corr_step : double;
  ampl_corr_start : double;
  ampl_corr_stop : double;
  ampl_corr_step : double;
  best_suppression : double;
  best_phase_corr : double;
  best_ampl_corr : double
}.

Definition with_buff (b : list complex) (l : locals) : locals :=
  {| buff := b; results := results l;
     best_correction := best_correction l;
     phase_corr_start := phase_corr_start l;
     phase_corr_stop := phase_corr_stop l;
     phase_corr_step := phase_corr_step l;
     ampl_corr_start := ampl_corr_start l;
     ampl_corr_stop := ampl_corr_stop l;
     ampl_corr_step := ampl_corr_step l;
     best_suppression := best_suppression l;
     best_phase_corr := best_phase_corr l;
     best_ampl_corr := best_ampl_corr l |}.

Definition with_results (r : list result_t) (l : locals) : locals :=
  {| buff := buff l; results := r;
     best_correction := best_correction l;
     phase_corr_start := phase_corr_start l;
     phase_corr_stop := phase_corr_stop l;
     phase_corr_step := phase_corr_step l;
     ampl_corr_start := ampl_corr_start l;
     ampl_corr_stop := ampl_corr_stop l;
     ampl_corr_step := ampl_corr_step l;
     best_suppression := best_suppression l;
     best_phase_corr := best_phase_corr l;
     best_ampl_corr := best_ampl_corr l |}.

(** Lines 223-226: the four assignments of the best point. *)
Definition with_best (c : complex) (s p a : double) (l : locals) : locals :=
  {| buff := buff l; results := results l;
     best_correction := c;
     phase_corr_start := phase_corr_start l;
     phase_corr_stop := phase_corr_stop l;
     phase_corr_step := phase_corr_step l;
     ampl_corr_start := ampl_corr_start l;
     ampl_corr_stop := ampl_corr_stop l;
     ampl_corr_step := ampl_corr_step l;
     best_suppression := s;
     best_phase_corr := p;
     best_ampl_corr := a |}.

(** Lines 194-195: the two assignments of the steps. *)
Definition with_steps (ps als : double) (l : locals) : locals :=
  {| buff := buff l; results := results l;
     best_correction := best_correction l;
     phase_corr_start := phase_corr_start l;
     phase_corr_stop := phase_corr_stop l;
     phase_corr_step := ps;
     ampl_corr_start := ampl_corr_start l;
     ampl_corr_stop := ampl_corr_stop l;
     ampl_corr_step := als;
     best_suppression := best_suppression l;
     best_phase_corr := best_phase_corr l;
     best_ampl_corr := best_ampl_corr l |}.

(** Lines 235-238: the four assignments of the window. *)
Definition with_window (p0 p1 a0 a1 : double) (l : locals) : locals :=
  {| buff := buff l; results := results l;
     best_correction := best_correction l;
     phase_corr_start := p0;
     phase_corr_stop := p1;
     phase_corr_step := phase_corr_step l;
     ampl_corr_start := a0;
     ampl_corr_stop := a1;
     ampl_corr_step := ampl_corr_step l;
     best_suppression := best_suppression l;
     best_phase_corr := best_phase_corr l;
     best_ampl_corr := best_ampl_corr l |}.

(** Lines 187-190: the declarations at the top of the sweep body.  The
    two steps are declared without a value and assigned before they
    are read; they are [0] here until then. *)
Definition search_decls (l : locals) : locals :=
  {| buff := buff l; results := results l;
     best_correction := complex_zero;
     phase_corr_start := -0.3;
     phase_corr_stop := 0.3;
     phase_corr_step := 0;
     ampl_corr_start := -0.3;
     ampl_corr_stop := 0.3;
     ampl_corr_step := 0;
     best_suppression := 0;
     best_phase_corr := 0;
     best_ampl_corr := 0 |}.

(** [uhd::has]: membership in a list of names. *)
Definition has (l : list string) (s : string) : bool :=
  existsb (String.eqb s) l.

(** * A simulated device

    A small device to run the program on: it tunes exactly, its LOs
    report lock from the instant [sim_lock_at] on, every poll of a
    sensor takes 1 ms and every reading of the clock 1 us, and [recv]
    delivers the requested samples but [sim_missing], each sample
    being the IQ correction in force.  A [send] takes 10 us, and the
    interruption of the transmit thread is requested from the instant
    [sim_stop_at] on.  The estimator and [std::polar]
    are stand-ins over the rationals. *)

Record sim := {
  sim_antennas : list string;
  sim_range : double * double;
  sim_rate : double;
  sim_rx_freq : double;
  sim_tx_freq : double;
  sim_iq : complex;
  sim_clock : Z;
  sim_lock_at : Z;
  sim_missing : nat;
  sim_error_code : Z;
  sim_stop_at : Z
}.

Definition sim_tick (d : Z) (w : sim) : sim :=
  {| sim_antennas := sim_antennas w; sim_range := sim_range w;
     sim_rate := sim_rate w; sim_rx_freq := sim_rx_freq w;
     sim_tx_freq := sim_tx_freq w; sim_iq := sim_iq w;
     sim_clock := sim_clock w + d; sim_lock_at := sim_lock_at w;
     sim_missing := sim_missing w; sim_error_code := sim_error_code w;
     sim_stop_at := sim_stop_at w |}.

Definition sim_set_rate (r : double) (w : sim) : sim :=
  {| sim_antennas := sim_antennas w; sim_range := sim_range w;
     sim_rate := r; sim_rx_freq := sim_rx_freq w;
     sim_tx_freq := sim_tx_freq w; sim_iq := sim_iq w;
     sim_clock := sim_clock w; sim_lock_at := sim_lock_at w;
     sim_missing := sim_missing w; sim_error_code := sim_error_code w;
     sim_stop_at := sim_stop_at w |}.

Definition sim_set_rx_freq (r : tune_request_t) (w : sim) : sim :=
  {| sim_antennas := sim_antennas w; sim_range := sim_range w;
     sim_rate := sim_rate w; sim_rx_freq := target_freq r;
     sim_tx_freq := sim_tx_freq w; sim_iq := sim_iq w;
     sim_clock := sim_clock w; sim_lock_at := sim_lock_at w;
     sim_missing := sim_missing w; sim_error_code := sim_error_code w;
     sim_stop_at := sim_stop_at w |}.

Definition sim_set_tx_freq (r : tune_request_t) (w : sim) : sim :=
  {| sim_antennas := sim_antennas w; sim_range := sim_range w;
     sim_rate := sim_rate w; sim_rx_freq := sim_rx_freq w;
     sim_tx_freq := target_freq r; sim_iq := sim_iq w;
     sim_clock := sim_clock w; sim_lock_at := sim_lock_at w;
     sim_missing := sim_missing w; sim_error_code := sim_error_code w;
     sim_stop_at := sim_stop_at w |}.

Definition sim_set_iq (c : complex) (w : sim) : sim :=
  {| sim_antennas := sim_antennas w; sim_range := sim_range w;
     sim_rate := sim_rate w; sim_rx_freq := sim_rx_freq w;
     sim_tx_freq := sim_tx_freq w; sim_iq := c;
     sim_clock := sim_clock w; sim_lock_at := sim_lock_at w;
     sim_missing := sim_missing w; sim_error_code := sim_error_code w;
     sim_stop_at := sim_stop_at w |}.

Definition sim_set_missing (k : nat) (w : sim) : sim :=
  {| sim_antennas := sim_antennas w; sim_range := sim_range w;
     sim_rate := sim_rate w; sim_rx_freq := sim_rx_freq w;
     sim_tx_freq := sim_tx_freq w; sim_iq := sim_iq w;
     sim_clock := sim_clock w; sim_lock_at := sim_lock_at w;
     sim_missing := k; sim_error_code := sim_error_code w;
     sim_stop_at := sim_stop_at w |}.

Definition sim_lo_locked (w : sim) : bool * sim :=
  ((sim_lock_at w <=? sim_clock w)%Z, sim_tick 1000 w).

Definition sim_recv (n : nat) (w : sim) : recv_t * sim :=
  ({| rx_samps := repeat (sim_iq w) (n - sim_missing w);
      error_code := sim_error_code w |}, sim_tick 100 w).

Definition sim_usrp : multi_usrp sim := {|
  make := fun _ w => w;
  get_rx_antennas := sim_antennas;
  get_tx_antennas := sim_antennas;
  set_rx_antenna := fun _ w => w;
  set_tx_antenna := fun _ w => w;
  set_rx_rate := sim_set_rate;
  set_tx_rate := sim_set_rate;
  set_tx_gain := fun _ w => w;
  set_rx_gain := fun _ w => w;
  get_rx_rate := sim_rate;
  set_rx_freq := sim_set_rx_freq;
  set_tx_freq := sim_set_tx_freq;
  get_rx_freq := sim_rx_freq;
  get_tx_freq := sim_tx_freq;
  get_rx_freq_range := sim_range;
  get_tx_sensor := fun _ => sim_lo_locked;
  get_rx_sensor := fun _ => sim_lo_locked;
  set_rx_iq_balance := sim_set_iq;
  get_rx_stream := fun _ w => w;
  issue_stream_cmd := fun _ w => w;
  recv := sim_recv;
  sleep := sim_tick;
  get_system_time := fun w => (sim_clock w, sim_tick 1 w);
  set_thread_priority_safe := fun w => w;
  get_tx_stream := fun _ w => w;
  get_max_num_samps := fun _ => 2%nat;
  send := fun _ _ w => sim_tick 10 w;
  interruption_requested := fun w => ((sim_stop_at w <=? sim_clock w)%Z, w)
|}.

(** The same device with LOs that always report lock and a [recv]
    that always delivers. *)
Definition ideal_usrp : multi_usrp sim := {|
  make := fun _ w => w;
  get_rx_antennas := sim_antennas;
  get_tx_antennas := sim_antennas;
  set_rx_antenna := fun _ w => w;
  set_tx_antenna := fun _ w => w;
  set_rx_rate := sim_set_rate;
  set_tx_rate := sim_set_rate;
  set_tx_gain := fun _ w => w;
  set_rx_gain := fun _ w => w;
  get_rx_rate := sim_rate;
  set_rx_freq := sim_set_rx_freq;
  set_tx_freq := sim_set_tx_freq;
  get_rx_freq := sim_rx_freq;
  get_tx_freq := sim_tx_freq;
  get_rx_freq_range := sim_range;
  get_tx_sensor := fun _ w => (true, sim_tick 1000 w);
  get_rx_sensor := fun _ w => (true, sim_tick 1000 w);
  set_rx_iq_balance := sim_set_iq;
  get_rx_stream := fun _ w => w;
  issue_stream_cmd := fun _ w => w;
  recv := fun n w => ({| rx_samps := repeat (sim_iq w) n;
                         error_code := ERROR_CODE_NONE |}, sim_tick 100 w);
  sleep := sim_tick;
  get_system_time := fun w => (sim_clock w, sim_tick 1 w);
  set_thread_priority_safe := fun w => w;
  get_tx_stream := fun _ w => w;
  get_max_num_samps := fun _ => 2%nat;
  send := fun _ _ w => sim_tick 10 w;
  interruption_requested := fun w => ((sim_stop_at w <=? sim_clock w)%Z, w)
|}.

(** The same device with LOs that never report lock. *)
Definition unlocked_usrp : multi_usrp sim := {|
  make := fun _ w => w;
  get_rx_antennas := sim_antennas;
  get_tx_antennas := sim_antennas;
  set_rx_antenna := fun _ w => w;
  set_tx_antenna := fun _ w => w;
  set_rx_rate := sim_set_rate;
  set_tx_rate := sim_set_rate;
  set_tx_gain := fun _ w => w;
  set_rx_gain := fun _ w => w;
  get_rx_rate := sim_rate;
  set_rx_freq := sim_set_rx_freq;
  set_tx_freq := sim_set_tx_freq;
  get_rx_freq := sim_rx_freq;
  get_tx_freq := sim_tx_freq;
  get_rx_freq_range := sim_range;
  get_tx_sensor := fun _ w => (false, sim_tick 1000 w);
  get_rx_sensor := fun _ w => (false, sim_tick 1000 w);
  set_rx_iq_balance := sim_set_iq;
  get_rx_stream := fun _ w => w;
  issue_stream_cmd := fun _ w => w;
  recv := sim_recv;
  sleep := sim_tick;
  get_system_time := fun w => (sim_clock w, sim_tick 1 w);
  set_thread_priority_safe := fun w => w;
  get_tx_stream := fun _ w => w;
  get_max_num_samps := fun _ => 2%nat;
  send := fun _ _ w => sim_tick 10 w;
  interruption_requested := fun w => ((sim_stop_at w <=? sim_clock w)%Z, w)
|}.

(** The roundings of the runs: binary64 and binary32. *)
Definition sim_double : Q -> Q := round_nearest_even 53.

Definition sim_float : Q -> Q := round_nearest_even 24.

(** A rational stand-in for [std::polar]: the point of modulus [rho]
    that the half-angle parametrisation of the circle gives for
    [t = theta / 2]. *)
Definition polar_rat (rho theta : double) : complex :=
  let t := theta / 2 in
  (Qred (rho * ((1 - t * t) / (1 + t * t))),
   Qred (rho * ((2 * t) / (1 + t * t)))).

Definition sim_tau : double := 6.28318531.

(** Estimators.  [tone_flat] hears the same power everywhere, so that
    every suppression is 0; [tone_const K] hears [K] dB more at
    negative frequencies, where the tone is, so that every suppression
    is [K]; [tone_bowl] makes the suppression a paraboloid of the
    correction, with its top of 40 dB at the correction 1.1+0.2i. *)
Definition tone_flat (b : list complex) (f : double) : double := 0.

Definition tone_const (K : double) (b : list complex) (f : double) : double :=
  if Qltb f 0 then K else 0.

Definition tone_bowl (b : list complex) (f : double) : double :=
  if Qltb f 0 then
    match b with
    | c :: _ =>
        Qred (40 - 100 * ((fst c - 1.1) * (fst c - 1.1) +
                          (snd c - 0.2) * (snd c - 0.2)))
    | [] => 0
    end
  else 0.

(** A device with the CAL antennas, tunable over [range], whose LOs
    lock at [lock_at]. *)
Definition sim_world (range : double * double) (lock_at : Z) : sim :=
  {| sim_antennas := ["TX/RX"; "RX2"; "CAL"]; sim_range := range;
     sim_rate := 0; sim_rx_freq := 0; sim_tx_freq := 0; sim_iq := (1, 0);
     sim_clock := 0; sim_lock_at := lock_at; sim_missing := 0;
     sim_error_code := 0; sim_stop_at := 25 |}.

(** The default options of lines 125-132, with 4 samples a capture. *)
Definition sim_options : options :=
  {| help := false; verbose := false; args := ""; rate := 12.5e6;
     tx_wave_ampl := 0.7; tx_offset := 0.9344e6; tx_gain := 0; rx_gain := 0;
     freq_step := 10e6; nsamps := 4 |}.

(** The machine of the search on the simulated device: configured,
    and tuned to 150 MHz with the transmitter 0.9344 MHz below. *)
Definition sim_machine (range : double * double) (lock_at : Z) : machine sim :=
  {| world :=
       sim_set_tx_freq
         {| target_freq := 150e6 - 0.9344e6;
            dsp_freq_policy := POLICY_MANUAL; dsp_freq := 0 |}
         (sim_set_rx_freq
            {| target_freq := 150e6;
               dsp_freq_policy := POLICY_MANUAL; dsp_freq := 0 |}
            (sim_set_rate 12.5e6 (sim_world range lock_at)));
     log := [] |}.

(** The same options with the frequency step [s]: with a step of 0,
    and with the ninth part of 2.05 GHz as a [double]. *)
Definition sim_step_options (s : double) : options :=
  {| help := false; verbose := false; args := ""; rate := 12.5e6;
     tx_wave_ampl := 0.7; tx_offset := 0.9344e6; tx_gain := 0; rx_gain := 0;
     freq_step := s; nsamps := 4 |}.

Definition stuck_options : options := sim_step_options 0.

Definition ninth_options : options :=
  sim_step_options (sim_double (2.05e9 / 9)).

(** The fuel of the runs below, which are made with
    [num_search_steps = 5] and two rounds a search. *)
Definition sim_fuel : nat := 10.

(** An instant that no run below reaches: LOs that never lock. *)
Definition never : Z := 1000000000.

Definition sim_range_wide : double * double := (100e6, 220e6).

Definition sim_range_long : double * double := (50e6, 2.2e9).

(** [evaluate e H]: run [e] and record its value as [H : e = value]. *)
Ltac evaluate e H :=
  let v := eval vm_compute in e in
  assert (H : e = v) by (vm_compute; reflexivity).

(** * A recording device

    [traced u] is the device [u] with a journal of the calls made on
    it: every operation that can change the world appends one entry,
    with its arguments and with what the call returned.  The getters
    of settings leave no entry.  No operation reads the journal, and a
    run of the program on [traced u] is its run on [u] with the journal
    beside it ([transparent] below). *)

Inductive devcall :=
| CallMake (dev_args : string)
| CallSetRxAntenna (ant : string)
| CallSetTxAntenna (ant : string)
| CallSetRxRate (r : double)
| CallSetTxRate (r : double)
| CallSetTxGain (g : double)
| CallSetRxGain (g : double)
| CallSetRxFreq (req : tune_request_t)
| CallSetTxFreq (req : tune_request_t)
| CallGetTxSensor (name : string) (value : bool)
| CallGetRxSensor (name : string) (value : bool)
| CallSetRxIqBalance (correction : complex)
| CallGetRxStream (cpu_format : string)
| CallIssueStreamCmd (cmd : stream_cmd_t)
| CallRecv (n : nat) (got : recv_t)
| CallSleep (duration : Z)
| CallGetSystemTime (now : Z)
| CallSetThreadPrioritySafe
| CallGetTxStream (cpu_format : string)
| CallSend (samples : list complex) (md : tx_metadata_t)
| CallInterruptionRequested (value : bool).

Definition traced {W : Type} (u : multi_usrp W)
  : multi_usrp (W * list devcall) := {|
  make := fun a wt => (make u a (fst wt), snd wt ++ [CallMake a])%list;
  get_rx_antennas := fun wt => get_rx_antennas u (fst wt);
  get_tx_antennas := fun wt => get_tx_antennas u (fst wt);
  set_rx_antenna := fun a wt =>
    (set_rx_antenna u a (fst wt), snd wt ++ [CallSetRxAntenna a])%list;
  set_tx_antenna := fun a wt =>
    (set_tx_antenna u a (fst wt), snd wt ++ [CallSetTxAntenna a])%list;
  set_rx_rate := fun r wt =>
    (set_rx_rate u r (fst wt), snd wt ++ [CallSetRxRate r])%list;
  set_tx_rate := fun r wt =>
    (set_tx_rate u r (fst wt), snd wt ++ [CallSetTxRate r])%list;
  set_tx_gain := fun g wt =>
    (set_tx_gain u g (fst wt), snd wt ++ [CallSetTxGain g])%list;
  set_rx_gain := fun g wt =>
    (set_rx_gain u g (fst wt), snd wt ++ [CallSetRxGain g])%list;
  get_rx_rate := fun wt => get_rx_rate u (fst wt);
  set_rx_freq := fun r wt =>
    (set_rx_freq u r (fst wt), snd wt ++ [CallSetRxFreq r])%list;
  set_tx_freq := fun r wt =>
    (set_tx_freq u r (fst wt), snd wt ++ [CallSetTxFreq r])%list;
  get_rx_freq := fun wt => get_rx_freq u (fst wt);
  get_tx_freq := fun wt => get_tx_freq u (fst wt);
  get_rx_freq_range := fun wt => get_rx_freq_range u (fst wt);
  get_tx_sensor := fun name wt =>
    (fst (get_tx_sensor u name (fst wt)),
     (snd (get_tx_sensor u name (fst wt)),
      snd wt ++ [CallGetTxSensor name (fst (get_tx_sensor u name (fst wt)))])%list);
  get_rx_sensor := fun name wt =>
    (fst (get_rx_sensor u name (fst wt)),
     (snd (get_rx_sensor u name (fst wt)),
      snd wt ++ [CallGetRxSensor name (fst (get_rx_sensor u name (fst wt)))])%list);
  set_rx_iq_balance := fun c wt =>
    (set_rx_iq_balance u c (fst wt), snd wt ++ [CallSetRxIqBalance c])%list;
  get_rx_stream := fun f wt =>
    (get_rx_stream u f (fst wt), snd wt ++ [CallGetRxStream f])%list;
  issue_stream_cmd := fun c wt =>
    (issue_stream_cmd u c (fst wt), snd wt ++ [CallIssueStreamCmd c])%list;
  recv := fun n wt =>
    (fst (recv u n (fst wt)),
     (snd (recv u n (fst wt)),
      snd wt ++ [CallRecv n (fst (recv u n (fst wt)))])%list);
  sleep := fun d wt => (sleep u d (fst wt), snd wt ++ [CallSleep d])%list;
  get_system_time := fun wt =>
    (fst (get_system_time u (fst wt)),
     (snd (get_system_time u (fst wt)),
      snd wt ++ [CallGetSystemTime (fst (get_system_time u (fst wt)))])%list);
  set_thread_priority_safe := fun wt =>
    (set_thread_priority_safe u (fst wt),
     snd wt ++ [CallSetThreadPrioritySafe])%list;
  get_tx_stream := fun f wt =>
    (get_tx_stream u f (fst wt), snd wt ++ [CallGetTxStream f])%list;
  get_max_num_samps := fun wt => get_max_num_samps u (fst wt);
  send := fun b md wt => (send u b md (fst wt), snd wt ++ [CallSend b md])%list;
  interruption_requested := fun wt =>
    (fst (interruption_requested u (fst wt)),
     (snd (interruption_requested u (fst wt)),
      snd wt ++
      [CallInterruptionRequested (fst (interruption_requested u (fst wt)))])%list)
|}.

(** The journal of a machine of the recording device, and the machine
    of the device itself. *)
Definition journal {W} (m : machine (W * list devcall)) : list devcall :=
  snd (world m).

Definition forget {W} (m : machine (W * list devcall)) : machine W :=
  {| world := fst (world m); log := log m |}.

(** [transparent c1 c2]: the run of [c1] on the recording device is
    the run of [c2] on the device: the same outcome, the same world and
    the same log. *)
Definition transparent {W A} (c1 : M (W * list devcall) A) (c2 : M W A)
  : Prop :=
  forall m, c2 (forget m) = (fst (c1 m), forget (snd (c1 m))).

(** The corrections handed to [set_rx_iq_balance], in order, and the
    corrections of the probes logged, in order. *)
Definition iq_calls (t : list devcall) : list complex :=
  flat_map (fun c => match c with CallSetRxIqBalance x => [x] | _ => [] end) t.

Definition corrections (evs : list event) : list complex :=
  flat_map (fun e => match e with EvProbe _ _ c _ => [c] | _ => [] end) evs.

(** The calls of the wait for the LOs: polls of the two [lo_locked]
    sensors and readings of the clock. *)
Definition lo_poll (c : devcall) : Prop :=
  match c with
  | CallGetTxSensor name _ | CallGetRxSensor name _ => name = "lo_locked"
  | CallGetSystemTime _ => True
  | _ => False
  end.

(** One poll of the sensors as line 82 makes it: the RX sensor is read
    only when the TX sensor reported lock. *)
Definition locked_poll : list devcall :=
  [CallGetTxSensor "lo_locked" true; CallGetRxSensor "lo_locked" true].

Definition failed_poll (p : list devcall) : Prop :=
  p = [CallGetTxSensor "lo_locked" false] \/
  p = [CallGetTxSensor "lo_locked" true; CallGetRxSensor "lo_locked" false].

(** A reading of the clock is not after [deadline]. *)
Definition clock_within (deadline : Z) (c : devcall) : Prop :=
  match c with
  | CallGetSystemTime now => (now <= deadline)%Z
  | _ => True
  end.

(** The calls that [main] makes with the options [vm]. *)
Definition main_call (vm : options) (c : devcall) : Prop :=
  match c with
  | CallMake a => a = args vm
  | CallSetRxAntenna a | CallSetTxAntenna a => a = "CAL"
  | CallSetRxRate r | CallSetTxRate r => r = rate vm
  | CallSetTxGain g => g = tx_gain vm
  | CallSetRxGain g => g = rx_gain vm
  | CallSetRxFreq r | CallSetTxFreq r =>
      dsp_freq_policy r = POLICY_MANUAL /\ dsp_freq r = 0
  | CallGetTxSensor name _ | CallGetRxSensor name _ => name = "lo_locked"
  | CallSetRxIqBalance _ => True
  | CallGetRxStream f => f = "fc32"
  | CallIssueStreamCmd c =>
      c = {| stream_mode := STREAM_MODE_NUM_SAMPS_AND_DONE;
             num_samps := nsamps vm; stream_now := true |}
  | CallRecv n _ => n = nsamps vm
  | CallSleep d => d = milliseconds 50
  | CallGetSystemTime _ => True
  | CallSetThreadPrioritySafe | CallGetTxStream _ | CallSend _ _
  | CallInterruptionRequested _ => False
  end.

(** Every call made so far is one that [main] makes with [vm]. *)
Definition well_called {W} (vm : options) (m : machine (W * list devcall))
  : Prop :=
  Forall (main_call vm) (journal m).

(** Moreover the corrections applied so far are those of the probes
    logged so far. *)
Definition in_step {W} (vm : options) (m : machine (W * list devcall))
  : Prop :=
  well_called vm m /\ iq_calls (journal m) = corrections (log m).

(** Moreover the buffer of [l] holds [nsamps] samples. *)
Definition search_inv {W} (vm : options) (l : locals)
    (m : machine (W * list devcall)) : Prop :=
  List.length (buff l) = nsamps vm /\ in_step vm m.

(** [k] turns of the loop of the transmit thread: the interruption
    flag read as not set, and the buffer [b] sent. *)
Definition tx_turns (k : nat) (b : list complex) (md : tx_metadata_t)
  : list devcall :=
  List.concat (repeat [CallInterruptionRequested false; CallSend b md] k).

(** * The program *)

Section Program.

Context {W : Type} (usrp : multi_usrp W).

(** [std::polar] of the C++ library, and what [usrp_cal_utils.hpp]
    declares: the constants [tau], [num_search_steps] and
    [num_search_iters], and the tone estimator. *)
Variable polar : double -> double -> complex.
Variable tau : double.
Variable num_search_steps : Z.
Variable num_search_iters : Z.
Variable compute_tone_dbrms : list complex -> double -> double.

(** The rounding of an exact result to a [double], and the conversion
    [float(...)] of a [double]. *)
Variable to_double : Q -> Q.
Variable to_float : Q -> Q.

(** A lemma depends on the parameters that its statement names. *)
Set Default Proof Using "Type".

(** *** Transmit thread (lines 38-61)

    The body of the thread, run on its own: how it interleaves with
    [main] is not part of the model.  A sample of the buffer is the
    amplitude narrowed to a [float] (line 53), with a zero imaginary
    part. *)

(** Lines 51-56. *)
Fixpoint tx_loop (fuel : nat) (tx_wave_ampl : double) (md : tx_metadata_t)
    (b : list complex) : M W (list complex) :=
  match fuel with
  | O => out_of_fuel
  | S fuel' =>
      stop <- io (interruption_requested usrp) ;;
      if (stop : bool) then ret b
      else
        let b' := map (fun _ => (to_float tx_wave_ampl, 0)) b in
        call (send usrp b' md) ;;
        emit (EvSend (List.length b') md) ;;
        tx_loop fuel' tx_wave_ampl md b'
  end.

Definition tx_thread (fuel : nat) (tx_wave_ampl : double) : M W unit :=
  call (set_thread_priority_safe usrp) ;;
  call (get_tx_stream usrp "fc32") ;;
  max_num_samps <- get (get_max_num_samps usrp) ;;
  let md := {| has_time_spec := false; end_of_burst := false |} in
  b <- tx_loop fuel tx_wave_ampl md
         (repeat complex_zero (max_num_samps * 10)) ;;
  let md := {| has_time_spec := has_time_spec md; end_of_burst := true |} in
  call (send usrp [] md) ;;
  emit (EvSend 0 md).

(** *** Tune RX and TX routine (lines 66-89) *)

Definition lo_timeout : exn :=
  runtime_error "timed out waiting for TX and/or RX LO to lock".

(** The condition of the loop of line 82.  [or] evaluates the RX
    sensor only when the TX one reports lock. *)
Definition lo_unlocked : M W bool :=
  tx_locked <- io (get_tx_sensor usrp "lo_locked") ;;
  if negb tx_locked then ret true
  else rx_locked <- io (get_rx_sensor usrp "lo_locked") ;;
       ret (negb rx_locked).

(** The loop of lines 82-86. *)
Fixpoint wait_lo_locked (fuel : nat) (start : Z) : M W unit :=
  match fuel with
  | O => out_of_fuel
  | S fuel' =>
      unlocked <- lo_unlocked ;;
      if (unlocked : bool) then
        now <- io (get_system_time usrp) ;;
        if (now >? start + milliseconds 100)%Z then throw lo_timeout
        else wait_lo_locked fuel' start
      else ret tt
  end.

Definition tune_rx_and_tx (fuel : nat) (rx_lo_freq tx_offset : double)
  : M W double :=
  emit (EvTune rx_lo_freq) ;;
  call (set_rx_freq usrp {| target_freq := rx_lo_freq;
                            dsp_freq_policy := POLICY_MANUAL;
                            dsp_freq := 0 |}) ;;
  rx_freq <- get (get_rx_freq usrp) ;;
  call (set_tx_freq usrp {| target_freq := rx_freq - tx_offset;
                            dsp_freq_policy := POLICY_MANUAL;
                            dsp_freq := 0 |}) ;;
  call (sleep usrp (milliseconds 50)) ;;
  start <- io (get_system_time usrp) ;;
  wait_lo_locked fuel start ;;
  get (get_rx_freq usrp).

(** *** Data capture routine (lines 94-111)

    [b] is the buffer passed by reference; the result is its content
    after the call.  [recv] writes the samples it got to the front. *)
Definition capture_samples (b : list complex) : M W (list complex) :=
  call (issue_stream_cmd usrp
          {| stream_mode := STREAM_MODE_NUM_SAMPS_AND_DONE;
             num_samps := List.length b;
             stream_now := true |}) ;;
  md <- io (recv usrp (List.length b)) ;;
  let num_rx_samps := List.length (rx_samps md) in
  if negb (error_code md =? ERROR_CODE_NONE)%Z then
    throw (runtime_error
             ("Unexpected error code " ++ HexString.of_Z (error_code md)))
  else if negb (num_rx_samps =? List.length b)%nat then
    throw (runtime_error "did not get all the samples requested")
  else ret (rx_samps md ++ skipn num_rx_samps b)%list.

(** *** The search at one frequency (lines 187-239) *)

(** Lines 200-227: one grid point. *)
Definition grid_point (phase_corr ampl_corr : double) (l : locals)
  : M W locals :=
  let correction := polar (ampl_corr + 1) (phase_corr * tau) in
  call (set_rx_iq_balance usrp correction) ;;
  b <- capture_samples (buff l) ;;
  let l := with_buff b l in
  actual_rx_rate <- get (get_rx_rate usrp) ;;
  actual_tx_freq <- get (get_tx_freq usrp) ;;
  actual_rx_freq <- get (get_rx_freq usrp) ;;
  let bb_tone_freq := actual_tx_freq - actual_rx_freq in
  let bb_imag_freq := - bb_tone_freq in
  let tone_dbrms := compute_tone_dbrms b (bb_tone_freq / actual_rx_rate) in
  let imag_dbrms := compute_tone_dbrms b (bb_imag_freq / actual_rx_rate) in
  let suppression := tone_dbrms - imag_dbrms in
  emit (EvProbe phase_corr ampl_corr correction suppression) ;;
  ret (if Qgtb suppression (best_suppression l)
       then with_best correction suppression phase_corr ampl_corr l
       else l).

(** Line 198: the loop over the amplitude, at one phase. *)
Definition ampl_loop (fuel : nat) (phase_corr : double) (l : locals)
  : M W locals :=
  for_double fuel
    (fun l ampl_corr =>
       Qle_bool ampl_corr (ampl_corr_stop l + ampl_corr_step l / 2))
    (fun l ampl_corr => ampl_corr + ampl_corr_step l)
    (grid_point phase_corr)
    (ampl_corr_start l) l.

(** Line 197: the loop over the phase. *)
Definition phase_loop (fuel : nat) (l : locals) : M W locals :=
  for_double fuel
    (fun l phase_corr =>
       Qle_bool phase_corr (phase_corr_stop l + phase_corr_step l / 2))
    (fun l phase_corr => phase_corr + phase_corr_step l)
    (ampl_loop fuel)
    (phase_corr_start l) l.

(** Lines 235-238. *)
Definition recenter (l : locals) : locals :=
  with_window (best_phase_corr l - phase_corr_step l)
              (best_phase_corr l + phase_corr_step l)
              (best_ampl_corr l - ampl_corr_step l)
              (best_ampl_corr l + ampl_corr_step l) l.

(** Lines 194-195.  [num_search_steps-1] is computed in [size_t] and
    converted to [double] by the division. *)
Definition set_steps (l : locals) : locals :=
  let d := inject_Z (size_t_wrap (num_search_steps - 1)) in
  with_steps ((phase_corr_stop l - phase_corr_start l) / d)
             ((ampl_corr_stop l - ampl_corr_start l) / d) l.

(** Lines 193-239: the body of the loop over [i]. *)
Definition search_round (fuel : nat) (l : locals) : M W locals :=
  l' <- phase_loop fuel (set_steps l) ;;
  ret (recenter l').

(** Line 192: [k] rounds. *)
Definition search_rounds (fuel : nat) (k : nat) (l : locals) : M W locals :=
  for_size_t k (search_round fuel) l.

Definition search (fuel : nat) (l : locals) : M W locals :=
  search_rounds fuel (Z.to_nat num_search_iters) (search_decls l).

(** *** The sweep (lines 183-254) *)

(** Lines 241-248. *)
Definition keep_result (rx_lo : double) (l : locals) : locals :=
  if Qgtb (best_suppression l) 30 then
    with_results
      (results l ++ [ {| freq := rx_lo;
                         real_corr := real (best_correction l);
                         imag_corr := imag (best_correction l);
                         sup := best_suppression l |} ])%list l
  else l.

Definition sweep_body (fuel : nat) (vm : options) (rx_lo_i : double)
    (l : locals) : M W locals :=
  rx_lo <- tune_rx_and_tx fuel rx_lo_i (tx_offset vm) ;;
  l1 <- search fuel l ;;
  let l2 := keep_result rx_lo l1 in
  (if verbose vm then emit (EvProgress rx_lo (best_suppression l2))
   else emit (EvPrint ".")) ;;
  ret l2.

(** Line 183.  The loop variable is a [double]: its initial value,
    the bound it is compared with and every increment are rounded. *)
Definition sweep (fuel : nat) (vm : options) (freq_range : double * double)
    (l : locals) : M W locals :=
  for_double fuel
    (fun _ rx_lo_i => Qltb rx_lo_i (to_double (snd freq_range - 50e6)))
    (fun _ rx_lo_i => to_double (rx_lo_i + freq_step vm))
    (sweep_body fuel vm)
    (to_double (fst freq_range + 50e6)) l.

(** *** Main (lines 116-264)

    The body of the function that the macro [UHD_SAFE_MAIN] declares;
    [vm] holds the parsed options.  [store_results] is defined in
    [usrp_cal_utils.hpp]; the call is recorded in the log with its
    arguments.  So are the creation, the interruption and the join of
    the transmit thread.  Nothing in the body catches an exception. *)

Definition no_cal_antenna : exn :=
  runtime_error
    "This board does not have the CAL antenna option, cannot self-calibrate.".

(** The locals of [main] before the sweep: the buffer of [nsamps]
    samples and the empty table. *)
Definition main_decls (vm : options) : locals :=
  search_decls
    {| buff := repeat complex_zero (nsamps vm); results := [];
       best_correction := complex_zero;
       phase_corr_start := 0; phase_corr_stop := 0; phase_corr_step := 0;
       ampl_corr_start := 0; ampl_corr_stop := 0; ampl_corr_step := 0;
       best_suppression := 0; best_phase_corr := 0; best_ampl_corr := 0 |}.

Definition UHD_SAFE_MAIN (fuel : nat) (vm : options) : M W Z :=
  if help vm then
    emit EvHelp ;;
    ret (Z.lnot 0)
  else
    emit (EvPrint "") ;;
    emit (EvPrint ("Creating the usrp device with: " ++ args vm ++ "...")) ;;
    call (make usrp (args vm)) ;;
    rx_antennas <- get (get_rx_antennas usrp) ;;
    tx_antennas <- get (get_tx_antennas usrp) ;;
    if negb (has rx_antennas "CAL") || negb (has tx_antennas "CAL") then
      throw no_cal_antenna
    else
      call (set_rx_antenna usrp "CAL") ;;
      call (set_tx_antenna usrp "CAL") ;;
      call (set_rx_rate usrp (rate vm)) ;;
      call (set_tx_rate usrp (rate vm)) ;;
      call (set_tx_gain usrp (tx_gain vm)) ;;
      call (set_rx_gain usrp (rx_gain vm)) ;;
      call (get_rx_stream usrp "fc32") ;;
      emit (EvThreadCreated (tx_wave_ampl vm)) ;;
      freq_range <- get (get_rx_freq_range usrp) ;;
      l <- sweep fuel vm freq_range (main_decls vm) ;;
      emit (EvPrint "") ;;
      emit EvInterruptAll ;;
      emit EvJoinAll ;;
      emit (EvStoreResults (results l) "RX" "rx") ;;
      ret 0%Z.

(** ** Vocabulary of the properties *)

(** The events a run added to the log: those of [m'] after the ones
    [m] already had. *)
Definition since (m m' : machine W) : list event :=
  skipn (List.length (log m)) (log m').

(** A Hoare logic for the monad.

    [hoare P c Q E]: from a machine satisfying [P], a run of [c] that
    returns [a] ends in a machine satisfying [Q a], and a run that
    throws or runs out of fuel ends in one satisfying [E]. *)
Definition hoare {A} (P : machine W -> Prop) (c : M W A)
    (Q : A -> machine W -> Prop) (E : machine W -> Prop) : Prop :=
  forall m o m', P m -> c m = (o, m') ->
    match o with
    | Ok a => Q a m'
    | _ => E m'
    end.

(** [raises c X]: every exception that [c] throws satisfies [X]. *)
Definition raises {A} (c : M W A) (X : exn -> Prop) : Prop :=
  forall m e m', c m = (Throw e, m') -> X e.

(** [log_blind c]: [c] does not read the log.  Run from the same
    world with two logs, it has the same outcome, ends in the same
    world and appends the same events. *)
Definition log_blind {A} (c : M W A) : Prop :=
  forall w L1 L2,
    fst (c {| world := w; log := L1 |}) = fst (c {| world := w; log := L2 |}) /\
    world (snd (c {| world := w; log := L1 |})) =
      world (snd (c {| world := w; log := L2 |})) /\
    exists evs,
      log (snd (c {| world := w; log := L1 |})) = (L1 ++ evs)%list /\
      log (snd (c {| world := w; log := L2 |})) = (L2 ++ evs)%list.

(** The four variables that hold the best point. *)
Definition best_t := (complex * double * double * double)%type.

Definition best_of (l : locals) : best_t :=
  (best_correction l, best_suppression l, best_phase_corr l, best_ampl_corr l).

Definition best_sup (b : best_t) : double := snd (fst (fst b)).

(** What lines 222-227 do with one probe. *)
Definition pick (b : best_t) (e : event) : best_t :=
  match e with
  | EvProbe p a c s => if Qgtb s (best_sup b) then (c, s, p, a) else b
  | _ => b
  end.

Definition is_probe (e : event) : Prop :=
  match e with EvProbe _ _ _ _ => True | _ => False end.

(** Every probe of [evs] measured a suppression related to [s] by [R]. *)
Definition probes_all (R : double -> double -> Prop) (s : double)
    (evs : list event) : Prop :=
  forall p a c s', In (EvProbe p a c s') evs -> R s' s.

(** [l] has the window, the steps and the table of [l0]. *)
Definition same_window (l0 l : locals) : Prop :=
  phase_corr_start l = phase_corr_start l0 /\
  phase_corr_stop l = phase_corr_stop l0 /\
  phase_corr_step l = phase_corr_step l0 /\
  ampl_corr_start l = ampl_corr_start l0 /\
  ampl_corr_stop l = ampl_corr_stop l0 /\
  ampl_corr_step l = ampl_corr_step l0 /\
  results l = results l0.

(** Since the log was [L0] only probes were logged. *)
Definition probed (L0 : list event) (m : machine W) : Prop :=
  exists evs, log m = (L0 ++ evs)%list /\ Forall is_probe evs.

(** Moreover the best point of [l] is the fold of [pick] over them,
    from [b0]. *)
Definition scanned (L0 : list event) (b0 : best_t) (l : locals)
    (m : machine W) : Prop :=
  exists evs, log m = (L0 ++ evs)%list /\ Forall is_probe evs /\
              best_of l = fold_left pick evs b0.

Definition best_init : best_t := (complex_zero, 0, 0, 0).

(** The events of the sweep loop. *)
Definition sweep_event (e : event) : Prop :=
  match e with
  | EvTune _ | EvProbe _ _ _ _ | EvPrint _ | EvProgress _ _ => True
  | _ => False
  end.

(** Since the log was [L0] only events of the sweep were logged. *)
Definition swept (L0 : list event) (m : machine W) : Prop :=
  exists evs, log m = (L0 ++ evs)%list /\ Forall sweep_event evs.

(** Since the log was [L0] only buffers that do not end the burst
    were sent. *)
Definition sending (L0 : list event) (m : machine W) : Prop :=
  exists evs, log m = (L0 ++ evs)%list /\
              Forall (fun e => exists n md,
                          e = EvSend n md /\ end_of_burst md = false) evs.

(** The events of the epilogue are the three below; the others are
    logged before it. *)
Definition before_epilogue (e : event) : Prop :=
  match e with
  | EvInterruptAll | EvJoinAll | EvStoreResults _ _ _ => False
  | _ => True
  end.

(** The frequencies tuned to, in order. *)
Definition tuned (evs : list event) : list double :=
  flat_map (fun e => match e with EvTune f => [f] | _ => [] end) evs.

(** The value of the loop variable of the sweep after [n] increments,
    and the first [n] values it takes. *)
Definition nth_candidate (x0 step : double) (n : nat) : double :=
  Nat.iter n (fun x => x + step) x0.

Definition candidates (x0 step : double) (n : nat) : list double :=
  map (nth_candidate x0 step) (seq 0 n).

(** The values that the variable of a loop of line 197 or 198 takes
    from [x] on, while fuel lasts. *)
Fixpoint axis_points (fuel : nat) (x stop step : double) : list double :=
  match fuel with
  | O => []
  | S fuel' =>
      if Qle_bool x (stop + step / 2)
      then x :: axis_points fuel' (x + step) stop step
      else []
  end.

(** The grid of a round, in scan order: the phase outermost. *)
Definition grid_points (fuel : nat) (l : locals) : list (double * double) :=
  flat_map
    (fun p =>
       map (pair p)
         (axis_points fuel (ampl_corr_start l) (ampl_corr_stop l)
            (ampl_corr_step l)))
    (axis_points fuel (phase_corr_start l) (phase_corr_stop l)
       (phase_corr_step l)).

(** The coordinates probed, in order. *)
Definition coords (evs : list event) : list (double * double) :=
  flat_map (fun e => match e with EvProbe p a _ _ => [(p, a)] | _ => [] end)
    evs.

(** The invariant of the scan of one round. *)
Definition scan_inv (L0 : list event) (b0 : best_t) (l0 l : locals)
    (m : machine W) : Prop :=
  same_window l0 l /\ scanned L0 b0 l m.

(** The invariant of the rounds: the table is untouched, and the best
    point is the fold of [pick] over all the probes so far. *)
Definition rounds_inv (L0 : list event) (b0 : best_t) (r0 : list result_t)
    (l : locals) (m : machine W) : Prop :=
  results l = r0 /\ scanned L0 b0 l m.

(** What lines 249-252 print: in verbose mode the event holds the
    values that line 250 formats, [rx_lo] before its division by 1e6. *)
Definition progress_event (vm : options) (rx_lo : double) (l : locals)
  : event :=
  if verbose vm then EvProgress rx_lo (best_suppression l) else EvPrint ".".

(** What [main] logs before the sweep. *)
Definition preamble (vm : options) : list event :=
  [EvPrint "";
   EvPrint ("Creating the usrp device with: " ++ args vm ++ "...")].

(** What it logs after a completed sweep that left the table [t]. *)
Definition epilogue (t : list result_t) : list event :=
  [EvPrint ""; EvInterruptAll; EvJoinAll; EvStoreResults t "RX" "rx"].

(** A window with a positive width on each axis. *)
Definition wide (l : locals) : Prop :=
  phase_corr_start l < phase_corr_stop l /\
  ampl_corr_start l < ampl_corr_stop l.

(** The increment of the loop variable of the sweep, the value of the
    variable after [n] increments, and the first [n] values it takes. *)
Definition next_candidate (vm : options) (rx_lo_i : double) : double :=
  to_double (rx_lo_i + freq_step vm).

Definition sweep_candidate (vm : options) (range : double * double) (n : nat)
  : double :=
  Nat.iter n (next_candidate vm) (to_double (fst range + 50e6)).

Definition sweep_candidates (vm : options) (range : double * double) (n : nat)
  : list double :=
  map (sweep_candidate vm range) (seq 0 n).

(** The bound that the loop variable of the sweep is compared with. *)
Definition sweep_bound (range : double * double) : double :=
  to_double (snd range - 50e6).

(** After [n] increments the loop variable of the sweep is not below
    the bound any more. *)
Definition reaches_bound (vm : options) (range : double * double) (n : nat)
  : Prop :=
  sweep_bound range <= sweep_candidate vm range n.

(** The frequency step moves the loop variable of the sweep up by
    [delta] or more, wherever in the range the variable is. *)
Definition advances (vm : options) (range : double * double) (delta : Q)
  : Prop :=
  0 < delta /\
  (forall x, to_double (fst range + 50e6) <= x -> x < sweep_bound range ->
             x + delta <= next_candidate vm x).

(** A probe of [evs] was made at the point [(p, a)]. *)
Definition at_point (p a : double) (evs : list event) : Prop :=
  exists p' a' c s, In (EvProbe p' a' c s) evs /\ p' == p /\ a' == a.

Definition probed_at (p a : double) (evs : list event) : bool :=
  existsb (fun e => match e with
                    | EvProbe p' a' _ _ => Qeq_bool p' p && Qeq_bool a' a
                    | _ => false
                    end) evs.

(** A decidable check of [probes_all]. *)
Definition probes_allb (f : double -> bool) (evs : list event) : bool :=
  forallb (fun e => match e with EvProbe _ _ _ s => f s | _ => true end) evs.

(** ** Quantities of the properties that depend on the program *)

(** The divisor of lines 194-195. *)
Definition steps_divisor : Q := inject_Z (size_t_wrap (num_search_steps - 1)).

(** The world after lines 151-170: the device made and configured. *)
Definition setup_world (vm : options) (w : W) : W :=
  get_rx_stream usrp "fc32"
    (set_rx_gain usrp (rx_gain vm)
       (set_tx_gain usrp (tx_gain vm)
          (set_tx_rate usrp (rate vm)
             (set_rx_rate usrp (rate vm)
                (set_tx_antenna usrp "CAL"
                   (set_rx_antenna usrp "CAL" (make usrp (args vm) w))))))).

(** The test of line 154. *)
Definition lacks_cal (vm : options) (w : W) : bool :=
  negb (has (get_rx_antennas usrp (make usrp (args vm) w)) "CAL") ||
  negb (has (get_tx_antennas usrp (make usrp (args vm) w)) "CAL").

(** The fuel that one pass over an axis of the grid needs. *)
Definition grid_fuel : nat := S (Z.to_nat (num_search_steps - 1)).

(** The invariant of a scan that completes: the window of [l0], whose
    steps are positive and divide its widths into [steps_divisor]
    parts. *)
Definition gridded (l0 : locals) : Prop :=
  0 < phase_corr_step l0 /\
  0 < ampl_corr_step l0 /\
  steps_divisor * phase_corr_step l0 == phase_corr_stop l0 - phase_corr_start l0 /\
  steps_divisor * ampl_corr_step l0 == ampl_corr_stop l0 - ampl_corr_start l0.

(** The RX range that [main] reads at line 181, on the device in the
    world [w]. *)
Definition main_range (vm : options) (w : W) : double * double :=
  get_rx_freq_range usrp (setup_world vm w).

(** [now] tells the time of the device clock in a world:
    [get_system_time] reads it, and neither a reading of the clock nor
    a poll of a sensor sets it back. *)
Definition clock (now : W -> Z) : Prop :=
  forall w,
    fst (get_system_time usrp w) = now w /\
    (now w <= now (snd (get_system_time usrp w)))%Z /\
    forall name,
      (now w <= now (snd (get_tx_sensor usrp name w)))%Z /\
      (now w <= now (snd (get_rx_sensor usrp name w)))%Z.

(** A poll of the TX sensor takes [q] microseconds or more. *)
Definition poll_takes (now : W -> Z) (q : Z) : Prop :=
  (0 < q)%Z /\
  forall name w, (now w + q <= now (snd (get_tx_sensor usrp name w)))%Z.

(** At every poll the TX LO or the RX LO fails to report lock. *)
Definition never_locks : Prop :=
  forall w,
    fst (get_tx_sensor usrp "lo_locked" w) = false \/
    fst (get_rx_sensor usrp "lo_locked"
           (snd (get_tx_sensor usrp "lo_locked" w))) = false.

(** The world in which the tuning routine reads the clock at line 80:
    both LOs tuned and the 50 ms slept. *)
Definition settled (rx_lo_freq tx_offset : double) (w : W) : W :=
  let w1 := set_rx_freq usrp {| target_freq := rx_lo_freq;
                                dsp_freq_policy := POLICY_MANUAL;
                                dsp_freq := 0 |} w in
  sleep usrp (milliseconds 50)
    (set_tx_freq usrp {| target_freq := get_rx_freq usrp w1 - tx_offset;
                         dsp_freq_policy := POLICY_MANUAL;
                         dsp_freq := 0 |} w1).

(** The fuel that the wait for the lock needs to see the 100 ms pass,
    when a poll takes [q] microseconds. *)
Definition wait_fuel (q : Z) : nat := S (Z.to_nat (milliseconds 100 / q)).

(** Every call of the tuning routine with [tune_fuel] units of fuel or
    more, and every capture, returns. *)
Definition tunes (tune_fuel : nat) : Prop :=
  forall fuel rx_lo_freq offset m, (tune_fuel <= fuel)%nat ->
    exists rx_lo m',
      tune_rx_and_tx fuel rx_lo_freq offset m = (Ok rx_lo, m').

Definition captures : Prop :=
  forall b m, exists b' m', capture_samples b m = (Ok b', m').

(** Every probe of [evs] is at an amplitude of at least [lo], and its
    correction is the one line 200 computes at its coordinates. *)
Definition probes_from (lo : double) (evs : list event) : Prop :=
  forall p a c s, In (EvProbe p a c s) evs ->
    lo <= a /\ c = polar (a + 1) (p * tau).

(** Since the log was [L0] only such probes were logged. *)
Definition logged_from (lo : double) (L0 : list event) (m : machine W)
  : Prop :=
  exists evs, log m = (L0 ++ evs)%list /\ probes_from lo evs.

(** ** Vocabulary of the properties of the helpers and of [main] *)

(** The two exceptions of [capture_samples] (lines 104 and 109). *)
Definition short_read : exn :=
  runtime_error "did not get all the samples requested".

Definition bad_error_code (code : Z) : exn :=
  runtime_error ("Unexpected error code " ++ HexString.of_Z code).

(** What [recv] returns at line 100, after the stream command of
    line 98, and the world it leaves. *)
Definition capture_recv (b : list complex) (w : W) : recv_t * W :=
  recv usrp (List.length b)
    (issue_stream_cmd usrp
       {| stream_mode := STREAM_MODE_NUM_SAMPS_AND_DONE;
          num_samps := List.length b; stream_now := true |} w).

(** The exceptions of the sweep. *)
Definition sweep_exn (e : exn) : Prop :=
  e = lo_timeout \/ e = short_read \/
  exists code, code <> ERROR_CODE_NONE /\ e = bad_error_code code.

(** What a run wrote to [std::cout], in order. *)
Definition printed (evs : list event) : list event :=
  filter (fun e => match e with
                   | EvHelp | EvPrint _ | EvProgress _ _ => true
                   | _ => false
                   end) evs.

(** The probes of a run, in order. *)
Definition probes (evs : list event) : list event :=
  filter (fun e => match e with EvProbe _ _ _ _ => true | _ => false end) evs.

(** What lines 249-252 print for one frequency: a line in verbose
    mode, a dot otherwise. *)
Definition progress_mark (vm : options) (e : event) : Prop :=
  if verbose vm then exists rx_lo best, e = EvProgress rx_lo best
  else e = EvPrint ".".

(** The grid of [n] points on each axis, from [p0] and [a0] with the steps
    [ps] and [als], in scan order. *)
Definition full_grid (n : nat) (p0 ps a0 als : double)
  : list (double * double) :=
  flat_map (fun p => map (pair p) (candidates a0 als n)) (candidates p0 ps n).

(** The [rx_lo] and the best suppression that line 250 was given, at
    the frequencies where that suppression is more than 30 dB, in
    order.  Line 250 formats [rx_lo / 1e6] and the suppression with
    [%f]; the log holds the values, not the text. *)
Definition reported (evs : list event) : list (double * double) :=
  flat_map (fun e => match e with
                     | EvProgress f s => if Qgtb s 30 then [(f, s)] else []
                     | _ => []
                     end) evs.

(** * Reasoning about runs *)

(** ** Comparisons and the rules of the Hoare logic *)

Lemma Qgtb_true (a b : Q) : Qgtb a b = true <-> b < a.
Proof.
  unfold Qgtb. rewrite negb_true_iff.
  split; intro H.
  - apply Qnot_le_lt. intro Hle. apply Qle_bool_iff in Hle. congruence.
  - destruct (Qle_bool a b) eqn:E; [|reflexivity].
    apply Qle_bool_iff in E. exfalso. apply (Qlt_not_le _ _ H E).
Qed.

Lemma Qgtb_false (a b : Q) : Qgtb a b = false <-> a <= b.
Proof.
  unfold Qgtb. rewrite negb_false_iff. apply Qle_bool_iff.
Qed.

Lemma Qltb_true (a b : Q) : Qltb a b = true <-> a < b.
Proof. apply (Qgtb_true b a). Qed.

Lemma Qltb_false (a b : Q) : Qltb a b = false <-> b <= a.
Proof. apply (Qgtb_false b a). Qed.

Lemma hoare_conseq {A} P P' (c : M W A) (Q Q' : A -> machine W -> Prop) E E' :
  hoare P' c Q' E' ->
  (forall m, P m -> P' m) ->
  (forall a m, Q' a m -> Q a m) ->
  (forall m, E' m -> E m) ->
  hoare P c Q E.
Proof.
  intros H HP HQ HE m o m' Hm Hrun.
  specialize (H m o m' (HP _ Hm) Hrun).
  destruct o; auto.
Qed.

Lemma hoare_ret {A} P (a : A) (Q : A -> machine W -> Prop) E :
  (forall m, P m -> Q a m) -> hoare P (ret a) Q E.
Proof. intros H m o m' Hm Hrun. inversion Hrun; subst. auto. Qed.

Lemma hoare_throw {A} P e (Q : A -> machine W -> Prop) E :
  (forall m, P m -> E m) -> hoare P (throw e) Q E.
Proof. intros H m o m' Hm Hrun. inversion Hrun; subst. auto. Qed.

Lemma hoare_out_of_fuel {A} P (Q : A -> machine W -> Prop) E :
  (forall m, P m -> E m) -> hoare P out_of_fuel Q E.
Proof. intros H m o m' Hm Hrun. inversion Hrun; subst. auto. Qed.

Lemma hoare_bind {A B} P (c : M W A) (k : A -> M W B)
    (R : A -> machine W -> Prop) (Q : B -> machine W -> Prop) E :
  hoare P c R E ->
  (forall a, hoare (R a) (k a) Q E) ->
  hoare P (bind c k) Q E.
Proof.
  intros Hc Hk m o m' Hm Hrun. unfold bind in Hrun.
  destruct (c m) as [[a|e|] m1] eqn:Ec.
  - exact (Hk a m1 o m' (Hc m _ m1 Hm Ec) Hrun).
  - inversion Hrun; subst. exact (Hc m _ m' Hm Ec).
  - inversion Hrun; subst. exact (Hc m _ m' Hm Ec).
Qed.

Lemma hoare_call P (f : W -> W) (Q : unit -> machine W -> Prop) E :
  (forall m, P m -> Q tt {| world := f (world m); log := log m |}) ->
  hoare P (call f) Q E.
Proof. intros H m o m' Hm Hrun. inversion Hrun; subst. auto. Qed.

Lemma hoare_get {A} P (f : W -> A) (Q : A -> machine W -> Prop) E :
  (forall m, P m -> Q (f (world m)) m) ->
  hoare P (get f) Q E.
Proof. intros H m o m' Hm Hrun. inversion Hrun; subst. auto. Qed.

Lemma hoare_io {A} P (f : W -> A * W) (Q : A -> machine W -> Prop) E :
  (forall m, P m ->
     Q (fst (f (world m))) {| world := snd (f (world m)); log := log m |}) ->
  hoare P (io f) Q E.
Proof.
  intros H m o m' Hm Hrun. unfold io in Hrun.
  specialize (H m Hm). destruct (f (world m)) as [a w].
  inversion Hrun; subst. exact H.
Qed.

Lemma hoare_emit P (e : event) (Q : unit -> machine W -> Prop) E :
  (forall m, P m -> Q tt {| world := world m; log := log m ++ [e] |}) ->
  hoare P (emit e) Q E.
Proof. intros H m o m' Hm Hrun. inversion Hrun; subst. auto. Qed.

(** The loop rule: an invariant [I] on the locals and the machine. *)
Lemma hoare_for_double {A} (I : A -> machine W -> Prop) E
    (cond : A -> double -> bool) (incr : A -> double -> double)
    (body : double -> A -> M W A) :
  (forall a m, I a m -> E m) ->
  (forall x a, hoare (I a) (body x a) I E) ->
  forall fuel x a, hoare (I a) (for_double fuel cond incr body x a) I E.
Proof.
  intros HE Hbody. induction fuel as [|fuel IH]; intros x a; simpl.
  - apply hoare_out_of_fuel. apply HE.
  - destruct (cond a x).
    + eapply hoare_bind; [apply Hbody|]. intro a'. apply IH.
    + apply hoare_ret. auto.
Qed.

Lemma hoare_for_size_t {A} (I : A -> machine W -> Prop) E
    (body : A -> M W A) :
  (forall a, hoare (I a) (body a) I E) ->
  forall n a, hoare (I a) (for_size_t n body a) I E.
Proof.
  intros Hbody. induction n as [|n IH]; intros a; simpl.
  - apply hoare_ret. auto.
  - eapply hoare_bind; [apply IH|]. intro a'. apply Hbody.
Qed.

(** The same with the loop variable in the invariant; on exit the
    condition is false. *)
Lemma hoare_for_double_x {A} (I : double -> A -> machine W -> Prop) E
    (cond : A -> double -> bool) (incr : A -> double -> double)
    (body : double -> A -> M W A) :
  (forall x a m, I x a m -> E m) ->
  (forall x a, cond a x = true ->
     hoare (I x a) (body x a) (fun a' m => I (incr a' x) a' m) E) ->
  forall fuel x a,
    hoare (I x a) (for_double fuel cond incr body x a)
          (fun a' m => exists x', I x' a' m /\ cond a' x' = false) E.
Proof.
  intros HE Hbody. induction fuel as [|fuel IH]; intros x a; simpl.
  - apply hoare_out_of_fuel. apply HE.
  - destruct (cond a x) eqn:Ec.
    + eapply hoare_bind; [apply Hbody; exact Ec|]. intro a'. apply IH.
    + apply hoare_ret. intros m Hm. exists x. auto.
Qed.

Lemma raises_bind {A B} (c : M W A) (k : A -> M W B) X :
  raises c X -> (forall a, raises (k a) X) -> raises (bind c k) X.
Proof.
  intros Hc Hk m e m' Hrun. unfold bind in Hrun.
  destruct (c m) as [[a|e'|] m1] eqn:Ec.
  - exact (Hk a m1 e m' Hrun).
  - inversion Hrun; subst. exact (Hc m e m' Ec).
  - discriminate.
Qed.

Lemma raises_never {A} (c : M W A) X :
  (forall m e m', c m <> (Throw e, m')) -> raises c X.
Proof. intros H m e m' Hrun. exfalso. exact (H m e m' Hrun). Qed.

Lemma raises_for_double {A} X (cond : A -> double -> bool)
    (incr : A -> double -> double) (body : double -> A -> M W A) :
  (forall x a, raises (body x a) X) ->
  forall fuel x a, raises (for_double fuel cond incr body x a) X.
Proof.
  intros Hbody. induction fuel as [|fuel IH]; intros x a; simpl.
  - intros m e m' H. discriminate.
  - destruct (cond a x).
    + apply raises_bind; [apply Hbody|]. intro a'. apply IH.
    + intros m e m' H. discriminate.
Qed.

Lemma raises_for_size_t {A} X (body : A -> M W A) :
  (forall a, raises (body a) X) ->
  forall n a, raises (for_size_t n body a) X.
Proof.
  intros Hbody. induction n as [|n IH]; intros a; simpl.
  - intros m e m' H. discriminate.
  - apply raises_bind; [apply IH|]. intro a'. apply Hbody.
Qed.

(** Termination of a loop whose variable grows by [s > 0] up to
    [bound]: if [K] increments pass the bound, more than [K] units of
    fuel are enough, provided the body completes. *)
Lemma for_double_total {A} (Inv : A -> Prop)
    (cond : A -> double -> bool) (incr : A -> double -> double)
    (body : double -> A -> M W A) (bound s : Q) :
  0 < s ->
  (forall a x, Inv a -> cond a x = true -> x <= bound) ->
  (forall a x, Inv a -> incr a x = x + s) ->
  (forall x a m, Inv a -> exists a' m', body x a m = (Ok a', m') /\ Inv a') ->
  forall K fuel x a m,
    Inv a -> bound < x + inject_Z (Z.of_nat K) * s -> (K < fuel)%nat ->
    exists a' m', for_double fuel cond incr body x a m = (Ok a', m') /\ Inv a'.
Proof.
  intros Hs Hcond Hincr Hbody.
  induction K as [|K IH]; intros fuel x a m Hinv Hb Hf;
    (destruct fuel as [|fuel]; [lia|]); simpl;
    destruct (cond a x) eqn:Ec; try (exists a, m; split; [reflexivity|exact Hinv]).
  - exfalso. apply (Hcond _ _ Hinv) in Ec.
    change (inject_Z (Z.of_nat 0)) with 0 in Hb. lra.
  - destruct (Hbody x a m Hinv) as (a' & m1 & Hrun & Hinv').
    unfold bind. rewrite Hrun. apply IH; [exact Hinv'| |lia].
    rewrite (Hincr _ _ Hinv').
    rewrite Nat2Z.inj_succ in Hb. unfold Z.succ in Hb.
    rewrite inject_Z_plus in Hb. change (inject_Z 1) with 1 in Hb.
    set (k := inject_Z (Z.of_nat K)) in *.
    assert (Hk : (k + 1) * s == k * s + s) by ring.
    rewrite Hk in Hb. lra.
Qed.

(** ** The best point as a fold over the probes *)

Lemma pick_sup_le (b : best_t) (e : event) : best_sup b <= best_sup (pick b e).
Proof.
  destruct e; simpl; try apply Qle_refl.
  destruct (Qgtb suppression (best_sup b)) eqn:E.
  - apply Qgtb_true in E. apply Qlt_le_weak. exact E.
  - apply Qle_refl.
Qed.

Lemma fold_pick_sup_le (evs : list event) (b : best_t) :
  best_sup b <= best_sup (fold_left pick evs b).
Proof.
  revert b. induction evs as [|e evs IH]; intro b; simpl.
  - apply Qle_refl.
  - eapply Qle_trans; [apply pick_sup_le | apply IH].
Qed.

(** The best suppression bounds every probe. *)
Lemma fold_pick_max (evs : list event) (b : best_t) :
  probes_all Qle (best_sup (fold_left pick evs b)) evs.
Proof.
  revert b. induction evs as [|e evs IH]; intros b p a c s Hin.
  - destruct Hin.
  - destruct Hin as [->|Hin].
    + simpl fold_left. eapply Qle_trans; [|apply fold_pick_sup_le].
      simpl. destruct (Qgtb s (best_sup b)) eqn:E.
      * apply Qle_refl.
      * apply Qgtb_false in E. exact E.
    + simpl. eapply IH; eauto.
Qed.

(** Probes that do not exceed the best suppression leave the best point
    as it is. *)
Lemma fold_pick_keep (evs : list event) (b : best_t) :
  probes_all Qle (best_sup b) evs -> fold_left pick evs b = b.
Proof.
  induction evs as [|e evs IH]; intro H; simpl; [reflexivity|].
  assert (He : pick b e = b).
  { destruct e; simpl; try reflexivity.
    destruct (Qgtb suppression (best_sup b)) eqn:E; [|reflexivity].
    apply Qgtb_true in E.
    specialize (H _ _ _ _ (or_introl eq_refl)).
    exfalso. apply (Qlt_not_le _ _ E H). }
  rewrite He. apply IH. intros p a c s Hin. eapply H. right. exact Hin.
Qed.

(** When the best suppression rose, the best point is the first probe
    that measured the highest suppression: the probes before it are
    strictly lower, the probes after it at most equal. *)
Lemma fold_pick_first (evs : list event) (b : best_t) :
  best_sup b < best_sup (fold_left pick evs b) ->
  exists before p a c s after,
    evs = (before ++ EvProbe p a c s :: after)%list /\
    fold_left pick evs b = (c, s, p, a) /\
    probes_all Qlt s before /\
    probes_all Qle s after.
Proof.
  revert b. induction evs as [|e evs IH]; intros b Hlt; simpl in *.
  - exfalso. apply (Qlt_irrefl _ Hlt).
  - destruct (Qlt_le_dec (best_sup (pick b e))
                (best_sup (fold_left pick evs (pick b e)))) as [Hup|Hkeep].
    + destruct (IH _ Hup) as (before & p & a & c & s & after & -> & Hf & Hb & Ha).
      exists (e :: before), p, a, c, s, after.
      repeat split; auto.
      intros p' a' c' s' [->|Hin]; [|eapply Hb; eauto].
      rewrite Hf in Hup. change (best_sup (c, s, p, a)) with s in Hup.
      eapply Qle_lt_trans; [|exact Hup]. simpl.
      destruct (Qgtb s' (best_sup b)) eqn:E.
      * apply Qle_refl.
      * apply Qgtb_false in E. exact E.
    + assert (Hall : probes_all Qle (best_sup (pick b e)) evs).
      { intros p a c s Hin. eapply Qle_trans; [|exact Hkeep].
        eapply fold_pick_max; eauto. }
      rewrite (fold_pick_keep _ _ Hall) in *.
      destruct e; simpl in Hlt; try (exfalso; apply (Qlt_irrefl _ Hlt)).
      simpl. simpl in Hall.
      destruct (Qgtb suppression (best_sup b)) eqn:E;
        [|exfalso; apply (Qlt_irrefl _ Hlt)].
      exists [], phase_corr, ampl_corr, correction, suppression, evs.
      repeat split; auto.
      intros p a c s [].
Qed.

(** ** The search, the sweep and the program *)

(** What a run of [capture_samples] is, in terms of the [recv] call. *)
Lemma capture_samples_run (b : list complex) (m : machine W) :
  capture_samples b m =
  let w1 := issue_stream_cmd usrp
              {| stream_mode := STREAM_MODE_NUM_SAMPS_AND_DONE;
                 num_samps := List.length b; stream_now := true |} (world m) in
  let md := fst (recv usrp (List.length b) w1) in
  let m' := {| world := snd (recv usrp (List.length b) w1); log := log m |} in
  if negb (error_code md =? ERROR_CODE_NONE)%Z then
    (Throw (runtime_error
              ("Unexpected error code " ++ HexString.of_Z (error_code md))), m')
  else if negb (List.length (rx_samps md) =? List.length b)%nat then
    (Throw (runtime_error "did not get all the samples requested"), m')
  else (Ok (rx_samps md ++ skipn (List.length (rx_samps md)) b)%list, m').
Proof.
  unfold capture_samples, bind, call, io. simpl.
  destruct (recv usrp _ _) as [md w]. simpl.
  destruct (negb (error_code md =? ERROR_CODE_NONE)%Z); [reflexivity|].
  destruct (negb (List.length (rx_samps md) =? List.length b)%nat);
    reflexivity.
Qed.

Lemma capture_samples_log (b : list complex) (m : machine W) o m' :
  capture_samples b m = (o, m') -> log m' = log m.
Proof.
  rewrite capture_samples_run. cbv zeta.
  destruct (negb _); [intro H; inversion H; reflexivity|].
  destruct (negb _); intro H; inversion H; reflexivity.
Qed.

(** A run of [grid_point] either ends early without logging, or logs
    one probe of the candidate and updates the best point by [pick]. *)
Lemma grid_point_run (p a : double) (l : locals) (m : machine W) o m' :
  grid_point p a l m = (o, m') ->
  ((forall l', o <> Ok l') /\ log m' = log m) \/
  (exists b s,
      let l1 := with_buff b l in
      let c := polar (a + 1) (p * tau) in
      o = Ok (if Qgtb s (best_suppression l)
              then with_best c s p a l1 else l1) /\
      log m' = (log m ++ [EvProbe p a c s])%list).
Proof.
  unfold grid_point. unfold bind at 1. unfold call at 1.
  unfold bind at 1.
  destruct (capture_samples (buff l) _) as [[b|e|] m1] eqn:Ec;
    apply capture_samples_log in Ec; simpl in Ec.
  - unfold bind, get, emit, ret. simpl. intro H. inversion H; subst.
    right. eexists _, _. split; [reflexivity|]. simpl. rewrite Ec. reflexivity.
  - intro H. inversion H; subst. left. split; [discriminate|assumption].
  - intro H. inversion H; subst. left. split; [discriminate|assumption].
Qed.

Lemma scan_inv_probed L0 b0 l0 l (m : machine W) : scan_inv L0 b0 l0 l m -> probed L0 m.
Proof. intros [_ (evs & H1 & H2 & _)]. exists evs. auto. Qed.

Lemma grid_point_spec L0 b0 l0 p a l :
  hoare (scan_inv L0 b0 l0 l) (grid_point p a l)
        (scan_inv L0 b0 l0) (probed L0).
Proof.
  intros m o m' [Hw (evs & Hlog & Hpr & Hbest)] Hrun.
  apply grid_point_run in Hrun as [[Hno Hlog'] | (b & s & -> & Hlog')].
  - destruct o as [l'| |]; [exfalso; eapply Hno; eauto| |];
      exists evs; rewrite Hlog'; auto.
  - cbv zeta. split.
    + destruct (Qgtb s (best_suppression l)); exact Hw.
    + exists (evs ++ [EvProbe p a (polar (a + 1) (p * tau)) s])%list.
      rewrite Hlog', Hlog, app_assoc. split; [reflexivity|]. split.
      * apply Forall_app. split; [assumption|]. repeat constructor.
      * rewrite fold_left_app, <- Hbest. simpl.
        change (best_sup (best_of l)) with (best_suppression l).
        destruct (Qgtb s (best_suppression l)); reflexivity.
Qed.

Lemma ampl_loop_spec L0 b0 l0 fuel p l :
  hoare (scan_inv L0 b0 l0 l) (ampl_loop fuel p l)
        (scan_inv L0 b0 l0) (probed L0).
Proof.
  unfold ampl_loop. apply hoare_for_double.
  - apply scan_inv_probed.
  - intros x a. apply grid_point_spec.
Qed.

Lemma phase_loop_spec L0 b0 l0 fuel l :
  hoare (scan_inv L0 b0 l0 l) (phase_loop fuel l)
        (scan_inv L0 b0 l0) (probed L0).
Proof.
  unfold phase_loop. apply hoare_for_double.
  - apply scan_inv_probed.
  - intros x a. apply ampl_loop_spec.
Qed.

(** A completed round: the scan kept the window and the steps set at
    its start, and the round ends by re-centering. *)
Lemma search_round_run fuel l m l' m' :
  search_round fuel l m = (Ok l', m') ->
  exists l1, same_window (set_steps l) l1 /\ l' = recenter l1 /\
             phase_loop fuel (set_steps l) m = (Ok l1, m').
Proof.
  unfold search_round, bind. intro Hrun.
  destruct (phase_loop fuel (set_steps l) m) as [[l1|e|] m1] eqn:Ep;
    try discriminate.
  inversion Hrun; subst. exists l1. split; [|split; reflexivity].
  assert (Hinv : scan_inv (log m) (best_of (set_steps l)) (set_steps l)
                   (set_steps l) m).
  { split; [repeat split|]. exists []. rewrite app_nil_r. repeat split.
    constructor. }
  exact (proj1 (phase_loop_spec _ _ _ fuel _ m (Ok l1) m' Hinv Ep)).
Qed.

Lemma search_round_spec L0 b0 r0 fuel l :
  hoare (rounds_inv L0 b0 r0 l) (search_round fuel l)
        (rounds_inv L0 b0 r0) (probed L0).
Proof.
  intros m o m' [Hr Hs] Hrun. unfold search_round, bind in Hrun.
  assert (Hinv : scan_inv L0 b0 (set_steps l) (set_steps l) m).
  { split; [repeat split|]. exact Hs. }
  destruct (phase_loop fuel (set_steps l) m) as [[l1|e|] m1] eqn:Ep;
    pose proof (phase_loop_spec _ _ _ fuel _ m _ m1 Hinv Ep) as H;
    simpl in H; inversion Hrun; subst; try exact H.
  destruct H as [Hw Hs1]. split; [|exact Hs1].
  destruct Hw as (_ & _ & _ & _ & _ & _ & Hres). exact Hres.
Qed.

Lemma rounds_inv_probed L0 b0 r0 l (m : machine W) : rounds_inv L0 b0 r0 l m -> probed L0 m.
Proof. intros [_ (evs & H1 & H2 & _)]. exists evs. auto. Qed.

Lemma search_rounds_spec L0 b0 r0 fuel k l :
  hoare (rounds_inv L0 b0 r0 l) (search_rounds fuel k l)
        (rounds_inv L0 b0 r0) (probed L0).
Proof.
  unfold search_rounds. apply hoare_for_size_t.
  intro a. apply search_round_spec.
Qed.

(** The search at one frequency: from a log [L0] it logs probes only,
    it leaves the table alone, and its best point is the fold of
    [pick] over its probes from the initial best point. *)
Lemma search_spec L0 fuel l :
  hoare (fun m => log m = L0) (search fuel l)
        (rounds_inv L0 best_init (results l)) (probed L0).
Proof.
  unfold search.
  eapply hoare_conseq; [apply search_rounds_spec| |eauto|eauto].
  intros m Hm. split; [reflexivity|].
  exists []. rewrite app_nil_r. repeat split; auto.
Qed.

Lemma since_app (m m' : machine W) (evs : list event) :
  log m' = (log m ++ evs)%list -> since m m' = evs.
Proof.
  intro H. unfold since. rewrite H. rewrite skipn_app, skipn_all, Nat.sub_diag.
  reflexivity.
Qed.

(** *** The log of the tuning routine *)

Lemma lo_unlocked_log L :
  hoare (fun m : machine W => log m = L) (lo_unlocked)
        (fun _ m => log m = L) (fun m => log m = L).
Proof.
  unfold lo_unlocked.
  eapply hoare_bind with (R := fun _ m => log m = L);
    [apply hoare_io; auto|]. intro tx_locked.
  destruct (negb tx_locked); [apply hoare_ret; auto|].
  eapply hoare_bind with (R := fun _ m => log m = L);
    [apply hoare_io; auto|]. intro. apply hoare_ret. auto.
Qed.

Lemma wait_lo_locked_log L fuel start :
  hoare (fun m : machine W => log m = L) (wait_lo_locked fuel start)
        (fun _ m => log m = L) (fun m => log m = L).
Proof.
  induction fuel as [|fuel IH]; simpl.
  - apply hoare_out_of_fuel. auto.
  - eapply hoare_bind with (R := fun _ m => log m = L);
      [apply lo_unlocked_log|].
    intros [|]; [|apply hoare_ret; auto].
    eapply hoare_bind with (R := fun _ m => log m = L);
      [apply hoare_io; auto|]. intro now.
    destruct (now >? start + milliseconds 100)%Z;
      [apply hoare_throw; auto|apply IH].
Qed.

Lemma tune_rx_and_tx_log L fuel rx_lo_freq offset :
  hoare (fun m : machine W => log m = L)
        (tune_rx_and_tx fuel rx_lo_freq offset)
        (fun _ m => log m = (L ++ [EvTune rx_lo_freq])%list)
        (fun m => log m = (L ++ [EvTune rx_lo_freq])%list).
Proof.
  unfold tune_rx_and_tx.
  set (L1 := (L ++ [EvTune rx_lo_freq])%list).
  eapply hoare_bind with (R := fun _ m => log m = L1);
    [apply hoare_emit; intros m Hm; simpl; rewrite Hm; reflexivity|]. intros _.
  eapply hoare_bind with (R := fun _ m => log m = L1);
    [apply hoare_call; auto|]. intros _.
  eapply hoare_bind with (R := fun _ m => log m = L1);
    [apply hoare_get; auto|]. intros rx_freq.
  eapply hoare_bind with (R := fun _ m => log m = L1);
    [apply hoare_call; auto|]. intros _.
  eapply hoare_bind with (R := fun _ m => log m = L1);
    [apply hoare_call; auto|]. intros _.
  eapply hoare_bind with (R := fun _ m => log m = L1);
    [apply hoare_io; auto|]. intros start.
  eapply hoare_bind with (R := fun _ m => log m = L1);
    [apply wait_lo_locked_log|]. intros _.
  apply hoare_get. auto.
Qed.

(** *** Runs of the sweep body *)

(** A completed sweep body is a tuning, then a search, then the
    threshold test and one line of progress. *)
Lemma sweep_body_ok fuel vm rx_lo_i l m l' m' :
  sweep_body fuel vm rx_lo_i l m = (Ok l', m') ->
  exists rx_lo m1 l1 m2,
    tune_rx_and_tx fuel rx_lo_i (tx_offset vm) m = (Ok rx_lo, m1) /\
    search fuel l m1 = (Ok l1, m2) /\
    l' = keep_result rx_lo l1 /\
    world m' = world m2 /\
    log m' = (log m2 ++ [progress_event vm rx_lo l'])%list.
Proof.
  unfold sweep_body, bind.
  destruct (tune_rx_and_tx fuel rx_lo_i (tx_offset vm) m)
    as [[rx_lo|e|] m1] eqn:Et; try discriminate.
  destruct (search fuel l m1) as [[l1|e|] m2] eqn:Es; try discriminate.
  unfold progress_event.
  destruct (verbose vm); unfold emit, ret; intro H; inversion H; subst;
    exists rx_lo, m1, l1, m2; repeat split; first [assumption|reflexivity].
Qed.

(** The other way round: when the tuning and the search complete, so
    does the sweep body. *)
Lemma sweep_body_complete fuel vm rx_lo_i l m rx_lo m1 l1 m2 :
  tune_rx_and_tx fuel rx_lo_i (tx_offset vm) m = (Ok rx_lo, m1) ->
  search fuel l m1 = (Ok l1, m2) ->
  sweep_body fuel vm rx_lo_i l m =
    (Ok (keep_result rx_lo l1),
     {| world := world m2;
        log := (log m2 ++ [progress_event vm rx_lo (keep_result rx_lo l1)])%list |}).
Proof.
  intros Et Es. unfold sweep_body, bind. rewrite Et, Es.
  unfold progress_event. destruct (verbose vm); reflexivity.
Qed.

(** A sweep body that does not complete stopped in the tuning or in
    the search, and logged nothing after. *)
Lemma sweep_body_abort fuel vm rx_lo_i l m o m' :
  sweep_body fuel vm rx_lo_i l m = (o, m') ->
  (forall l', o <> Ok l') ->
  (exists o', tune_rx_and_tx fuel rx_lo_i (tx_offset vm) m = (o', m') /\
              forall r, o' <> Ok r) \/
  (exists rx_lo m1 o',
      tune_rx_and_tx fuel rx_lo_i (tx_offset vm) m = (Ok rx_lo, m1) /\
      search fuel l m1 = (o', m') /\ forall r, o' <> Ok r).
Proof.
  unfold sweep_body, bind.
  destruct (tune_rx_and_tx fuel rx_lo_i (tx_offset vm) m)
    as [[rx_lo|e|] m1] eqn:Et.
  - destruct (search fuel l m1) as [[l1|e|] m2] eqn:Es.
    + destruct (verbose vm); unfold emit, ret; intros H Hno;
        inversion H; subst; exfalso; eapply Hno; reflexivity.
    + intros H _. inversion H; subst. right.
      exists rx_lo, m1, (Throw e). repeat split; auto. discriminate.
    + intros H _. inversion H; subst. right.
      exists rx_lo, m1, OutOfFuel. repeat split; auto. discriminate.
  - intros H _. inversion H; subst. left. exists (Throw e).
    split; [reflexivity|discriminate].
  - intros H _. inversion H; subst. left. exists OutOfFuel.
    split; [reflexivity|discriminate].
Qed.

Lemma keep_result_cases rx_lo l :
  (30 < best_suppression l /\
   results (keep_result rx_lo l) =
     (results l ++ [ {| freq := rx_lo;
                        real_corr := real (best_correction l);
                        imag_corr := imag (best_correction l);
                        sup := best_suppression l |} ])%list) \/
  (best_suppression l <= 30 /\ keep_result rx_lo l = l).
Proof.
  unfold keep_result. destruct (Qgtb (best_suppression l) 30) eqn:E.
  - left. apply Qgtb_true in E. split; [exact E|reflexivity].
  - right. apply Qgtb_false in E. split; [exact E|reflexivity].
Qed.

Lemma search_results fuel l m l' m' :
  search fuel l m = (Ok l', m') -> results l' = results l.
Proof.
  intro H. exact (proj1 (search_spec (log m) fuel l m _ _ eq_refl H)).
Qed.

(** *** Capture *)

(** C8: [capture_samples] raises an error if and only if the device
    reports an error code other than [ERROR_CODE_NONE] or delivers fewer
    samples than the buffer holds; when the code is none and the count
    is the requested one it returns normally, the buffer holding the
    samples received.  [recv] never delivers more than it was asked
    for: that is the hypothesis on the length. *)
Theorem capture_samples_raises_iff (b : list complex) (m : machine W)
    (md : recv_t) (w' : W) :
  recv usrp (List.length b)
       (issue_stream_cmd usrp
          {| stream_mode := STREAM_MODE_NUM_SAMPS_AND_DONE;
             num_samps := List.length b; stream_now := true |} (world m))
    = (md, w') ->
  (List.length (rx_samps md) <= List.length b)%nat ->
  ((exists e, fst (capture_samples b m) = Throw e) <->
   (error_code md <> ERROR_CODE_NONE \/
    (List.length (rx_samps md) < List.length b)%nat)) /\
  (error_code md = ERROR_CODE_NONE ->
   List.length (rx_samps md) = List.length b ->
   capture_samples b m =
     (Ok (rx_samps md), {| world := w'; log := log m |})).
Proof.
  intros Hrecv Hlen. rewrite capture_samples_run. cbv zeta.
  rewrite Hrecv. simpl fst. simpl snd.
  destruct (Z.eqb_spec (error_code md) ERROR_CODE_NONE) as [Hc|Hc];
    destruct (Nat.eqb_spec (List.length (rx_samps md)) (List.length b))
      as [Hn|Hn]; simpl; (split; [split|]).
  - intros [e He]. discriminate.
  - intros [H|H]; [contradiction|lia].
  - intros _ _. rewrite Hn, skipn_all, app_nil_r. reflexivity.
  - intros _. right. lia.
  - intros _. eexists. reflexivity.
  - intros _ H. contradiction.
  - intros _. left. assumption.
  - intros _. eexists. reflexivity.
  - intros H. contradiction.
  - intros _. left. assumption.
  - intros _. eexists. reflexivity.
  - intros H. contradiction.
Qed.

(** *** The threshold *)

(** C6: at every swept frequency whose tuning and search complete, the
    sweep body completes too, and it appends the row (frequency,
    real and imaginary part of the best correction, best suppression)
    to the table exactly when the best suppression exceeds 30;
    otherwise the table is left as it was. *)
Theorem entry_appended_iff_above_30 fuel vm rx_lo_i l m rx_lo m1 l1 m2 :
  tune_rx_and_tx fuel rx_lo_i (tx_offset vm) m = (Ok rx_lo, m1) ->
  search fuel l m1 = (Ok l1, m2) ->
  exists l' m',
    sweep_body fuel vm rx_lo_i l m = (Ok l', m') /\
    ((30 < best_suppression l1 /\
      results l' =
        (results l ++ [ {| freq := rx_lo;
                           real_corr := real (best_correction l1);
                           imag_corr := imag (best_correction l1);
                           sup := best_suppression l1 |} ])%list) \/
     (best_suppression l1 <= 30 /\ results l' = results l)).
Proof.
  intros Et Es. eexists _, _. split.
  - apply (sweep_body_complete _ _ _ _ _ _ _ _ _ Et Es).
  - pose proof (search_results _ _ _ _ _ Es) as Hr.
    destruct (keep_result_cases rx_lo l1) as [[H1 H2]|[H1 H2]].
    + left. rewrite H2, Hr. auto.
    + right. rewrite H2, Hr. auto.
Qed.

(** *** The best point is the maximum *)

(** The log of a completed sweep body: the tuning, the probes of the
    search, the line of progress. *)
Lemma sweep_body_log fuel vm rx_lo_i l m l' m' :
  sweep_body fuel vm rx_lo_i l m = (Ok l', m') ->
  exists rx_lo l1 evs,
    l' = keep_result rx_lo l1 /\
    results l1 = results l /\
    Forall is_probe evs /\
    best_of l1 = fold_left pick evs best_init /\
    log m' =
      (log m ++ EvTune rx_lo_i :: evs ++ [progress_event vm rx_lo l'])%list /\
    since m m' =
      (EvTune rx_lo_i :: evs ++ [progress_event vm rx_lo l'])%list.
Proof.
  intro Hrun.
  destruct (sweep_body_ok _ _ _ _ _ _ _ Hrun)
    as (rx_lo & m1 & l1 & m2 & Et & Es & -> & _ & Hlog).
  pose proof (tune_rx_and_tx_log (log m) _ _ _ m _ _ eq_refl Et) as Ht.
  simpl in Ht.
  destruct (search_spec (log m1) fuel l m1 _ _ eq_refl Es)
    as [Hr (evs & Hl & Hp & Hb)].
  assert (Hlog' : log m' = (log m ++ EvTune rx_lo_i :: evs ++
                              [progress_event vm rx_lo (keep_result rx_lo l1)])%list).
  { rewrite Hlog, Hl, Ht, <- !app_assoc. reflexivity. }
  exists rx_lo, l1, evs. repeat split; auto.
  apply since_app. exact Hlog'.
Qed.

(** C4: the row accepted at a frequency carries the maximum over every
    candidate evaluated at that frequency, in every round: its
    suppression is at least the suppression measured at each probe of
    the search, and its correction is that of a probe which measured
    exactly that suppression. *)
Theorem accepted_entry_is_maximum fuel vm rx_lo_i l m l' m' (r : result_t) :
  sweep_body fuel vm rx_lo_i l m = (Ok l', m') ->
  results l' = (results l ++ [r])%list ->
  probes_all Qle (sup r) (since m m') /\
  exists p a, In (EvProbe p a (real_corr r, imag_corr r) (sup r)) (since m m').
Proof.
  intros Hrun Hacc.
  destruct (sweep_body_log _ _ _ _ _ _ _ Hrun)
    as (rx_lo & l1 & evs & -> & Hr & Hp & Hb & _ & Hs).
  destruct (keep_result_cases rx_lo l1) as [[H30 Hk]|[_ Hk]].
  2:{ exfalso. rewrite Hk, Hr in Hacc.
      apply (f_equal (@List.length _)) in Hacc.
      rewrite length_app in Hacc. simpl in Hacc. lia. }
  rewrite Hk, Hr in Hacc. apply app_inv_head in Hacc.
  inversion Hacc; subst r; clear Hacc. simpl.
  assert (Hsup : best_suppression l1 = best_sup (fold_left pick evs best_init)).
  { rewrite <- Hb. reflexivity. }
  assert (Hin : forall p a c s, In (EvProbe p a c s) (since m m') ->
                                In (EvProbe p a c s) evs).
  { intros p a c s. rewrite Hs. intros [H|H]; [discriminate|].
    apply in_app_or in H as [H|[H|[]]]; [exact H|].
    unfold progress_event in H. destruct (verbose vm); discriminate. }
  split.
  - intros p a c s H. apply Hin in H. rewrite Hsup.
    eapply fold_pick_max; eauto.
  - destruct (fold_pick_first evs best_init)
      as (before & p & a & c & s & after & He & Hf & _ & _).
    { rewrite <- Hsup. change (best_sup best_init) with 0.
      eapply Qlt_trans; [|exact H30]. reflexivity. }
    rewrite <- Hb in Hf. unfold best_of in Hf.
    injection Hf as Hc Hs2 Hp2 Ha2. exists p, a.
    rewrite Hs, Hc, Hs2. right. apply in_or_app. left. rewrite He.
    apply in_or_app. right. left.
    destruct c. reflexivity.
Qed.

(** *** The window from round to round *)

Lemma search_rounds_S fuel k l m l' m' :
  search_rounds fuel (S k) l m = (Ok l', m') ->
  exists lk mk, search_rounds fuel k l m = (Ok lk, mk) /\
                search_round fuel lk mk = (Ok l', m').
Proof.
  unfold search_rounds. simpl. unfold bind at 1.
  destruct (for_size_t k _ l m) as [[lk|e|] mk]; try discriminate.
  intro H. exists lk, mk. auto.
Qed.

(** The window a round leaves: the best point, one step of that round
    to either side. *)
Lemma round_window fuel l m l' m' :
  search_round fuel l m = (Ok l', m') ->
  phase_corr_step l' = (phase_corr_stop l - phase_corr_start l) / steps_divisor /\
  ampl_corr_step l' = (ampl_corr_stop l - ampl_corr_start l) / steps_divisor /\
  phase_corr_start l' = best_phase_corr l' - phase_corr_step l' /\
  phase_corr_stop l' = best_phase_corr l' + phase_corr_step l' /\
  ampl_corr_start l' = best_ampl_corr l' - ampl_corr_step l' /\
  ampl_corr_stop l' = best_ampl_corr l' + ampl_corr_step l'.
Proof.
  intro Hrun.
  destruct (search_round_run _ _ _ _ _ Hrun) as (l1 & Hw & -> & _).
  destruct Hw as (_ & _ & Hp & _ & _ & Ha & _). simpl.
  rewrite Hp, Ha. simpl. repeat split; reflexivity.
Qed.

(** C2, as the code has it: a round replaces the width [w] of the
    window, on each axis, by two steps, that is by [2 * w / (n - 1)]
    for [n = num_search_steps]; after [k] rounds the width is the
    initial one times [(2 / (n - 1)) ^ k]. *)
Theorem window_width_after_rounds fuel k l m l' m' :
  (2 <= num_search_steps < 2 ^ 64)%Z ->
  search_rounds fuel k l m = (Ok l', m') ->
  let ratio := 2 / inject_Z (num_search_steps - 1) in
  phase_corr_stop l' - phase_corr_start l' ==
    (phase_corr_stop l - phase_corr_start l) * ratio ^ Z.of_nat k /\
  ampl_corr_stop l' - ampl_corr_start l' ==
    (ampl_corr_stop l - ampl_corr_start l) * ratio ^ Z.of_nat k.
Proof.
  intros Hn. cbv zeta. revert l' m'.
  assert (Hd : steps_divisor = inject_Z (num_search_steps - 1)).
  { unfold steps_divisor, size_t_wrap. rewrite Z.mod_small by lia. reflexivity. }
  assert (Hd0 : ~ inject_Z (num_search_steps - 1) == 0).
  { intro H. unfold Qeq in H. simpl in H. lia. }
  induction k as [|k IH]; intros l' m' Hrun.
  - unfold search_rounds in Hrun. simpl in Hrun.
    inversion Hrun; subst. simpl. split; ring.
  - destruct (search_rounds_S _ _ _ _ _ _ Hrun) as (lk & mk & Hk & Hround).
    destruct (IH _ _ Hk) as [IHp IHa].
    destruct (round_window _ _ _ _ _ Hround) as (Hp & Ha & H1 & H2 & H3 & H4).
    rewrite Nat2Z.inj_succ. unfold Z.succ.
    rewrite Qpower_plus' by lia.
    rewrite H1, H2, H3, H4, Hp, Ha, Hd. split.
    + rewrite Qmult_assoc, <- IHp. simpl. field. exact Hd0.
    + rewrite Qmult_assoc, <- IHa. simpl. field. exact Hd0.
Qed.

(** *** The best point from round to round *)

(** The probes of some rounds, and the best point as their fold. *)
Lemma search_rounds_log fuel k l m l' m' :
  search_rounds fuel k l m = (Ok l', m') ->
  Forall is_probe (since m m') /\
  log m' = (log m ++ since m m')%list /\
  best_of l' = fold_left pick (since m m') (best_of l).
Proof.
  intro Hrun.
  assert (Hinv : rounds_inv (log m) (best_of l) (results l) l m).
  { split; [reflexivity|]. exists []. rewrite app_nil_r. repeat split.
    constructor. }
  destruct (search_rounds_spec _ _ _ fuel k l m _ _ Hinv Hrun)
    as [_ (evs & Hl & Hp & Hb)].
  rewrite (since_app _ _ _ Hl). auto.
Qed.

(** The best suppression of a search bounds every probe of it, in
    every round; above 0 it was measured at the best correction. *)
Lemma search_best_is_maximum fuel l m l' m' :
  search fuel l m = (Ok l', m') ->
  probes_all Qle (best_suppression l') (since m m') /\
  (0 < best_suppression l' ->
   In (EvProbe (best_phase_corr l') (best_ampl_corr l') (best_correction l')
         (best_suppression l'))
      (since m m')).
Proof.
  intro Hrun. unfold search in Hrun.
  destruct (search_rounds_log _ _ _ _ _ _ Hrun) as (_ & _ & Hb).
  change (best_of (search_decls l)) with best_init in Hb.
  assert (Hs : best_suppression l' = best_sup (fold_left pick (since m m') best_init))
    by (rewrite <- Hb; reflexivity).
  split.
  - rewrite Hs. apply fold_pick_max.
  - intro Hpos.
    destruct (fold_pick_first (since m m') best_init)
      as (before & p & a & c & s & after & He & Hf & _ & _).
    { rewrite <- Hs. exact Hpos. }
    rewrite <- Hb in Hf. unfold best_of in Hf.
    injection Hf as -> -> -> ->. rewrite He.
    apply in_or_app. right. left. reflexivity.
Qed.

(** When no probe measured more than 0 the best point is the one the
    search was declared with. *)
Lemma origin_kept fuel k l m l' m' :
  search_rounds fuel k (search_decls l) m = (Ok l', m') ->
  probes_all Qle 0 (since m m') ->
  best_of l' = best_init.
Proof.
  intros Hrun Hall.
  destruct (search_rounds_log _ _ _ _ _ _ Hrun) as (_ & _ & Hb).
  rewrite fold_pick_keep in Hb by exact Hall. exact Hb.
Qed.

(** The probes of a scan are at amplitudes from [ampl_corr_start] up,
    each with the correction of line 200. *)
Lemma grid_point_logged lo L0 l0 p x l :
  lo <= x ->
  hoare (fun m => same_window l0 l /\ logged_from lo L0 m) (grid_point p x l)
        (fun l' m => same_window l0 l' /\ logged_from lo L0 m)
        (fun _ => True).
Proof.
  intros Hx m o m' [Hw (evs & Hl & Hp)] Hrun.
  destruct (grid_point_run _ _ _ _ _ _ Hrun) as [[Hno _]|(b & s & -> & Hlog)].
  - destruct o; auto. exfalso. eapply Hno. reflexivity.
  - cbv zeta. split; [destruct (Qgtb s (best_suppression l)); exact Hw|].
    exists (evs ++ [EvProbe p x (polar (x + 1) (p * tau)) s])%list.
    split; [rewrite Hlog, Hl, app_assoc; reflexivity|].
    intros p' a' c' s' Hin. apply in_app_or in Hin as [Hin|[Hin|[]]].
    + exact (Hp _ _ _ _ Hin).
    + inversion Hin; subst. split; [exact Hx|reflexivity].
Qed.

Lemma ampl_loop_logged lo L0 l0 fuel p l :
  0 <= ampl_corr_step l0 -> lo <= ampl_corr_start l0 ->
  hoare (fun m => same_window l0 l /\ logged_from lo L0 m) (ampl_loop fuel p l)
        (fun l' m => same_window l0 l' /\ logged_from lo L0 m)
        (fun _ => True).
Proof.
  intros Hstep Hlo. unfold ampl_loop.
  eapply hoare_conseq;
    [apply (hoare_for_double_x
              (fun x l1 m => lo <= x /\ same_window l0 l1 /\ logged_from lo L0 m)
              (fun _ => True))| | |auto].
  - auto.
  - intros x a _ m o m' (Hx & Hw & Hlg) Hrun.
    pose proof (grid_point_logged lo L0 l0 p x a Hx m o m' (conj Hw Hlg) Hrun)
      as H.
    destruct o as [a'| |]; auto. destruct H as [Hw' Hlg'].
    split; [|split; assumption].
    destruct Hw' as (_ & _ & _ & _ & _ & H6 & _). rewrite H6.
    unfold double in *. lra.
  - intros m [Hw Hlg]. split; [|split; assumption].
    destruct Hw as (_ & _ & _ & H4 & _). rewrite H4. exact Hlo.
  - intros a m (x' & (_ & Hw & Hlg) & _). auto.
Qed.

Lemma phase_loop_logged lo L0 l0 fuel l :
  0 <= ampl_corr_step l0 -> lo <= ampl_corr_start l0 ->
  hoare (fun m => same_window l0 l /\ logged_from lo L0 m) (phase_loop fuel l)
        (fun l' m => same_window l0 l' /\ logged_from lo L0 m)
        (fun _ => True).
Proof.
  intros Hstep Hlo. unfold phase_loop.
  apply (hoare_for_double
           (fun l1 m => same_window l0 l1 /\ logged_from lo L0 m)
           (fun _ => True)); auto.
  intros x a. apply ampl_loop_logged; assumption.
Qed.

Lemma search_round_logged lo fuel l m l' m' :
  search_round fuel l m = (Ok l', m') ->
  lo <= ampl_corr_start l -> ampl_corr_start l <= ampl_corr_stop l ->
  probes_from lo (since m m').
Proof.
  intros Hrun Hlo Hle.
  destruct (search_round_run _ _ _ _ _ Hrun) as (l1 & _ & _ & Hloop).
  assert (Hstep : 0 <= ampl_corr_step (set_steps l)).
  { unfold set_steps. simpl. unfold Qdiv.
    apply Qmult_le_0_compat; [lra|].
    apply Qinv_le_0_compat.
    change 0 with (inject_Z 0). rewrite <- Zle_Qle.
    apply Z.mod_pos_bound. reflexivity. }
  destruct (phase_loop_logged lo (log m) (set_steps l) fuel (set_steps l)
              Hstep Hlo m (Ok l1) m') as [_ (evs & Hl & Hp)]; auto.
  - split; [repeat split|]. exists []. rewrite app_nil_r.
    split; [reflexivity|]. intros p a c s [].
  - rewrite (since_app _ _ _ Hl). exact Hp.
Qed.

(** When no probe measures more than 0, and the grid has at least 3
    steps, the amplitude window stays within 0.6 of width and starts
    at -0.3 or above, so that every probe is at an amplitude of -0.3
    or more. *)
Lemma rounds_at_origin fuel k l m l' m' :
  (3 <= num_search_steps < 2 ^ 64)%Z ->
  search_rounds fuel k (search_decls l) m = (Ok l', m') ->
  probes_all Qle 0 (since m m') ->
  -0.3 <= ampl_corr_start l' /\
  ampl_corr_start l' <= ampl_corr_stop l' /\
  ampl_corr_stop l' - ampl_corr_start l' <= 0.6 /\
  probes_from (-0.3) (since m m').
Proof.
  intros Hn. revert l' m'.
  assert (Hd : 2 <= steps_divisor).
  { unfold steps_divisor, size_t_wrap. rewrite Z.mod_small by lia.
    change 2 with (inject_Z 2). rewrite <- Zle_Qle. lia. }
  induction k as [|k IH]; intros l' m' Hrun Hall.
  - unfold search_rounds in Hrun. simpl in Hrun. inversion Hrun; subst.
    rewrite (since_app m' m' []) by (rewrite app_nil_r; reflexivity).
    simpl. split; [lra|]. split; [lra|]. split; [lra|].
    intros p a c s [].
  - destruct (search_rounds_S _ _ _ _ _ _ Hrun) as (lk & mk & Hk & Hround).
    destruct (search_rounds_log _ _ _ _ _ _ Hk) as (_ & Hlk & _).
    destruct (search_rounds_log fuel 1 lk mk l' m') as (_ & Hl' & _).
    { unfold search_rounds. simpl. unfold bind, ret. exact Hround. }
    assert (Hsince : since m m' = (since m mk ++ since mk m')%list).
    { apply since_app. rewrite Hl', Hlk, <- app_assoc. reflexivity. }
    assert (Hallk : probes_all Qle 0 (since m mk)).
    { intros p a c s Hin. apply (Hall p a c s). rewrite Hsince.
      apply in_or_app. left. exact Hin. }
    destruct (IH _ _ Hk Hallk) as (Hlo & Hle & Hw & Hpk).
    pose proof (origin_kept _ _ _ _ _ _ Hrun Hall) as Hb.
    unfold best_of, best_init in Hb. injection Hb as _ _ _ Ha.
    destruct (round_window _ _ _ _ _ Hround) as (_ & Hs & _ & _ & H3 & H4).
    fold (steps_divisor) in Hs.
    assert (Hs0 : 0 <= ampl_corr_step l').
    { rewrite Hs. unfold Qdiv. apply Qmult_le_0_compat; [lra|].
      apply Qinv_le_0_compat. lra. }
    assert (Hs1 : ampl_corr_step l' <= 0.3).
    { rewrite Hs. apply Qle_shift_div_r; [lra|]. lra. }
    rewrite Ha in H3, H4. rewrite H3, H4.
    unfold double in *. split; [lra|]. split; [lra|]. split; [lra|].
    rewrite Hsince. intros p a c s Hin.
    apply in_app_or in Hin as [Hin|Hin]; [exact (Hpk _ _ _ _ Hin)|].
    exact (search_round_logged (-0.3) _ _ _ _ _ Hround Hlo Hle _ _ _ _ Hin).
Qed.

(** *** The first probe of a search *)

Lemma steps_divisor_nonneg : 0 <= steps_divisor.
Proof.
  unfold steps_divisor, size_t_wrap.
  change 0 with (inject_Z 0). rewrite <- Zle_Qle.
  apply Z.mod_pos_bound. reflexivity.
Qed.

(** The first pass through the two loop headers, when both conditions
    hold: the first probe is at the low corner of the window. *)
Lemma phase_loop_first fuel l m l' m' :
  phase_loop fuel l m = (Ok l', m') ->
  phase_corr_start l <= phase_corr_stop l + phase_corr_step l / 2 ->
  ampl_corr_start l <= ampl_corr_stop l + ampl_corr_step l / 2 ->
  exists s rest,
    log m' =
      (log m ++ EvProbe (phase_corr_start l) (ampl_corr_start l)
                  (polar (ampl_corr_start l + 1) (phase_corr_start l * tau)) s
              :: rest)%list /\
    Forall is_probe rest.
Proof.
  intros Hrun Hp Ha.
  destruct fuel as [|fuel]; [discriminate|].
  unfold phase_loop in Hrun. simpl in Hrun.
  apply Qle_bool_iff in Hp. rewrite Hp in Hrun.
  unfold bind at 1 in Hrun.
  destruct (ampl_loop (S fuel)
              (phase_corr_start l) l m) as [[l1| |] m1] eqn:Eampl;
    try discriminate.
  unfold ampl_loop in Eampl. simpl in Eampl.
  apply Qle_bool_iff in Ha. rewrite Ha in Eampl.
  unfold bind at 1 in Eampl.
  destruct (grid_point (phase_corr_start l) (ampl_corr_start l) l m)
    as [[l0| |] m0] eqn:Egrid; try discriminate.
  destruct (grid_point_run _ _ _ _ _ _ Egrid)
    as [[Hno _]|(b & s & Hl0 & Hlog0)]; [exfalso; eapply Hno; eauto|].
  cbv zeta in Hl0, Hlog0.
  set (L0 := log m0) in *.
  assert (Hinv0 : scan_inv L0 (best_of l0) l0 l0 m0).
  { split; [repeat split|]. exists []. rewrite app_nil_r. repeat split.
    constructor. }
  pose proof (hoare_for_double (scan_inv L0 (best_of l0) l0) (probed L0)
                _ _ _ (scan_inv_probed _ _ _)
                (fun x a => grid_point_spec _ _ _ _ x a)
                _ _ _ _ _ _ Hinv0 Eampl) as Hinv1.
  simpl in Hinv1.
  pose proof (hoare_for_double (scan_inv L0 (best_of l0) l0) (probed L0)
                _ _ _ (scan_inv_probed _ _ _)
                (fun x a => ampl_loop_spec _ _ _ (S fuel) x a)
                _ _ _ _ _ _ Hinv1 Hrun) as Hinv2.
  simpl in Hinv2.
  destruct Hinv2 as [_ (rest & Hlog & Hrest & _)].
  exists s, rest. split; [|exact Hrest].
  rewrite Hlog. subst L0. rewrite Hlog0, <- app_assoc. reflexivity.
Qed.

Lemma search_round_first fuel l m l' m' :
  search_round fuel l m = (Ok l', m') ->
  phase_corr_start l <= phase_corr_stop l ->
  ampl_corr_start l <= ampl_corr_stop l ->
  exists s rest,
    log m' =
      (log m ++ EvProbe (phase_corr_start l) (ampl_corr_start l)
                  (polar (ampl_corr_start l + 1) (phase_corr_start l * tau)) s
              :: rest)%list /\
    Forall is_probe rest.
Proof.
  intros Hrun Hp Ha.
  destruct (search_round_run _ _ _ _ _ Hrun) as (l1 & _ & _ & Hloop).
  pose proof steps_divisor_nonneg as Hd. fold steps_divisor in Hd.
  assert (Hdiv : forall w, 0 <= w -> 0 <= w / steps_divisor / 2).
  { intros w Hw. unfold Qdiv.
    apply Qmult_le_0_compat; [|discriminate].
    apply Qmult_le_0_compat; [exact Hw|].
    apply Qinv_le_0_compat. exact Hd. }
  apply (phase_loop_first _ _ _ _ _ Hloop); simpl;
    fold steps_divisor.
  - specialize (Hdiv (phase_corr_stop l - phase_corr_start l)).
    lra.
  - specialize (Hdiv (ampl_corr_stop l - ampl_corr_start l)).
    lra.
Qed.

Lemma search_rounds_first fuel k l m l' m' :
  search_rounds fuel (S k) l m = (Ok l', m') ->
  phase_corr_start l <= phase_corr_stop l ->
  ampl_corr_start l <= ampl_corr_stop l ->
  exists s rest,
    since m m' =
      (EvProbe (phase_corr_start l) (ampl_corr_start l)
         (polar (ampl_corr_start l + 1) (phase_corr_start l * tau)) s
       :: rest)%list.
Proof.
  intros Hrun Hp Ha. revert l' m' Hrun.
  induction k as [|k IH]; intros l' m' Hrun;
    destruct (search_rounds_S _ _ _ _ _ _ Hrun) as (lk & mk & Hk & Hround).
  - unfold search_rounds in Hk. simpl in Hk.
    inversion Hk; subst.
    destruct (search_round_first _ _ _ _ _ Hround Hp Ha)
      as (s & rest & Hlog & _).
    exists s, rest. apply since_app. exact Hlog.
  - destruct (IH _ _ Hk) as (s & rest & Hs).
    destruct (search_rounds_log _ _ _ _ _ _ Hk) as (_ & Hlk & _).
    destruct (search_rounds_log fuel 1 lk mk l' m') as (_ & Hl' & _).
    { unfold search_rounds. simpl. unfold bind, ret. exact Hround. }
    exists s, (rest ++ since mk m')%list. apply since_app.
    rewrite Hl', Hlk, Hs, <- app_assoc. reflexivity.
Qed.

(** *** The scan order *)

Lemma coords_app (a b : list event) : coords (a ++ b) = (coords a ++ coords b)%list.
Proof. unfold coords. apply flat_map_app. Qed.

Lemma since_nil (m : machine W) : since m m = [].
Proof. apply since_app. rewrite app_nil_r. reflexivity. Qed.

(** The points of an axis are the start, the start plus one step, and
    so on. *)
Lemma axis_points_candidates fuel x stop step :
  axis_points fuel x stop step =
  candidates x step (List.length (axis_points fuel x stop step)).
Proof.
  revert x. induction fuel as [|fuel IH]; intro x; simpl; [reflexivity|].
  destruct (Qle_bool x (stop + step / 2)); [|reflexivity].
  simpl. unfold candidates. simpl. f_equal.
  rewrite IH at 1. unfold candidates. rewrite <- seq_shift, map_map.
  apply map_ext. intro k. unfold nth_candidate.
  rewrite Nat.iter_succ_r. reflexivity.
Qed.

(** The loop over the amplitude, completed, probed the points of the
    amplitude axis at its phase, in order. *)
Lemma ampl_loop_coords l0 p fuel x l m l' m' :
  same_window l0 l ->
  for_double fuel
    (fun l ampl_corr =>
       Qle_bool ampl_corr (ampl_corr_stop l + ampl_corr_step l / 2))
    (fun l ampl_corr => ampl_corr + ampl_corr_step l)
    (grid_point p) x l m = (Ok l', m') ->
  same_window l0 l' /\
  exists evs,
    log m' = (log m ++ evs)%list /\
    coords evs =
      map (pair p)
        (axis_points fuel x (ampl_corr_stop l0) (ampl_corr_step l0)).
Proof.
  revert x l m. induction fuel as [|fuel IH]; intros x l m Hw; simpl;
    [discriminate|].
  pose proof Hw as (_ & _ & _ & _ & H5 & H6 & _). rewrite H5, H6.
  destruct (Qle_bool x (ampl_corr_stop l0 + ampl_corr_step l0 / 2)).
  - unfold bind at 1.
    destruct (grid_point p x l m) as [[l1| |] m1] eqn:Eg; try discriminate.
    destruct (grid_point_run _ _ _ _ _ _ Eg) as [[Hno _]|(b & s & Hl1 & Hlog1)];
      [exfalso; eapply Hno; reflexivity|].
    cbv zeta in Hl1, Hlog1.
    assert (Hw1 : same_window l0 l1).
    { inversion Hl1; subst l1.
      destruct (Qgtb s (best_suppression l)); exact Hw. }
    intro Hrest. pose proof Hw1 as (_ & _ & _ & _ & _ & H6' & _).
    rewrite H6' in Hrest.
    destruct (IH _ _ _ Hw1 Hrest) as (Hw' & evs & Hl & Hc).
    split; [exact Hw'|].
    exists (EvProbe p x (polar (x + 1) (p * tau)) s :: evs).
    split; [rewrite Hl, Hlog1, <- app_assoc; reflexivity|].
    simpl. rewrite <- Hc. reflexivity.
  - intro H. inversion H; subst. split; [exact Hw|].
    exists []. rewrite app_nil_r. split; reflexivity.
Qed.

Lemma phase_loop_coords l0 fuel0 fuel x l m l' m' :
  same_window l0 l ->
  for_double fuel
    (fun l phase_corr =>
       Qle_bool phase_corr (phase_corr_stop l + phase_corr_step l / 2))
    (fun l phase_corr => phase_corr + phase_corr_step l)
    (ampl_loop fuel0) x l m = (Ok l', m') ->
  same_window l0 l' /\
  exists evs,
    log m' = (log m ++ evs)%list /\
    coords evs =
      flat_map
        (fun p =>
           map (pair p)
             (axis_points fuel0 (ampl_corr_start l0) (ampl_corr_stop l0)
                (ampl_corr_step l0)))
        (axis_points fuel x (phase_corr_stop l0) (phase_corr_step l0)).
Proof.
  revert x l m. induction fuel as [|fuel IH]; intros x l m Hw; simpl;
    [discriminate|].
  pose proof Hw as (_ & H2 & H3 & _). rewrite H2, H3.
  destruct (Qle_bool x (phase_corr_stop l0 + phase_corr_step l0 / 2)).
  - unfold bind at 1.
    destruct (ampl_loop fuel0 x l m) as [[l1| |] m1] eqn:Ea; try discriminate.
    unfold ampl_loop in Ea.
    destruct (ampl_loop_coords l0 x _ _ _ _ _ _ Hw Ea) as (Hw1 & evs1 & Hl1 & Hc1).
    pose proof Hw as (_ & _ & _ & H4 & _). rewrite H4 in Hc1.
    intro Hrest. pose proof Hw1 as (_ & _ & H3' & _). rewrite H3' in Hrest.
    destruct (IH _ _ _ Hw1 Hrest) as (Hw' & evs & Hl & Hc).
    split; [exact Hw'|]. exists (evs1 ++ evs)%list.
    split; [rewrite Hl, Hl1, <- app_assoc; reflexivity|].
    simpl. rewrite coords_app, Hc1, Hc. reflexivity.
  - intro H. inversion H; subst. split; [exact Hw|].
    exists []. rewrite app_nil_r. split; reflexivity.
Qed.

(** A completed round probed the grid of its window point by point:
    the phases from low to high, and at each phase the amplitudes from
    low to high. *)
Lemma round_scans_grid fuel l m l' m' :
  search_round fuel l m = (Ok l', m') ->
  coords (since m m') = grid_points fuel (set_steps l).
Proof.
  intro Hrun.
  destruct (search_round_run _ _ _ _ _ Hrun) as (l1 & _ & _ & Hloop).
  unfold phase_loop in Hloop.
  destruct (phase_loop_coords (set_steps l) fuel fuel _ _ _ _ _
              (conj eq_refl (conj eq_refl (conj eq_refl (conj eq_refl
                 (conj eq_refl (conj eq_refl eq_refl)))))) Hloop)
    as (_ & evs & Hl & Hc).
  rewrite (since_app _ _ _ Hl). exact Hc.
Qed.

(** C3, as the code has it: among probes that measured the same
    suppression the search keeps the first in scan order, provided that
    suppression exceeds 0, the best suppression the search starts from:
    the best point of a search that ends above 0 is a probe before
    which every probe measured strictly less and after which every
    probe measured at most as much.  In particular, when every probe
    measures the same value [K > 0], the search returns the first point
    it scanned, the low corner (-0.3, -0.3) of the first window. *)
Theorem ties_keep_first_probe fuel l m l' m' :
  search fuel l m = (Ok l', m') ->
  (0 < best_suppression l' ->
   exists before p a c s after,
     since m m' = (before ++ EvProbe p a c s :: after)%list /\
     best_of l' = (c, s, p, a) /\
     probes_all Qlt s before /\
     probes_all Qle s after) /\
  (forall K, 0 < K -> (0 < num_search_iters)%Z ->
   probes_all Qeq K (since m m') ->
   exists s rest,
     since m m' =
       (EvProbe (-0.3) (-0.3) (polar (-0.3 + 1) (-0.3 * tau)) s :: rest)%list /\
     best_of l' = (polar (-0.3 + 1) (-0.3 * tau), s, -0.3, -0.3)).
Proof.
  intro Hrun. unfold search in Hrun.
  destruct (search_rounds_log _ _ _ _ _ _ Hrun) as (_ & _ & Hb).
  change (best_of (search_decls l)) with best_init in Hb.
  split.
  - intro Hpos. rewrite Hb. apply fold_pick_first.
    rewrite <- Hb. exact Hpos.
  - intros K HK Hit Hall.
    destruct (Z.to_nat num_search_iters) as [|k] eqn:Ek; [lia|].
    destruct (search_rounds_first _ _ _ _ _ _ Hrun) as (s & rest & Hs);
      [simpl; lra|simpl; lra|].
    simpl in Hs. exists s, rest. split; [exact Hs|].
    rewrite Hb, Hs. simpl fold_left.
    assert (HsK : s == K).
    { apply (Hall (-0.3) (-0.3) (polar (-0.3 + 1) (-0.3 * tau)) s).
      rewrite Hs. left. reflexivity. }
    assert (Hgt : Qgtb s (best_sup best_init) = true).
    { apply Qgtb_true. change (best_sup best_init) with 0.
      rewrite HsK. exact HK. }
    unfold pick at 1. rewrite Hgt.
    apply fold_pick_keep. intros p a c s' Hin.
    change (best_sup (polar (-0.3 + 1) (-0.3 * tau), s, -0.3, -0.3)) with s.
    assert (Hs' : s' == K).
    { apply (Hall p a c s'). rewrite Hs. right. exact Hin. }
    rewrite Hs', HsK. apply Qle_refl.
Qed.

(** *** The sweep *)

Lemma nth_candidate_value (x0 step : double) (n : nat) :
  nth_candidate x0 step n == x0 + inject_Z (Z.of_nat n) * step.
Proof.
  unfold double in *. induction n as [|n IH].
  - simpl. ring.
  - unfold nth_candidate in *. simpl Nat.iter. rewrite IH.
    rewrite Nat2Z.inj_succ. unfold Z.succ. rewrite inject_Z_plus. ring.
Qed.

Lemma tuned_app (a b : list event) : tuned (a ++ b) = (tuned a ++ tuned b)%list.
Proof. unfold tuned. apply flat_map_app. Qed.

Lemma tuned_probes (evs : list event) : Forall is_probe evs -> tuned evs = [].
Proof.
  induction 1 as [|e evs He _ IH]; [reflexivity|].
  destruct e; try contradiction. exact IH.
Qed.

Lemma probe_sweep_event (evs : list event) :
  Forall is_probe evs -> Forall sweep_event evs.
Proof.
  intro H. eapply Forall_impl; [|exact H]. intros e He.
  destruct e; try contradiction. exact I.
Qed.

Lemma progress_sweep_event vm rx_lo l : sweep_event (progress_event vm rx_lo l).
Proof. unfold progress_event. destruct (verbose vm); exact I. Qed.

Lemma tuned_progress vm rx_lo l : tuned [progress_event vm rx_lo l] = [].
Proof. unfold progress_event. destruct (verbose vm); reflexivity. Qed.

Lemma swept_refl (m : machine W) : swept (log m) m.
Proof. exists []. rewrite app_nil_r. split; [reflexivity|constructor]. Qed.

Lemma swept_app L0 (m m' : machine W) evs :
  swept L0 m -> log m' = (log m ++ evs)%list -> Forall sweep_event evs ->
  swept L0 m'.
Proof.
  intros (evs0 & Hl & Hf) Hl' Hf'. exists (evs0 ++ evs)%list.
  rewrite Hl', Hl, app_assoc. split; [reflexivity|].
  apply Forall_app. auto.
Qed.

(** Whatever its outcome, the sweep body logs events of the sweep. *)
Lemma sweep_body_events L0 fuel vm x l :
  hoare (swept L0) (sweep_body fuel vm x l) (fun _ => swept L0) (swept L0).
Proof.
  intros m o m' Hm Hrun.
  assert (Habort : (forall l', o <> Ok l') -> swept L0 m').
  { intro Hno.
    destruct (sweep_body_abort _ _ _ _ _ _ _ Hrun Hno)
      as [(o' & Et & _)|(rx_lo & m1 & o' & Et & Es & Hno')].
    - pose proof (tune_rx_and_tx_log (log m) _ _ _ m _ _ eq_refl Et) as Ht.
      apply (swept_app _ m _ [EvTune x]); auto.
      + destruct o'; exact Ht.
      + repeat constructor.
    - pose proof (tune_rx_and_tx_log (log m) _ _ _ m _ _ eq_refl Et) as Ht.
      simpl in Ht.
      pose proof (search_spec (log m1) fuel l m1 _ _ eq_refl Es) as Hs.
      assert (Hp : probed (log m1) m').
      { destruct o'; [exfalso; eapply Hno'; eauto|exact Hs|exact Hs]. }
      destruct Hp as (evs & Hl & Hf).
      apply (swept_app _ m _ (EvTune x :: evs)); auto.
      + rewrite Hl, Ht, <- app_assoc. reflexivity.
      + constructor; [exact I|apply probe_sweep_event; exact Hf]. }
  destruct o as [l'| |]; try (apply Habort; discriminate).
  destruct (sweep_body_log _ _ _ _ _ _ _ Hrun)
    as (rx_lo & l1 & evs & _ & _ & Hp & _ & Hlog & _).
  apply (swept_app _ m _ _ Hm Hlog).
  constructor; [exact I|]. apply Forall_app. split.
  - apply probe_sweep_event. exact Hp.
  - constructor; [apply progress_sweep_event|constructor].
Qed.

Lemma sweep_events L0 fuel vm range l :
  hoare (swept L0) (sweep fuel vm range l) (fun _ => swept L0) (swept L0).
Proof.
  unfold sweep.
  apply (hoare_for_double (fun _ => swept L0)); auto.
  intros x a. apply sweep_body_events.
Qed.

Lemma sweep_candidates_S vm range (n : nat) :
  sweep_candidates vm range (S n) =
  (sweep_candidates vm range n ++ [sweep_candidate vm range n])%list.
Proof. unfold sweep_candidates. rewrite seq_S, map_app. reflexivity. Qed.

(** The rounding of equal numbers. *)
Lemma monotone_comp (r : Q -> Q) (x y : Q) :
  monotone r -> x == y -> r x == r y.
Proof. intros Hr E. apply Qle_antisym; apply Hr; rewrite E; apply Qle_refl. Qed.

(** A sweep over a range no wider than twice the guard band tunes to
    nothing. *)
Lemma sweep_narrow fuel vm (range : double * double) l (m : machine W) :
  monotone to_double ->
  snd range - fst range <= 100e6 ->
  sweep (S fuel) vm range l m = (Ok l, m).
Proof.
  intros Hmono Hnarrow. unfold sweep. simpl.
  assert (Hc : Qltb (to_double (fst range + 50e6))
                    (to_double (snd range - 50e6)) = false).
  { apply Qltb_false. apply Hmono. lra. }
  rewrite Hc. reflexivity.
Qed.

(** C5, as the code has it: a completed sweep has tuned to exactly
    the values that the loop variable of line 183 takes while it is
    strictly below the bound: the rounded [start + 50e6], then what
    each rounded addition of [freq_step] makes of the value before, in
    this order, up to the first value that is not below the rounded
    [stop - 50e6].  These are the numbers [start + 50e6 + k * freq_step]
    as long as all the sums up to them are representable, so that no
    addition rounds.  A range no wider than twice the guard band of
    50e6, such as [100e6, 200e6], has no candidate at all (150e6 is not
    strictly below 150e6), and the sweep then completes at once without
    tuning. *)
Theorem sweep_visits_candidates vm (range : double * double) l (m : machine W) :
  (forall fuel l' m',
     sweep fuel vm range l m = (Ok l', m') ->
     exists n,
       tuned (since m m') = sweep_candidates vm range n /\
       (forall k, (k < n)%nat ->
          sweep_candidate vm range k < to_double (snd range - 50e6)) /\
       to_double (snd range - 50e6) <= sweep_candidate vm range n) /\
  (sweep_candidate vm range 0 = to_double (fst range + 50e6) /\
   forall k, sweep_candidate vm range (S k) =
             to_double (sweep_candidate vm range k + freq_step vm)) /\
  (monotone to_double ->
   forall n,
     (forall k, (k <= n)%nat ->
        to_double (fst range + 50e6 + inject_Z (Z.of_nat k) * freq_step vm)
        == fst range + 50e6 + inject_Z (Z.of_nat k) * freq_step vm) ->
     sweep_candidate vm range n
     == fst range + 50e6 + inject_Z (Z.of_nat n) * freq_step vm) /\
  (monotone to_double ->
   snd range - fst range <= 100e6 ->
   forall fuel, sweep (S fuel) vm range l m = (Ok l, m)).
Proof.
  split; [|split; [|split]].
  - intros fuel l' m' Hrun.
    set (bound := to_double (snd range - 50e6)) in *.
    pose (Inv := fun (x : double) (_ : locals) (m1 : machine W) =>
      exists n evs,
        log m1 = (log m ++ evs)%list /\
        tuned evs = sweep_candidates vm range n /\
        x = sweep_candidate vm range n /\
        (forall k, (k < n)%nat -> sweep_candidate vm range k < bound)).
    assert (H : exists x', Inv x' l' m' /\ Qltb x' bound = false).
    { refine (hoare_for_double_x Inv (fun _ => True) _ _ _ _ _
                fuel (to_double (fst range + 50e6)) l m (Ok l') m' _ Hrun); auto.
      - intros x a Hc m1 o m2 (n & evs & Hl & Ht & Hx & Hlt) Hbody.
        destruct o as [a'| |]; auto.
        destruct (sweep_body_log _ _ _ _ _ _ _ Hbody)
          as (rx_lo & l1 & evs' & _ & _ & Hp & _ & Hlog & _).
        exists (S n), (evs ++ EvTune x :: evs' ++ [progress_event vm rx_lo a'])%list.
        split; [rewrite Hlog, Hl, <- app_assoc; reflexivity|].
        split; [|split].
        + rewrite tuned_app, Ht, sweep_candidates_S. f_equal.
          change (tuned (EvTune x :: evs' ++ [progress_event vm rx_lo a']))
            with (x :: tuned (evs' ++ [progress_event vm rx_lo a'])).
          rewrite tuned_app, (tuned_probes _ Hp), tuned_progress, Hx.
          reflexivity.
        + rewrite Hx. reflexivity.
        + intros k Hk. apply Qltb_true in Hc.
          destruct (Nat.eq_dec k n) as [->|Hne].
          * rewrite <- Hx. exact Hc.
          * apply Hlt. lia.
      - exists O, []. rewrite app_nil_r. repeat split; auto.
        intros k Hk. lia. }
    destruct H as (x' & (n & evs & Hl & Ht & Hx & Hlt) & Hc).
    exists n. rewrite (since_app _ _ _ Hl). repeat split; auto.
    apply Qltb_false in Hc. rewrite <- Hx. exact Hc.
  - split; [reflexivity|]. intro k. reflexivity.
  - intros Hmono n. induction n as [|n IH]; intro Hrep.
    + change (sweep_candidate vm range 0) with (to_double (fst range + 50e6)).
      rewrite <- (Hrep O (Nat.le_refl 0)).
      apply (monotone_comp _ _ _ Hmono).
      change (inject_Z (Z.of_nat 0)) with 0. ring.
    + change (sweep_candidate vm range (S n))
        with (to_double (sweep_candidate vm range n + freq_step vm)).
      rewrite <- (Hrep (S n) (Nat.le_refl _)).
      apply (monotone_comp _ _ _ Hmono).
      rewrite IH by (intros k Hk; apply Hrep; lia).
      rewrite Nat2Z.inj_succ. unfold Z.succ. rewrite inject_Z_plus.
      change (inject_Z 1) with 1. ring.
  - intros Hmono Hnarrow fuel. apply sweep_narrow; assumption.
Qed.

(** *** Exceptions of the sweep *)

Lemma capture_samples_raises b :
  raises (capture_samples b) (fun e => e <> lo_timeout).
Proof.
  intros m e m' H. rewrite capture_samples_run in H. cbv zeta in H.
  destruct (negb _) in H.
  - inversion H; subst. unfold lo_timeout. simpl. intro X. discriminate X.
  - destruct (negb _) in H; [|discriminate].
    inversion H; subst. unfold lo_timeout. intro X. discriminate X.
Qed.

Lemma search_raises fuel l :
  raises (search fuel l) (fun e => e <> lo_timeout).
Proof.
  unfold search, search_rounds.
  apply raises_for_size_t. intro a.
  unfold search_round. apply raises_bind.
  - unfold phase_loop. apply raises_for_double. intros x a1.
    unfold ampl_loop. apply raises_for_double. intros y a2.
    unfold grid_point.
    apply raises_bind; [apply raises_never; discriminate|]. intros _.
    apply raises_bind; [apply capture_samples_raises|]. intros b.
    apply raises_bind; [apply raises_never; discriminate|]. intros r1.
    apply raises_bind; [apply raises_never; discriminate|]. intros r2.
    apply raises_bind; [apply raises_never; discriminate|]. intros r3.
    apply raises_bind; [apply raises_never; discriminate|]. intros _.
    apply raises_never; discriminate.
  - intro l1. apply raises_never; discriminate.
Qed.

(** A sweep aborted by the lock timeout stopped in the tuning routine:
    the last event is the tuning to the candidate, and no later
    candidate was visited. *)
Lemma sweep_lo_timeout fuel vm range l m m' :
  sweep fuel vm range l m = (Throw lo_timeout, m') ->
  exists rest f, log m' = (rest ++ [EvTune f])%list.
Proof.
  unfold sweep.
  generalize (to_double (fst range + 50e6)) as x. revert l m.
  generalize fuel at 2 as fuel0. intro fuel0.
  induction fuel as [|fuel IH]; intros l m x; simpl; [discriminate|].
  destruct (Qltb x (to_double (snd range - 50e6))); [|discriminate].
  unfold bind at 1.
  destruct (sweep_body fuel0 vm x l m) as [[l1|e|] m1] eqn:Eb.
  - apply IH.
  - intro H. inversion H; subst.
    destruct (sweep_body_abort _ _ _ _ _ _ _ Eb)
      as [(o' & Et & _)|(rx_lo & m0 & o' & Et & Es & Hno)]; [discriminate| |].
    + pose proof (tune_rx_and_tx_log (log m) _ _ _ m _ _ eq_refl Et) as Ht.
      exists (log m), x. destruct o'; exact Ht.
    + exfalso. destruct o' as [r|e|]; [eapply Hno; eauto| |].
      * pose proof (search_raises _ _ _ _ _ Es) as Hne.
        unfold sweep_body, bind in Eb. rewrite Et, Es in Eb.
        inversion Eb; subst. apply Hne. reflexivity.
      * unfold sweep_body, bind in Eb. rewrite Et, Es in Eb.
        discriminate.
  - discriminate.
Qed.

(** *** Runs of the whole program *)

(** A run of [main] without [--help]: it stops at the antenna check,
    or it creates the transmit thread and sweeps; when the sweep
    completes it goes on to the epilogue and returns 0, and when the
    sweep does not, [main] ends where the sweep ended. *)
Lemma main_run fuel vm w o m' :
  help vm = false ->
  UHD_SAFE_MAIN fuel vm {| world := w; log := [] |} = (o, m') ->
  (lacks_cal vm w = true /\ o = Throw no_cal_antenna /\
   log m' = preamble vm) \/
  (exists os ms,
      let m1 := {| world := setup_world vm w;
                   log := (preamble vm ++
                           [EvThreadCreated (tx_wave_ampl vm)])%list |} in
      lacks_cal vm w = false /\
      sweep fuel vm (get_rx_freq_range usrp (world m1)) (main_decls vm) m1
        = (os, ms) /\
      match os with
      | Ok l => o = Ok 0%Z /\ world m' = world ms /\
                log m' = (log ms ++ epilogue (results l))%list
      | Throw e => o = Throw e /\ m' = ms
      | OutOfFuel => o = OutOfFuel /\ m' = ms
      end).
Proof.
  intros Hhelp. unfold UHD_SAFE_MAIN. rewrite Hhelp.
  unfold bind at 1. unfold emit at 1. unfold bind at 1. unfold emit at 1.
  unfold bind at 1. unfold call at 1. unfold bind at 1. unfold get at 1.
  unfold bind at 1. unfold get at 1. cbn [world log].
  fold (lacks_cal vm w).
  destruct (lacks_cal vm w).
  - intro H. inversion H; subst. left. repeat split; reflexivity.
  - do 7 (unfold bind at 1; unfold call at 1; cbn [world log]).
    unfold bind at 1. unfold emit at 1. cbn [world log].
    unfold bind at 1. unfold get at 1. cbn [world log].
    unfold bind at 1. fold (setup_world vm w).
    cbv zeta. cbn [world].
    change ([] ++ [EvPrint ""])%list with [EvPrint ""].
    change (([EvPrint ""] ++
             [EvPrint ("Creating the usrp device with: " ++ args vm ++ "...")]) ++
            [EvThreadCreated (tx_wave_ampl vm)])%list
      with (preamble vm ++ [EvThreadCreated (tx_wave_ampl vm)])%list.
    destruct (sweep fuel vm (get_rx_freq_range usrp (setup_world vm w))
                (main_decls vm) _) as [[l| |] ms] eqn:Es;
      intro H; right; eexists _, ms; (split; [reflexivity|]);
      (split; [reflexivity|]).
    + unfold bind, emit, ret in H. cbn [world log] in H.
      inversion H; subst. cbn [world log]. rewrite <- !app_assoc.
      repeat split.
    + inversion H; subst. split; reflexivity.
    + inversion H; subst. split; reflexivity.
Qed.

(** *** A device that locks and delivers *)

Section Locks.

(** Both LOs report lock whenever they are polled. *)
Hypothesis lo_locks : forall w,
  fst (get_tx_sensor usrp "lo_locked" w) = true /\
  fst (get_rx_sensor usrp "lo_locked" w) = true.

(** Every [recv] delivers the samples requested, with no error. *)
Hypothesis recv_full : forall n w,
  error_code (fst (recv usrp n w)) = ERROR_CODE_NONE /\
  List.length (rx_samps (fst (recv usrp n w))) = n.

Lemma capture_samples_total : captures.
Proof using Type recv_full.
  intros b m. rewrite capture_samples_run. cbv zeta.
  destruct (recv_full (List.length b)
              (issue_stream_cmd usrp
                 {| stream_mode := STREAM_MODE_NUM_SAMPS_AND_DONE;
                    num_samps := List.length b; stream_now := true |}
                 (world m))) as [Hc Hn].
  rewrite Hc, Hn, Nat.eqb_refl. simpl. eexists _, _. reflexivity.
Qed.

Lemma lo_unlocked_total m :
  exists m', lo_unlocked m = (Ok false, m').
Proof using Type lo_locks.
  unfold lo_unlocked, bind, io, ret.
  destruct (lo_locks (world m)) as [Ht _].
  destruct (get_tx_sensor usrp "lo_locked" (world m)) as [tx w1].
  simpl in Ht. subst tx. cbn [negb world log].
  destruct (lo_locks w1) as [_ Hr].
  destruct (get_rx_sensor usrp "lo_locked" w1) as [rx w2].
  simpl in Hr. subst rx. eexists. reflexivity.
Qed.

Lemma wait_lo_locked_total fuel start m :
  exists m', wait_lo_locked (S fuel) start m = (Ok tt, m').
Proof using Type lo_locks.
  destruct (lo_unlocked_total m) as (m' & H).
  exists m'. simpl. unfold bind. rewrite H. reflexivity.
Qed.

(** One unit of fuel is enough for the wait when the LOs are locked. *)
Lemma tune_rx_and_tx_total : tunes 1.
Proof using Type lo_locks.
  intros fuel f offset m Hfuel.
  destruct fuel as [|fuel]; [lia|].
  unfold tune_rx_and_tx.
  unfold bind at 1. unfold emit at 1.
  unfold bind at 1. unfold call at 1.
  unfold bind at 1. unfold get at 1.
  unfold bind at 1. unfold call at 1.
  unfold bind at 1. unfold call at 1.
  unfold bind at 1. unfold io at 1. cbn [world log].
  destruct (get_system_time usrp _) as [start w1].
  unfold bind at 1.
  destruct (wait_lo_locked_total fuel start
              {| world := w1; log := (log m ++ [EvTune f])%list |}) as (m1 & Hw).
  rewrite Hw. unfold get. eexists _, _. reflexivity.
Qed.

End Locks.

(** *** Completion of the sweep when every tuning and every capture
    returns *)

Section Total.

Variable tune_fuel : nat.
Hypothesis tune_ok : tunes tune_fuel.
Hypothesis capture_ok : captures.
Hypothesis steps_range : (2 <= num_search_steps < 2 ^ 64)%Z.

Lemma steps_divisor_pos : 0 < steps_divisor.
Proof using Type steps_range.
  unfold steps_divisor, size_t_wrap. rewrite Z.mod_small by lia.
  change 0 with (inject_Z 0). rewrite <- Zlt_Qlt. lia.
Qed.

Lemma grid_fuel_value : inject_Z (Z.of_nat grid_fuel) == steps_divisor + 1.
Proof using Type steps_range.
  unfold grid_fuel, steps_divisor, size_t_wrap.
  rewrite Z.mod_small by lia. rewrite Nat2Z.inj_succ, Z2Nat.id by lia.
  unfold Z.succ. rewrite inject_Z_plus. reflexivity.
Qed.

Lemma grid_point_total p a l m :
  exists l' m', grid_point p a l m = (Ok l', m') /\ same_window l l'.
Proof using Type capture_ok.
  destruct (capture_ok (buff l)
              {| world := set_rx_iq_balance usrp (polar (a + 1) (p * tau))
                            (world m);
                 log := log m |}) as (b' & m1 & Hc).
  unfold grid_point, bind, call, get, emit, ret. cbn [world log].
  rewrite Hc. eexists _, _. split; [reflexivity|].
  destruct (Qgtb _ _); repeat split.
Qed.

Lemma same_window_trans l0 l1 l2 :
  same_window l0 l1 -> same_window l1 l2 -> same_window l0 l2.
Proof.
  intros (A1 & A2 & A3 & A4 & A5 & A6 & A7) (B1 & B2 & B3 & B4 & B5 & B6 & B7).
  repeat split; congruence.
Qed.

Lemma ampl_loop_total l0 fuel p l m :
  gridded l0 -> (grid_fuel < fuel)%nat -> same_window l0 l ->
  exists l' m', ampl_loop fuel p l m = (Ok l', m') /\ same_window l0 l'.
Proof using Type steps_range capture_ok.
  intros (_ & Hs & _ & Hd) Hf Hw.
  unfold ampl_loop.
  apply (for_double_total (same_window l0) _ _ _
           (ampl_corr_stop l0 + ampl_corr_step l0 / 2) (ampl_corr_step l0)
           Hs) with (K := grid_fuel); auto.
  - intros a x (_ & _ & _ & _ & H5 & H6 & _) Hc.
    apply Qle_bool_iff in Hc. rewrite H5, H6 in Hc. exact Hc.
  - intros a x (_ & _ & _ & _ & _ & H6 & _). rewrite H6. reflexivity.
  - intros x a m0 Ha. destruct (grid_point_total p x a m0) as (a' & m1 & Hr & Hw').
    exists a', m1. split; [exact Hr|]. eapply same_window_trans; eauto.
  - destruct Hw as (_ & _ & _ & H4 & _). rewrite H4, grid_fuel_value.
    assert (He : (steps_divisor + 1) * ampl_corr_step l0 ==
                 steps_divisor * ampl_corr_step l0 + ampl_corr_step l0) by ring.
    rewrite He, Hd. clear He Hd. unfold Qdiv. change (/ 2) with (1 # 2). lra.
Qed.

Lemma phase_loop_total l0 fuel l m :
  gridded l0 -> (grid_fuel < fuel)%nat -> same_window l0 l ->
  exists l' m', phase_loop fuel l m = (Ok l', m') /\ same_window l0 l'.
Proof using Type steps_range capture_ok.
  intros Hg Hf Hw. pose proof Hg as (Hs & _ & Hd & _).
  unfold phase_loop.
  apply (for_double_total (same_window l0) _ _ _
           (phase_corr_stop l0 + phase_corr_step l0 / 2) (phase_corr_step l0)
           Hs) with (K := grid_fuel); auto.
  - intros a x (_ & H2 & H3 & _) Hc.
    apply Qle_bool_iff in Hc. rewrite H2, H3 in Hc. exact Hc.
  - intros a x (_ & _ & H3 & _). rewrite H3. reflexivity.
  - intros x a m0 Ha. apply ampl_loop_total; assumption.
  - destruct Hw as (H1 & _). rewrite H1, grid_fuel_value.
    assert (He : (steps_divisor + 1) * phase_corr_step l0 ==
                 steps_divisor * phase_corr_step l0 + phase_corr_step l0) by ring.
    rewrite He, Hd. clear He Hd. unfold Qdiv. change (/ 2) with (1 # 2). lra.
Qed.

Lemma set_steps_gridded l : wide l -> gridded (set_steps l).
Proof using Type steps_range.
  intros [Hp Ha]. pose proof steps_divisor_pos as Hd.
  assert (Hd0 : ~ steps_divisor == 0) by (intro H; rewrite H in Hd; lra).
  unfold gridded, set_steps. simpl. fold steps_divisor.
  repeat split.
  - apply Qlt_shift_div_l; [exact Hd|]. lra.
  - apply Qlt_shift_div_l; [exact Hd|]. lra.
  - field. exact Hd0.
  - field. exact Hd0.
Qed.

Lemma search_round_total fuel l m :
  wide l -> (grid_fuel < fuel)%nat ->
  exists l' m', search_round fuel l m = (Ok l', m') /\ wide l'.
Proof using Type steps_range capture_ok.
  intros Hw Hf. pose proof (set_steps_gridded l Hw) as Hg.
  destruct (phase_loop_total (set_steps l) fuel (set_steps l) m Hg Hf)
    as (l1 & m1 & Hrun & Hsame); [repeat split|].
  exists (recenter l1), m1. split.
  - unfold search_round, bind. rewrite Hrun. reflexivity.
  - destruct Hg as (Hp & Ha & _). destruct Hsame as (_ & _ & H3 & _ & _ & H6 & _).
    unfold wide, recenter. simpl. rewrite H3, H6.
    unfold double in *. split; lra.
Qed.

Lemma search_rounds_total fuel k l m :
  wide l -> (grid_fuel < fuel)%nat ->
  exists l' m', search_rounds fuel k l m = (Ok l', m') /\ wide l'.
Proof using Type steps_range capture_ok.
  intros Hw Hf. induction k as [|k IH].
  - exists l, m. split; [reflexivity|exact Hw].
  - destruct IH as (lk & mk & Hk & Hwk).
    destruct (search_round_total fuel lk mk Hwk Hf) as (l' & m' & Hr & Hw').
    exists l', m'. split; [|exact Hw'].
    unfold search_rounds in *. simpl. unfold bind.
    rewrite Hk. exact Hr.
Qed.

Lemma search_total fuel l m :
  (grid_fuel < fuel)%nat -> exists l' m', search fuel l m = (Ok l', m').
Proof using Type steps_range capture_ok.
  intro Hf. unfold search.
  destruct (search_rounds_total fuel (Z.to_nat num_search_iters)
              (search_decls l) m) as (l' & m' & H & _); auto.
  - split; simpl; lra.
  - exists l', m'. exact H.
Qed.

Lemma sweep_body_total fuel vm x l m :
  (grid_fuel < fuel)%nat -> (tune_fuel <= fuel)%nat ->
  exists l' m', sweep_body fuel vm x l m = (Ok l', m').
Proof using Type tune_ok steps_range capture_ok.
  intros Hf Ht.
  destruct (tune_ok fuel x (tx_offset vm) m Ht) as (rx_lo & m1 & Hrun).
  destruct (search_total fuel l m1 Hf) as (l1 & m2 & Hs).
  eexists _, _. apply (sweep_body_complete _ _ _ _ _ _ _ _ _ Hrun Hs).
Qed.

(** The sweep completes when its loop variable reaches the bound. *)
Lemma sweep_total fuel0 vm (range : double * double) n :
  (grid_fuel < fuel0)%nat -> (tune_fuel <= fuel0)%nat ->
  forall fuel x l m,
    to_double (snd range - 50e6) <= Nat.iter n (next_candidate vm) x ->
    (n < fuel)%nat ->
    exists l' m',
      for_double fuel
        (fun _ rx_lo_i => Qltb rx_lo_i (to_double (snd range - 50e6)))
        (fun _ rx_lo_i => to_double (rx_lo_i + freq_step vm))
        (sweep_body fuel0 vm) x l m = (Ok l', m').
Proof using Type tune_ok steps_range capture_ok.
  intros Hg Ht.
  induction n as [|n IH]; intros fuel x l m Hreach Hfuel;
    (destruct fuel as [|fuel]; [lia|]); simpl.
  - simpl in Hreach. rewrite (proj2 (Qltb_false _ _) Hreach).
    eexists _, _. reflexivity.
  - destruct (Qltb x (to_double (snd range - 50e6)));
      [|eexists _, _; reflexivity].
    destruct (sweep_body_total fuel0 vm x l m Hg Ht) as (l1 & m1 & Hb).
    unfold bind. rewrite Hb.
    apply IH; [|lia].
    rewrite Nat.iter_succ_r in Hreach. exact Hreach.
Qed.

Lemma main_total vm w fuel n :
  help vm = false -> lacks_cal vm w = false ->
  reaches_bound vm (main_range vm w) n ->
  (grid_fuel < fuel)%nat -> (tune_fuel <= fuel)%nat -> (n < fuel)%nat ->
  exists m' rest t,
    UHD_SAFE_MAIN fuel vm {| world := w; log := [] |} = (Ok 0%Z, m') /\
    log m' = (rest ++ epilogue t)%list /\
    Forall before_epilogue rest.
Proof using Type tune_ok steps_range capture_ok.
  intros Hhelp Hcal Hreach Hg Ht Hn.
  destruct (UHD_SAFE_MAIN fuel vm {| world := w; log := [] |}) as [o m'] eqn:E.
  destruct (main_run _ _ _ _ _ Hhelp E) as [(Hl & _)|(os & ms & Hm)];
    [congruence|].
  cbv zeta in Hm. destruct Hm as (_ & Hs & Hm). cbn [world] in Hs.
  destruct (sweep_total fuel vm (main_range vm w) n Hg Ht fuel
              (to_double (fst (main_range vm w) + 50e6))
              (main_decls vm)
              {| world := setup_world vm w;
                 log := (preamble vm ++ [EvThreadCreated (tx_wave_ampl vm)])%list |}
              Hreach Hn) as (l' & ms' & Hs').
  fold (sweep fuel vm (main_range vm w) (main_decls vm)) in Hs'.
  unfold main_range in Hs'.
  pose proof (sweep_events _ fuel vm _ _ _ _ _ (swept_refl _) Hs')
    as (evs & Hlog & Hev). cbn [log] in Hlog.
  rewrite Hs' in Hs. inversion Hs; subst os ms. destruct Hm as (-> & _ & Hl).
  exists m', (log ms'), (results l'). repeat split; auto.
  rewrite Hlog. apply Forall_app. split.
  - repeat constructor.
  - eapply Forall_impl; [|exact Hev]. intros e He.
    destruct e; try contradiction; exact I.
Qed.

End Total.

(** *** Aborted and completed runs *)

(** A run of [main] that throws never reached the epilogue: the log
    is the preamble, then the creation of the transmit thread unless
    the antenna check failed, then events of the sweep. *)
Lemma main_throw_log fuel vm w e m' :
  UHD_SAFE_MAIN fuel vm {| world := w; log := [] |} = (Throw e, m') ->
  (e = no_cal_antenna /\ log m' = preamble vm) \/
  (exists evs,
      log m' = (preamble vm ++ EvThreadCreated (tx_wave_ampl vm) :: evs)%list /\
      Forall sweep_event evs /\
      (e = lo_timeout -> exists rest f, log m' = (rest ++ [EvTune f])%list)).
Proof.
  intro Hrun. destruct (help vm) eqn:Hhelp.
  { unfold UHD_SAFE_MAIN in Hrun. rewrite Hhelp in Hrun. discriminate. }
  destruct (main_run _ _ _ _ _ Hhelp Hrun) as [(_ & He & Hl)|(os & ms & Hm)].
  - left. inversion He. auto.
  - right. cbv zeta in Hm. destruct Hm as (_ & Hs & Hm).
    destruct os as [l|e'|]; [destruct Hm; discriminate| |destruct Hm; discriminate].
    destruct Hm as [He ->]. inversion He; subst e'.
    pose proof (sweep_events _ fuel vm _ _ _ _ _ (swept_refl _) Hs)
      as (evs & Hlog & Hev). cbn [log] in Hlog.
    exists evs. split; [rewrite Hlog, <- app_assoc; reflexivity|].
    split; [exact Hev|].
    intros ->. exact (sweep_lo_timeout _ _ _ _ _ _ Hs).
Qed.

Lemma main_throw_before_epilogue fuel vm w e m' :
  UHD_SAFE_MAIN fuel vm {| world := w; log := [] |} = (Throw e, m') ->
  Forall before_epilogue (log m').
Proof.
  intro Hrun.
  destruct (main_throw_log _ _ _ _ _ Hrun) as [(_ & ->)|(evs & -> & Hev & _)].
  - repeat constructor.
  - apply Forall_app. split; [repeat constructor|].
    constructor; [exact I|].
    eapply Forall_impl; [|exact Hev]. intros e0 He.
    destruct e0; try contradiction; exact I.
Qed.

(** A run of [main] that returns after a sweep returns 0 and ends
    with the epilogue. *)
Lemma main_ok_log fuel vm w z m' :
  help vm = false ->
  UHD_SAFE_MAIN fuel vm {| world := w; log := [] |} = (Ok z, m') ->
  z = 0%Z /\
  exists rest t, log m' = (rest ++ epilogue t)%list /\
                 Forall before_epilogue rest.
Proof.
  intros Hhelp Hrun.
  destruct (main_run _ _ _ _ _ Hhelp Hrun) as [(_ & He & _)|(os & ms & Hm)];
    [discriminate He|].
  cbv zeta in Hm. destruct Hm as (_ & Hs & Hm).
  destruct os as [l| |]; [|destruct Hm; discriminate|destruct Hm; discriminate].
  destruct Hm as (Hz & _ & Hl). inversion Hz; subst z.
  split; [reflexivity|].
  pose proof (sweep_events _ fuel vm _ _ _ _ _ (swept_refl _) Hs)
    as (evs & Hlog & Hev). cbn [log] in Hlog.
  exists (log ms), (results l). split; [exact Hl|].
  rewrite Hlog. apply Forall_app. split.
  - repeat constructor.
  - eapply Forall_impl; [|exact Hev]. intros e He.
    destruct e; try contradiction; exact I.
Qed.

(** A run of [main] that does not return has not reached the
    epilogue. *)
Lemma main_unfinished_log fuel vm w o m' :
  UHD_SAFE_MAIN fuel vm {| world := w; log := [] |} = (o, m') ->
  (forall z, o <> Ok z) ->
  Forall before_epilogue (log m').
Proof.
  intros Hrun Hno. destruct (help vm) eqn:Hhelp.
  { unfold UHD_SAFE_MAIN in Hrun. rewrite Hhelp in Hrun.
    inversion Hrun; subst. exfalso. eapply Hno. reflexivity. }
  destruct (main_run _ _ _ _ _ Hhelp Hrun) as [(_ & _ & ->)|(os & ms & Hm)].
  - repeat constructor.
  - cbv zeta in Hm. destruct Hm as (_ & Hs & Hm).
    pose proof (sweep_events _ fuel vm _ _ _ _ _ (swept_refl _) Hs) as Hev.
    assert (Hsw : swept (preamble vm ++ [EvThreadCreated (tx_wave_ampl vm)]) ms)
      by (destruct os; exact Hev).
    assert (Hm' : m' = ms).
    { destruct os as [l| |]; destruct Hm as [Ho Hm'].
      - exfalso. eapply Hno. exact Ho.
      - exact Hm'.
      - exact Hm'. }
    subst m'. destruct Hsw as (evs & -> & Hf). cbn [log].
    apply Forall_app. split; [repeat constructor|].
    eapply Forall_impl; [|exact Hf]. intros e He.
    destruct e; try contradiction; exact I.
Qed.

(** *** The wait for the lock on a device with a clock *)

(** The timeout is raised only when the clock has passed the
    deadline. *)
Lemma wait_lo_locked_late now fuel start :
  clock now ->
  forall m e m',
    wait_lo_locked fuel start m = (Throw e, m') ->
    e = lo_timeout /\ (start + milliseconds 100 < now (world m'))%Z.
Proof.
  intro Hclock.
  induction fuel as [|fuel IH]; intros m e m' Hrun; simpl in Hrun;
    [discriminate|].
  unfold bind at 1 in Hrun.
  destruct (lo_unlocked m) as [[b| |] m1] eqn:Hlo.
  - destruct b; [|discriminate].
    unfold bind at 1, io at 1 in Hrun.
    destruct (Hclock (world m1)) as (Hread & Hmono & _).
    destruct (get_system_time usrp (world m1)) as [c w2].
    cbn [fst snd] in Hread, Hmono.
    destruct (c >? start + milliseconds 100)%Z eqn:Ec.
    + inversion Hrun; subst e m'. split; [reflexivity|].
      cbn [world]. apply Z.gtb_lt in Ec. lia.
    + exact (IH _ _ _ Hrun).
  - exfalso. unfold lo_unlocked, bind, io, ret in Hlo.
    destruct (get_tx_sensor usrp "lo_locked" (world m)) as [tx w1].
    destruct (negb tx); [discriminate|].
    destruct (get_rx_sensor usrp "lo_locked" _) as [rx w2]. discriminate.
  - discriminate.
Qed.

(** The run of the tuning routine up to the wait. *)
Lemma tune_rx_and_tx_run fuel f offset m :
  tune_rx_and_tx fuel f offset m =
    bind (wait_lo_locked fuel (fst (get_system_time usrp (settled f offset (world m)))))
         (fun _ => get (get_rx_freq usrp))
      {| world := snd (get_system_time usrp (settled f offset (world m)));
         log := (log m ++ [EvTune f])%list |}.
Proof.
  unfold tune_rx_and_tx, settled.
  unfold bind at 1. unfold emit at 1.
  unfold bind at 1. unfold call at 1.
  unfold bind at 1. unfold get at 1.
  unfold bind at 1. unfold call at 1.
  unfold bind at 1. unfold call at 1.
  unfold bind at 1. unfold io at 1. cbn [world log].
  destruct (get_system_time usrp _) as [start w1]. reflexivity.
Qed.

Lemma tune_rx_and_tx_late now fuel f offset m e m' :
  clock now ->
  tune_rx_and_tx fuel f offset m = (Throw e, m') ->
  e = lo_timeout /\
  (now (settled f offset (world m)) + milliseconds 100 < now (world m'))%Z.
Proof.
  intros Hclock Hrun. rewrite tune_rx_and_tx_run in Hrun.
  unfold bind in Hrun.
  destruct (wait_lo_locked fuel _ _) as [[r|e'|] m1] eqn:Hw;
    [discriminate| |discriminate].
  inversion Hrun; subst e' m1.
  destruct (wait_lo_locked_late now _ _ Hclock _ _ _ Hw) as [He Hlate].
  split; [exact He|].
  destruct (Hclock (settled f offset (world m))) as (Hread & _).
  rewrite Hread in Hlate. exact Hlate.
Qed.

Section Unlocked.

Variable now : W -> Z.
Variable q : Z.
Hypothesis clock_now : clock now.
Hypothesis poll_q : poll_takes now q.
Hypothesis unlocked : never_locks.

Lemma lo_unlocked_never m :
  exists m1, lo_unlocked m = (Ok true, m1) /\ log m1 = log m /\
             (now (world m) + q <= now (world m1))%Z.
Proof using Type unlocked poll_q clock_now.
  unfold lo_unlocked, bind, io, ret.
  destruct poll_q as [_ Hq].
  pose proof (Hq "lo_locked" (world m)) as Htx.
  pose proof (unlocked (world m)) as Hu.
  destruct (get_tx_sensor usrp "lo_locked" (world m)) as [tx w1].
  cbn [fst snd] in Htx, Hu. cbn [world log].
  destruct tx; cbn [negb world log].
  - destruct (clock_now w1) as (_ & _ & Hs).
    destruct (Hs "lo_locked") as [_ Hrx].
    destruct Hu as [Hu|Hu]; [discriminate|].
    destruct (get_rx_sensor usrp "lo_locked" w1) as [rx w2].
    cbn [fst snd] in Hu, Hrx. subst rx.
    eexists. split; [reflexivity|]. cbn [world log]. split; [reflexivity|lia].
  - eexists. split; [reflexivity|]. cbn [world log]. split; [reflexivity|lia].
Qed.

(** The wait gives up: with fuel for the polls that fit in the time
    left, it throws the timeout. *)
Lemma wait_lo_locked_gives_up start :
  forall fuel m,
    (start + milliseconds 100 - now (world m) < Z.of_nat (S fuel) * q)%Z ->
    exists m', wait_lo_locked (S fuel) start m = (Throw lo_timeout, m') /\
               log m' = log m.
Proof using Type unlocked poll_q clock_now.
  destruct poll_q as [Hq0 _].
  induction fuel as [|fuel IH]; intros m Hleft;
    destruct (lo_unlocked_never m) as (m1 & Hlo & Hlog & Hq);
    cbn [wait_lo_locked]; unfold bind at 1; rewrite Hlo;
    unfold bind at 1, io at 1;
    destruct (clock_now (world m1)) as (Hread & Hmono & _);
    destruct (get_system_time usrp (world m1)) as [c w2];
    cbn [fst snd] in Hread, Hmono;
    destruct (c >? start + milliseconds 100)%Z eqn:Ec;
    try (eexists; split; [reflexivity|exact Hlog]).
  - exfalso. rewrite Z.gtb_ltb in Ec. apply Z.ltb_ge in Ec. lia.
  - destruct (IH {| world := w2; log := log m1 |}) as (m' & Hrun & Hlog').
    + cbn [world]. rewrite Z.gtb_ltb in Ec. apply Z.ltb_ge in Ec. lia.
    + exists m'. split; [exact Hrun|]. rewrite Hlog'. exact Hlog.
Qed.

Lemma wait_fuel_enough fuel :
  (wait_fuel q <= fuel)%nat ->
  exists fuel', fuel = S fuel' /\ (milliseconds 100 < Z.of_nat fuel * q)%Z.
Proof using Type poll_q.
  destruct poll_q as [Hq0 _]. unfold wait_fuel. intro Hf.
  destruct fuel as [|fuel']; [lia|]. exists fuel'. split; [reflexivity|].
  assert (H0 : (0 <= milliseconds 100 / q)%Z)
    by (apply Z.div_pos; [discriminate|exact Hq0]).
  assert (Hk : (milliseconds 100 / q + 1 <= Z.of_nat (S fuel'))%Z) by lia.
  pose proof (Z.div_mod (milliseconds 100) q ltac:(lia)) as Hd.
  pose proof (Z.mod_pos_bound (milliseconds 100) q Hq0) as Hm.
  nia.
Qed.

(** The tuning routine on a device whose LOs never lock. *)
Lemma tune_rx_and_tx_gives_up fuel f offset m :
  (wait_fuel q <= fuel)%nat ->
  exists m', tune_rx_and_tx fuel f offset m = (Throw lo_timeout, m') /\
             log m' = (log m ++ [EvTune f])%list.
Proof using Type unlocked poll_q now clock_now.
  intro Hfuel. destruct (wait_fuel_enough fuel Hfuel) as (fuel' & -> & Hq).
  rewrite tune_rx_and_tx_run.
  destruct (clock_now (settled f offset (world m))) as (Hread & Hmono & _).
  destruct (wait_lo_locked_gives_up
              (fst (get_system_time usrp (settled f offset (world m)))) fuel'
              {| world := snd (get_system_time usrp (settled f offset (world m)));
                 log := (log m ++ [EvTune f])%list |}) as (m' & Hrun & Hlog).
  - cbn [world]. lia.
  - exists m'. unfold bind. rewrite Hrun. split; [reflexivity|exact Hlog].
Qed.

(** [main] on such a device: the first tuning aborts the run. *)
Lemma main_gives_up fuel vm w :
  (wait_fuel q <= fuel)%nat ->
  help vm = false -> lacks_cal vm w = false ->
  sweep_candidate vm (main_range vm w) 0 < sweep_bound (main_range vm w) ->
  exists m',
    UHD_SAFE_MAIN fuel vm {| world := w; log := [] |} = (Throw lo_timeout, m') /\
    log m' = (preamble vm ++
              [EvThreadCreated (tx_wave_ampl vm);
               EvTune (sweep_candidate vm (main_range vm w) 0)])%list.
Proof using Type unlocked poll_q now clock_now.
  intros Hfuel Hhelp Hcal Hfirst.
  destruct (UHD_SAFE_MAIN fuel vm {| world := w; log := [] |}) as [o m'] eqn:E.
  destruct (main_run _ _ _ _ _ Hhelp E) as [(Hl & _)|(os & ms & Hm)];
    [congruence|].
  cbv zeta in Hm. destruct Hm as (_ & Hs & Hm). cbn [world] in Hs.
  fold (main_range vm w) in Hs.
  destruct (wait_fuel_enough fuel Hfuel) as (fuel' & Ef & _).
  destruct (tune_rx_and_tx_gives_up fuel
              (sweep_candidate vm (main_range vm w) 0) (tx_offset vm)
              {| world := setup_world vm w;
                 log := (preamble vm ++ [EvThreadCreated (tx_wave_ampl vm)])%list |}
              Hfuel) as (mt & Ht & Hlog).
  unfold sweep in Hs. rewrite Ef in Hs at 1. cbn [for_double] in Hs.
  change (to_double (fst (main_range vm w) + 50e6))
    with (sweep_candidate vm (main_range vm w) 0) in Hs.
  fold (sweep_bound (main_range vm w)) in Hs.
  rewrite (proj2 (Qltb_true _ _) Hfirst) in Hs.
  unfold bind at 1 in Hs. unfold sweep_body at 1 in Hs.
  unfold bind at 1 in Hs. rewrite Ht in Hs.
  inversion Hs; subst os ms. destruct Hm as [-> ->].
  exists mt. split; [reflexivity|].
  rewrite Hlog. cbn [log]. rewrite <- app_assoc. reflexivity.
Qed.

End Unlocked.

(** A step that moves the loop variable of the sweep up by [delta] or
    more takes it to the bound. *)
Lemma advances_reaches_bound vm (range : double * double) (delta : Q) :
  advances vm range delta -> exists n, reaches_bound vm range n.
Proof.
  intros [Hd Hadv]. unfold reaches_bound.
  set (x0 := to_double (fst range + 50e6)) in *.
  set (bound := sweep_bound range) in *.
  assert (Hind : forall n,
             (exists k, bound <= sweep_candidate vm range k) \/
             x0 + inject_Z (Z.of_nat n) * delta <= sweep_candidate vm range n).
  { induction n as [|n [IH|IH]].
    - right. change (sweep_candidate vm range 0) with x0.
      change (inject_Z (Z.of_nat 0)) with 0. lra.
    - left. exact IH.
    - destruct (Qlt_le_dec (sweep_candidate vm range n) bound) as [Hlt|Hge].
      + right.
        assert (H0 : x0 <= sweep_candidate vm range n).
        { eapply Qle_trans; [|exact IH].
          assert (0 <= inject_Z (Z.of_nat n) * delta).
          { apply Qmult_le_0_compat; [|lra].
            change 0 with (inject_Z 0). rewrite <- Zle_Qle. lia. }
          lra. }
        pose proof (Hadv _ H0 Hlt) as Hstep.
        change (sweep_candidate vm range (S n))
          with (next_candidate vm (sweep_candidate vm range n)).
        rewrite Nat2Z.inj_succ. unfold Z.succ. rewrite inject_Z_plus.
        change (inject_Z 1) with 1.
        set (k := inject_Z (Z.of_nat n)) in *.
        assert (Hk : (k + 1) * delta == k * delta + delta) by ring.
        rewrite Hk. lra.
      + left. exists n. exact Hge. }
  set (r := (bound - x0) / delta).
  destruct (Hind (Z.to_nat (Qceiling r))) as [Hk|Hn]; [exact Hk|].
  exists (Z.to_nat (Qceiling r)).
  eapply Qle_trans; [|exact Hn].
  assert (Hr : r <= inject_Z (Z.of_nat (Z.to_nat (Qceiling r)))).
  { eapply Qle_trans; [apply Qle_ceiling|]. rewrite <- Zle_Qle. lia. }
  assert (Hm : bound - x0 == r * delta).
  { unfold r. field. intro H0. rewrite H0 in Hd. lra. }
  apply (Qmult_le_compat_r _ _ delta) in Hr; [|lra]. lra.
Qed.


(** A run of [main] that throws after it created the transmit thread
    has neither interrupted nor joined it. *)
Lemma abort_leaves_tx_thread fuel vm w e m' :
  UHD_SAFE_MAIN fuel vm {| world := w; log := [] |} = (Throw e, m') ->
  ~ In EvInterruptAll (log m') /\ ~ In EvJoinAll (log m') /\
  (e <> no_cal_antenna -> In (EvThreadCreated (tx_wave_ampl vm)) (log m')).
Proof.
  intro Hrun.
  pose proof (main_throw_before_epilogue _ _ _ _ _ Hrun) as Hq.
  rewrite Forall_forall in Hq.
  split; [intro Hin; exact (Hq _ Hin)|].
  split; [intro Hin; exact (Hq _ Hin)|].
  intro Hne.
  destruct (main_throw_log _ _ _ _ _ Hrun) as [(He & _)|(evs & -> & _)].
  - contradiction.
  - apply in_or_app. right. left. reflexivity.
Qed.

(** *** The transmit thread *)

Lemma tx_loop_sending L0 fuel a md b :
  end_of_burst md = false ->
  hoare (sending L0) (tx_loop fuel a md b) (fun _ => sending L0) (sending L0).
Proof.
  intro Hmd. revert b. induction fuel as [|fuel IH]; intro b; simpl.
  - apply hoare_out_of_fuel. auto.
  - eapply hoare_bind with (R := fun _ => sending L0).
    + apply hoare_io. intros m (evs & Hl & Hf). exists evs. auto.
    + intros [|]; [apply hoare_ret; auto|].
      eapply hoare_bind with (R := fun _ => sending L0).
      * apply hoare_call. intros m (evs & Hl & Hf). exists evs. auto.
      * intros _. eapply hoare_bind with (R := fun _ => sending L0);
          [|intros _; apply IH].
        apply hoare_emit. intros m (evs & Hl & Hf).
        eexists (evs ++ [_])%list. simpl. rewrite Hl, app_assoc.
        split; [reflexivity|]. apply Forall_app. split; [exact Hf|].
        constructor; [|constructor]. eexists _, _. split; [reflexivity|exact Hmd].
Qed.

(** Without a request of interruption the loop of lines 51-56 does
    not end: whatever the fuel, the thread is still sending, and it has
    not sent the end of burst. *)
Lemma tx_thread_not_interrupted fuel a (m : machine W) :
  (forall w, fst (interruption_requested usrp w) = false) ->
  fst (tx_thread fuel a m) = OutOfFuel /\
  sending (log m) (snd (tx_thread fuel a m)).
Proof.
  intro Hnever.
  assert (Hloop : forall fuel md b (m0 : machine W),
             fst (tx_loop fuel a md b m0) = OutOfFuel).
  { induction fuel0 as [|fuel0 IH]; intros md b m0; simpl; [reflexivity|].
    unfold bind at 1. unfold io at 1.
    specialize (Hnever (world m0)).
    destruct (interruption_requested usrp (world m0)) as [stop w1].
    simpl in Hnever. subst stop.
    unfold bind at 1. unfold call at 1. unfold bind at 1. unfold emit at 1.
    apply IH. }
  destruct (tx_thread fuel a m) as [o m'] eqn:E. cbn [fst snd].
  unfold tx_thread in E.
  unfold bind at 1 in E. unfold call at 1 in E.
  unfold bind at 1 in E. unfold call at 1 in E.
  unfold bind at 1 in E. unfold get at 1 in E. cbn [world log] in E.
  unfold bind at 1 in E.
  match type of E with
  | context [tx_loop fuel a ?md ?b ?m0] =>
      pose proof (Hloop fuel md b m0) as Ho;
      pose proof (tx_loop_sending (log m) fuel a md b eq_refl m0) as Hs;
      destruct (tx_loop fuel a md b m0) as [[b'| |] m1]; try discriminate Ho
  end.
  inversion E; subst. split; [reflexivity|].
  apply (Hs OutOfFuel m'); [|reflexivity].
  exists []. rewrite app_nil_r. split; [reflexivity|constructor].
Qed.

(** A thread that returns has sent the end of burst last. *)
Lemma tx_thread_returns fuel a (m m' : machine W) :
  tx_thread fuel a m = (Ok tt, m') ->
  exists rest,
    log m' = (rest ++ [EvSend 0 {| has_time_spec := false;
                                   end_of_burst := true |}])%list.
Proof.
  unfold tx_thread.
  unfold bind at 1. unfold call at 1. unfold bind at 1. unfold call at 1.
  unfold bind at 1. unfold get at 1. cbn [world log]. unfold bind at 1.
  destruct (tx_loop fuel a _ _ _) as [[b'| |] m1]; try discriminate.
  unfold bind, call, emit. cbn [world log has_time_spec].
  intro H. inversion H; subst. cbn [log]. eexists. reflexivity.
Qed.

(** *** The log is not read *)

Lemma blind_ret {A} (a : A) : log_blind (ret (W := W) a).
Proof.
  intros w L1 L2. simpl. repeat split. exists [].
  rewrite !app_nil_r. split; reflexivity.
Qed.

Lemma blind_throw {A} e : log_blind (throw (W := W) (A := A) e).
Proof.
  intros w L1 L2. simpl. repeat split. exists [].
  rewrite !app_nil_r. split; reflexivity.
Qed.

Lemma blind_out_of_fuel {A} : log_blind (out_of_fuel (W := W) (A := A)).
Proof.
  intros w L1 L2. simpl. repeat split. exists [].
  rewrite !app_nil_r. split; reflexivity.
Qed.

Lemma blind_call (f : W -> W) : log_blind (call f).
Proof.
  intros w L1 L2. simpl. repeat split. exists [].
  rewrite !app_nil_r. split; reflexivity.
Qed.

Lemma blind_get {A} (f : W -> A) : log_blind (get f).
Proof.
  intros w L1 L2. simpl. repeat split. exists [].
  rewrite !app_nil_r. split; reflexivity.
Qed.

Lemma blind_io {A} (f : W -> A * W) : log_blind (io f).
Proof.
  intros w L1 L2. unfold io. simpl. destruct (f w) as [a w']. simpl.
  repeat split. exists []. rewrite !app_nil_r. split; reflexivity.
Qed.

Lemma blind_emit (e : event) : log_blind (emit (W := W) e).
Proof.
  intros w L1 L2. simpl. repeat split. exists [e]. split; reflexivity.
Qed.

Lemma blind_bind {A B} (c : M W A) (k : A -> M W B) :
  log_blind c -> (forall a, log_blind (k a)) -> log_blind (bind c k).
Proof.
  intros Hc Hk w L1 L2. unfold bind.
  destruct (Hc w L1 L2) as (Ho & Hw & evs & H1 & H2).
  destruct (c {| world := w; log := L1 |}) as [o1 [w1 l1]].
  destruct (c {| world := w; log := L2 |}) as [o2 [w2 l2]].
  simpl in Ho, Hw, H1, H2. subst o2 w2 l1 l2.
  destruct o1 as [a| |].
  - destruct (Hk a w1 (L1 ++ evs)%list (L2 ++ evs)%list)
      as (Ho' & Hw' & evs' & H1' & H2').
    split; [exact Ho'|]. split; [exact Hw'|].
    exists (evs ++ evs')%list. rewrite H1', H2', !app_assoc.
    split; reflexivity.
  - simpl. repeat split. exists evs. split; reflexivity.
  - simpl. repeat split. exists evs. split; reflexivity.
Qed.

Lemma blind_for_double {A} (cond : A -> double -> bool)
    (incr : A -> double -> double) (body : double -> A -> M W A) :
  (forall x a, log_blind (body x a)) ->
  forall fuel x a, log_blind (for_double fuel cond incr body x a).
Proof.
  intro Hbody. induction fuel as [|fuel IH]; intros x a; simpl.
  - apply blind_out_of_fuel.
  - destruct (cond a x); [|apply blind_ret].
    apply blind_bind; [apply Hbody|]. intro a'. apply IH.
Qed.

Lemma blind_for_size_t {A} (body : A -> M W A) :
  (forall a, log_blind (body a)) ->
  forall n a, log_blind (for_size_t n body a).
Proof.
  intro Hbody. induction n as [|n IH]; intro a; simpl.
  - apply blind_ret.
  - apply blind_bind; [apply IH|]. exact Hbody.
Qed.

Lemma blind_if {A} (b : bool) (c1 c2 : M W A) :
  log_blind c1 -> log_blind c2 -> log_blind (if b then c1 else c2).
Proof. destruct b; auto. Qed.

Create HintDb blind.

#[local] Hint Resolve blind_ret blind_throw blind_out_of_fuel blind_call
  blind_get blind_io blind_emit blind_bind blind_if blind_for_double
  blind_for_size_t : blind.

Lemma blind_wait_lo_locked fuel start : log_blind (wait_lo_locked fuel start).
Proof.
  induction fuel as [|fuel IH]; simpl; unfold lo_unlocked;
    auto 20 with blind.
Qed.

Lemma blind_tune_rx_and_tx fuel f offset :
  log_blind (tune_rx_and_tx fuel f offset).
Proof.
  pose proof blind_wait_lo_locked. unfold tune_rx_and_tx.
  auto 20 with blind.
Qed.

Lemma blind_capture_samples b : log_blind (capture_samples b).
Proof. unfold capture_samples. auto 20 with blind. Qed.

Lemma blind_search fuel l : log_blind (search fuel l).
Proof.
  pose proof blind_capture_samples.
  unfold search, search_rounds, search_round, phase_loop, ampl_loop,
    grid_point.
  auto 30 with blind.
Qed.

Lemma blind_sweep fuel vm range l : log_blind (sweep fuel vm range l).
Proof.
  pose proof blind_tune_rx_and_tx. pose proof blind_search.
  unfold sweep, sweep_body. auto 20 with blind.
Qed.

(** The program does not read the log: the log only records. *)
Lemma blind_main fuel vm : log_blind (UHD_SAFE_MAIN fuel vm).
Proof.
  pose proof blind_sweep. unfold UHD_SAFE_MAIN. auto 40 with blind.
Qed.

Lemma blind_tx_thread fuel a : log_blind (tx_thread fuel a).
Proof.
  assert (Hloop : forall fuel md b, log_blind (tx_loop fuel a md b)).
  { induction fuel0 as [|fuel0 IH]; intros md b; simpl; auto 20 with blind. }
  unfold tx_thread. auto 20 with blind.
Qed.

(** * Further properties of the helpers and of [main] *)

(** ** Capture *)

Lemma capture_samples_cases (b : list complex) (m : machine W) :
  let md := fst (capture_recv b (world m)) in
  let m' := {| world := snd (capture_recv b (world m)); log := log m |} in
  (error_code md <> ERROR_CODE_NONE /\
   capture_samples b m = (Throw (bad_error_code (error_code md)), m')) \/
  (error_code md = ERROR_CODE_NONE /\
   List.length (rx_samps md) <> List.length b /\
   capture_samples b m = (Throw short_read, m')) \/
  (error_code md = ERROR_CODE_NONE /\
   List.length (rx_samps md) = List.length b /\
   capture_samples b m = (Ok (rx_samps md), m')).
Proof.
  cbv zeta. rewrite capture_samples_run. cbv zeta.
  fold (capture_recv b (world m)).
  destruct (error_code (fst (capture_recv b (world m))) =? ERROR_CODE_NONE)%Z
    eqn:Ec; cbn [negb].
  - apply Z.eqb_eq in Ec. right.
    destruct (List.length (rx_samps (fst (capture_recv b (world m))))
              =? List.length b)%nat eqn:En; cbn [negb].
    + apply Nat.eqb_eq in En. right.
      split; [exact Ec|]. split; [exact En|].
      rewrite En, skipn_all, app_nil_r. reflexivity.
    + apply Nat.eqb_neq in En. left. repeat split; assumption.
  - apply Z.eqb_neq in Ec. left. split; [exact Ec|reflexivity].
Qed.

(** X1.  A capture that returns has replaced the whole buffer: its
    content is exactly the samples that [recv] delivered, as many as
    the buffer held before, received with the error code
    [ERROR_CODE_NONE]; nothing of the old content is left. *)
Theorem capture_fills_whole_buffer (b : list complex) (m : machine W) b' m' :
  capture_samples b m = (Ok b', m') ->
  b' = rx_samps (fst (capture_recv b (world m))) /\
  List.length b' = List.length b /\
  error_code (fst (capture_recv b (world m))) = ERROR_CODE_NONE /\
  m' = {| world := snd (capture_recv b (world m)); log := log m |}.
Proof.
  intro Hrun.
  destruct (capture_samples_cases b m) as [(_ & H)|[(_ & _ & H)|(Hc & Hn & H)]];
    rewrite H in Hrun; try discriminate.
  inversion Hrun; subst. repeat split; assumption.
Qed.

(** X2.  The error code is checked before the count: when [recv]
    reports an error code other than [ERROR_CODE_NONE] the capture
    throws "Unexpected error code 0x..." with the code in hexadecimal,
    whatever the number of samples; the short-read exception is thrown
    only for the code [ERROR_CODE_NONE].  Either way the stream
    command was issued and the samples were taken from the device. *)
Theorem capture_error_code_first (b : list complex) (m : machine W) :
  let md := fst (capture_recv b (world m)) in
  let m' := {| world := snd (capture_recv b (world m)); log := log m |} in
  (error_code md <> ERROR_CODE_NONE ->
   capture_samples b m = (Throw (bad_error_code (error_code md)), m')) /\
  (error_code md = ERROR_CODE_NONE ->
   List.length (rx_samps md) <> List.length b ->
   capture_samples b m = (Throw short_read, m')) /\
  bad_error_code 8 = runtime_error "Unexpected error code 0x8".
Proof.
  cbv zeta.
  destruct (capture_samples_cases b m)
    as [(Hc & H)|[(Hc & Hn & H)|(Hc & Hn & H)]];
    (split; [|split; [|reflexivity]]); intros; congruence.
Qed.

(** ** The exceptions of the program *)

Lemma capture_samples_exn b : raises (capture_samples b) sweep_exn.
Proof.
  intros m e m' Hrun.
  destruct (capture_samples_cases b m) as [(Hc & H)|[(_ & _ & H)|(_ & _ & H)]];
    rewrite H in Hrun; inversion Hrun; subst.
  - right. right. eexists. split; [exact Hc|reflexivity].
  - right. left. reflexivity.
Qed.

Lemma raises_io {A} (f : W -> A * W) X : raises (io f) X.
Proof.
  intros m e m' H. unfold io in H. destruct (f (world m)). discriminate H.
Qed.

Lemma wait_lo_locked_exn fuel start :
  raises (wait_lo_locked fuel start) sweep_exn.
Proof.
  induction fuel as [|fuel IH]; simpl; [apply raises_never; discriminate|].
  apply raises_bind.
  - unfold lo_unlocked. apply raises_bind; [apply raises_io|].
    intros [|]; cbn [negb].
    + apply raises_bind; [apply raises_io|].
      intro. apply raises_never; discriminate.
    + apply raises_never; discriminate.
  - intros [|]; [|apply raises_never; discriminate].
    apply raises_bind; [apply raises_io|]. intro now.
    destruct (now >? start + milliseconds 100)%Z; [|exact IH].
    intros m e m' H. inversion H; subst. left. reflexivity.
Qed.

Lemma tune_rx_and_tx_exn fuel f offset :
  raises (tune_rx_and_tx fuel f offset) sweep_exn.
Proof.
  unfold tune_rx_and_tx.
  apply raises_bind; [apply raises_never; discriminate|]. intros _.
  apply raises_bind; [apply raises_never; discriminate|]. intros _.
  apply raises_bind; [apply raises_never; discriminate|]. intros r.
  apply raises_bind; [apply raises_never; discriminate|]. intros _.
  apply raises_bind; [apply raises_never; discriminate|]. intros _.
  apply raises_bind; [apply raises_io|]. intros start.
  apply raises_bind; [apply wait_lo_locked_exn|]. intros _.
  apply raises_never; discriminate.
Qed.

Lemma search_exn fuel l : raises (search fuel l) sweep_exn.
Proof.
  unfold search, search_rounds.
  apply raises_for_size_t. intro a.
  unfold search_round. apply raises_bind.
  - unfold phase_loop. apply raises_for_double. intros x a1.
    unfold ampl_loop. apply raises_for_double. intros y a2.
    unfold grid_point.
    apply raises_bind; [apply raises_never; discriminate|]. intros _.
    apply raises_bind; [apply capture_samples_exn|]. intros b.
    apply raises_bind; [apply raises_never; discriminate|]. intros r1.
    apply raises_bind; [apply raises_never; discriminate|]. intros r2.
    apply raises_bind; [apply raises_never; discriminate|]. intros r3.
    apply raises_bind; [apply raises_never; discriminate|]. intros _.
    apply raises_never; discriminate.
  - intro l1. apply raises_never; discriminate.
Qed.

Lemma sweep_raises fuel vm range l : raises (sweep fuel vm range l) sweep_exn.
Proof.
  unfold sweep. apply raises_for_double. intros x a.
  unfold sweep_body.
  apply raises_bind; [apply tune_rx_and_tx_exn|]. intro rx_lo.
  apply raises_bind; [apply search_exn|]. intro l1.
  apply raises_bind; [|intros _; apply raises_never; discriminate].
  destruct (verbose vm); apply raises_never; discriminate.
Qed.

Lemma sweep_exn_not_no_cal e : sweep_exn e -> e <> no_cal_antenna.
Proof.
  intros [->|[->|(code & _ & ->)]] H;
    unfold lo_timeout, short_read, bad_error_code, no_cal_antenna in H;
    simpl in H; discriminate H.
Qed.

Lemma main_no_cal_run fuel vm w :
  help vm = false -> lacks_cal vm w = true ->
  UHD_SAFE_MAIN fuel vm {| world := w; log := [] |} =
    (Throw no_cal_antenna,
     {| world := make usrp (args vm) w; log := preamble vm |}).
Proof.
  intros Hhelp Hl. unfold UHD_SAFE_MAIN. rewrite Hhelp.
  unfold bind at 1. unfold emit at 1. unfold bind at 1. unfold emit at 1.
  unfold bind at 1. unfold call at 1. unfold bind at 1. unfold get at 1.
  unfold bind at 1. unfold get at 1. cbn [world log].
  fold (lacks_cal vm w). rewrite Hl. reflexivity.
Qed.

(** X4.  Without [--help], [main] throws the missing-antenna
    exception exactly when "CAL" is not among the RX antennas or not
    among the TX antennas of the device made; it then stops right after
    [make]: nothing was configured, no streamer and no transmit thread
    were created, and only the two lines of the banner were printed. *)
Theorem no_cal_antenna_iff fuel vm w :
  help vm = false ->
  (fst (UHD_SAFE_MAIN fuel vm {| world := w; log := [] |})
     = Throw no_cal_antenna <->
   lacks_cal vm w = true) /\
  (lacks_cal vm w = true ->
   UHD_SAFE_MAIN fuel vm {| world := w; log := [] |} =
     (Throw no_cal_antenna,
      {| world := make usrp (args vm) w; log := preamble vm |})).
Proof.
  intro Hhelp.
  pose proof (main_no_cal_run fuel vm w Hhelp) as Hthrow.
  split; [|exact Hthrow].
  split.
  - intro Hrun.
    destruct (UHD_SAFE_MAIN fuel vm {| world := w; log := [] |})
      as [o m'] eqn:E.
    cbn [fst] in Hrun. subst o.
    destruct (main_run _ _ _ _ _ Hhelp E)
      as [(Hl & _)|(os & ms & _ & Hs & Hos)]; [exact Hl|].
    exfalso. destruct os as [l|e'|]; destruct Hos as [Ho _];
      try discriminate Ho.
    inversion Ho; subst.
    exact (sweep_exn_not_no_cal _ (sweep_raises _ _ _ _ _ _ _ Hs) eq_refl).
  - intro Hl. rewrite (Hthrow Hl). reflexivity.
Qed.

(** X5.  The value that [main] returns is [~0], that is -1, exactly
    when [--help] was given, and 0 otherwise.  With [--help] it returns
    at once whatever the other options are: the usage is printed, and
    the device is neither made nor touched. *)
Theorem help_returns_all_ones fuel vm w :
  (forall z m',
     UHD_SAFE_MAIN fuel vm {| world := w; log := [] |} = (Ok z, m') ->
     (help vm = true /\ z = (-1)%Z) \/ (help vm = false /\ z = 0%Z)) /\
  (help vm = true ->
   UHD_SAFE_MAIN fuel vm {| world := w; log := [] |} =
     (Ok (-1)%Z, {| world := w; log := [EvHelp] |})).
Proof.
  split.
  - intros z m' Hrun. destruct (help vm) eqn:Hhelp.
    + left. unfold UHD_SAFE_MAIN in Hrun. rewrite Hhelp in Hrun.
      inversion Hrun. split; reflexivity.
    + right. split; [reflexivity|].
      exact (proj1 (main_ok_log _ _ _ _ _ Hhelp Hrun)).
  - intro Hhelp. unfold UHD_SAFE_MAIN. rewrite Hhelp. reflexivity.
Qed.

(** ** The table and the progress output of a completed run *)

Lemma printed_app (a b : list event) :
  printed (a ++ b) = (printed a ++ printed b)%list.
Proof. unfold printed. apply filter_app. Qed.

Lemma printed_probes (evs : list event) :
  Forall is_probe evs -> printed evs = [].
Proof.
  induction 1 as [|e evs He _ IH]; [reflexivity|].
  destruct e; try contradiction. exact IH.
Qed.

Lemma printed_progress vm rx_lo l :
  printed [progress_event vm rx_lo l] = [progress_event vm rx_lo l] /\
  progress_mark vm (progress_event vm rx_lo l).
Proof.
  unfold progress_event, progress_mark.
  destruct (verbose vm); split; try reflexivity. eauto.
Qed.

(** The log of [main] when the sweep is entered. *)
Lemma main_ok_sweep fuel vm w z m' :
  help vm = false ->
  UHD_SAFE_MAIN fuel vm {| world := w; log := [] |} = (Ok z, m') ->
  exists l ms,
    sweep fuel vm (get_rx_freq_range usrp (setup_world vm w)) (main_decls vm)
      {| world := setup_world vm w;
         log := (preamble vm ++ [EvThreadCreated (tx_wave_ampl vm)])%list |}
      = (Ok l, ms) /\
    z = 0%Z /\ world m' = world ms /\
    log m' = (log ms ++ epilogue (results l))%list.
Proof.
  intros Hhelp Hrun.
  destruct (main_run _ _ _ _ _ Hhelp Hrun)
    as [(_ & Ho & _)|(os & ms & _ & Hs & Hos)]; [discriminate Ho|].
  cbv zeta in Hs. cbn [world] in Hs.
  destruct os as [l|e|]; destruct Hos as [Ho Hm]; try discriminate Ho.
  inversion Ho; subst. exists l, ms. destruct Hm as [Hw Hl].
  repeat split; assumption.
Qed.

(** The invariant of the sweep for the table: every row is above 30,
    and there are no more rows than frequencies tuned. *)
Lemma sweep_rows fuel vm range l :
  hoare (fun m => Forall (fun r => 30 < sup r) (results l) /\
                  (List.length (results l) <= List.length (tuned (log m)))%nat)
        (sweep fuel vm range l)
        (fun l' m => Forall (fun r => 30 < sup r) (results l') /\
                     (List.length (results l') <= List.length (tuned (log m)))%nat)
        (fun _ => True).
Proof.
  unfold sweep.
  apply (hoare_for_double
           (fun l m => Forall (fun r => 30 < sup r) (results l) /\
                       (List.length (results l)
                        <= List.length (tuned (log m)))%nat)
           (fun _ => True)); [auto|].
  intros x a m o m' [Hall Hlen] Hrun.
  destruct o as [l'| |]; auto.
  destruct (sweep_body_log _ _ _ _ _ _ _ Hrun)
    as (rx_lo & l1 & evs & Hl' & Hres & Hprobes & _ & Hlog & _).
  assert (Htuned : List.length (tuned (log m'))
                   = S (List.length (tuned (log m)))).
  { rewrite Hlog, tuned_app.
    change (tuned (EvTune x :: evs ++ [progress_event vm rx_lo l']))
      with (x :: tuned (evs ++ [progress_event vm rx_lo l'])).
    rewrite tuned_app, tuned_progress, app_nil_r.
    rewrite (tuned_probes evs); [|assumption].
    rewrite length_app. simpl. lia. }
  rewrite Htuned. subst l'.
  destruct (keep_result_cases rx_lo l1) as [(Hgt & Hk)|(_ & Hk)].
  - rewrite Hk, Hres. split.
    + apply Forall_app. split; [exact Hall|].
      constructor; [exact Hgt|constructor].
    + rewrite length_app. simpl. lia.
  - rewrite Hk, Hres. split; [exact Hall|lia].
Qed.

(** The table that a completed run stores is the table of its sweep. *)
Lemma main_stored_table fuel vm w z m' t XX xx :
  UHD_SAFE_MAIN fuel vm {| world := w; log := [] |} = (Ok z, m') ->
  In (EvStoreResults t XX xx) (log m') ->
  exists l ms,
    sweep fuel vm (get_rx_freq_range usrp (setup_world vm w)) (main_decls vm)
      {| world := setup_world vm w;
         log := (preamble vm ++ [EvThreadCreated (tx_wave_ampl vm)])%list |}
      = (Ok l, ms) /\
    log m' = (log ms ++ epilogue (results l))%list /\
    t = results l /\ XX = "RX" /\ xx = "rx".
Proof.
  intros Hrun Hin.
  destruct (help vm) eqn:Hhelp.
  { unfold UHD_SAFE_MAIN in Hrun. rewrite Hhelp in Hrun.
    inversion Hrun; subst. cbn in Hin. destruct Hin as [H|[]]. discriminate H. }
  destruct (main_ok_sweep _ _ _ _ _ Hhelp Hrun) as (l & ms & Hs & _ & _ & Hlog).
  pose proof (sweep_events _ _ _ _ _ _ _ _ (swept_refl _) Hs) as (evs & Hms & Hev).
  cbn [log] in Hms.
  exists l, ms. split; [exact Hs|]. split; [exact Hlog|].
  assert (Hstored : EvStoreResults t XX xx = EvStoreResults (results l) "RX" "rx").
  { rewrite Hlog, Hms in Hin.
    apply in_app_or in Hin. destruct Hin as [Hin|Hin].
    - exfalso. apply in_app_or in Hin. destruct Hin as [Hin|Hin].
      + apply in_app_or in Hin. destruct Hin as [Hin|Hin].
        * destruct Hin as [H|[H|[]]]; discriminate H.
        * destruct Hin as [H|[]]; discriminate H.
      + rewrite Forall_forall in Hev. exact (Hev _ Hin).
    - destruct Hin as [H|[H|[H|[H|[]]]]]; try discriminate H.
      symmetry. exact H. }
  inversion Hstored; subst. repeat split.
Qed.

(** X6.  The table that a completed run hands to [store_results] has
    only rows whose suppression is above 30 dB, and at most one row a
    frequency tuned to; it is stored under the names "RX" and "rx". *)
Theorem stored_rows_above_30 fuel vm w z m' t XX xx :
  UHD_SAFE_MAIN fuel vm {| world := w; log := [] |} = (Ok z, m') ->
  In (EvStoreResults t XX xx) (log m') ->
  Forall (fun r => 30 < sup r) t /\
  (List.length t <= List.length (tuned (log m')))%nat /\
  XX = "RX" /\ xx = "rx".
Proof.
  intros Hrun Hin.
  destruct (main_stored_table _ _ _ _ _ _ _ _ Hrun Hin)
    as (l & ms & Hs & Hlog & -> & -> & ->).
  assert (H0 : Forall (fun r => 30 < sup r) (results (main_decls vm)) /\
               (List.length (results (main_decls vm)) <=
                List.length
                  (tuned (preamble vm ++ [EvThreadCreated (tx_wave_ampl vm)])))%nat)
    by (split; [constructor|apply Nat.le_0_l]).
  pose proof (sweep_rows _ _ _ _
                {| world := setup_world vm w;
                   log := (preamble vm ++
                           [EvThreadCreated (tx_wave_ampl vm)])%list |}
                _ _ H0 Hs) as [Hall Hlen].
  split; [exact Hall|]. split; [|split; reflexivity].
  rewrite Hlog, tuned_app.
  change (tuned (epilogue (results l))) with (@nil double).
  rewrite app_nil_r. exact Hlen.
Qed.

Lemma reported_app (a b : list event) :
  reported (a ++ b) = (reported a ++ reported b)%list.
Proof. unfold reported. apply flat_map_app. Qed.

Lemma reported_probes (evs : list event) :
  Forall is_probe evs -> reported evs = [].
Proof.
  induction 1 as [|e evs He _ IH]; [reflexivity|].
  destruct e; try contradiction. exact IH.
Qed.

Lemma sweep_reported fuel vm range l :
  verbose vm = true ->
  hoare (fun m => map (fun r => (freq r, sup r)) (results l)
                  = reported (log m))
        (sweep fuel vm range l)
        (fun l' m => map (fun r => (freq r, sup r)) (results l')
                     = reported (log m))
        (fun _ => True).
Proof.
  intro Hv. unfold sweep.
  apply (hoare_for_double
           (fun l m => map (fun r => (freq r, sup r)) (results l)
                       = reported (log m))
           (fun _ => True)); [auto|].
  intros x a m o m' Hinv Hrun.
  destruct o as [l'| |]; auto.
  destruct (sweep_body_log _ _ _ _ _ _ _ Hrun)
    as (rx_lo & l1 & evs & Hl' & Hres & Hprobes & _ & Hlog & _).
  rewrite Hlog, reported_app, <- Hinv.
  change (reported (EvTune x :: evs ++ [progress_event vm rx_lo l']))
    with (reported (evs ++ [progress_event vm rx_lo l'])).
  rewrite reported_app, (reported_probes _ Hprobes).
  unfold progress_event. rewrite Hv. subst l'.
  cbn [app reported flat_map].
  destruct (keep_result_cases rx_lo l1) as [(Hgt & Hk)|(Hle & Hk)].
  - rewrite Hk, Hres, map_app.
    assert (Hs : best_suppression (keep_result rx_lo l1) = best_suppression l1).
    { unfold keep_result. destruct (Qgtb _ _); reflexivity. }
    rewrite Hs, (proj2 (Qgtb_true _ _) Hgt). reflexivity.
  - rewrite Hk, Hres, (proj2 (Qgtb_false _ _) Hle), app_nil_r. reflexivity.
Qed.

(** X7.  In verbose mode the values reported are those of the table:
    the rows stored by a completed run are, in order, the frequencies
    at which the best suppression handed to the format of line 250 was
    more than 30 dB, each row with the [rx_lo] and the best suppression
    that line 250 was given there.  This is about the values formatted,
    not about the text that [%f] makes of them. *)
Theorem rows_are_the_values_reported fuel vm w z m' t XX xx :
  verbose vm = true ->
  UHD_SAFE_MAIN fuel vm {| world := w; log := [] |} = (Ok z, m') ->
  In (EvStoreResults t XX xx) (log m') ->
  map (fun r => (freq r, sup r)) t = reported (log m').
Proof.
  intros Hv Hrun Hin.
  destruct (main_stored_table _ _ _ _ _ _ _ _ Hrun Hin)
    as (l & ms & Hs & Hlog & -> & _).
  assert (H0 : map (fun r => (freq r, sup r)) (results (main_decls vm)) =
               reported (preamble vm ++ [EvThreadCreated (tx_wave_ampl vm)]))
    by reflexivity.
  pose proof (sweep_reported _ _ _ _ Hv
                {| world := setup_world vm w;
                   log := (preamble vm ++
                           [EvThreadCreated (tx_wave_ampl vm)])%list |}
                _ _ H0 Hs) as Hr.
  cbv beta in Hr.
  rewrite Hlog, reported_app.
  change (reported (epilogue (results l))) with (@nil (double * double)).
  rewrite app_nil_r. exact Hr.
Qed.

(** The invariant of the sweep for the output: after the lines
    [P] come the marks, one a frequency tuned to. *)
Lemma sweep_marks P fuel vm range l :
  hoare (fun m => exists marks,
             printed (log m) = (P ++ marks)%list /\
             List.length marks = List.length (tuned (log m)) /\
             Forall (progress_mark vm) marks)
        (sweep fuel vm range l)
        (fun _ m => exists marks,
             printed (log m) = (P ++ marks)%list /\
             List.length marks = List.length (tuned (log m)) /\
             Forall (progress_mark vm) marks)
        (fun _ => True).
Proof.
  unfold sweep.
  apply (hoare_for_double
           (fun (_ : locals) m => exists marks,
              printed (log m) = (P ++ marks)%list /\
              List.length marks = List.length (tuned (log m)) /\
              Forall (progress_mark vm) marks)
           (fun _ => True)); [auto|].
  intros x a m o m' (marks & Hp & Hlen & Hall) Hrun.
  destruct o as [l'| |]; auto.
  destruct (sweep_body_log _ _ _ _ _ _ _ Hrun)
    as (rx_lo & l1 & evs & _ & _ & Hprobes & _ & Hlog & _).
  destruct (printed_progress vm rx_lo l') as [Hpp Hmark].
  exists (marks ++ [progress_event vm rx_lo l'])%list.
  split; [|split].
  - rewrite Hlog, printed_app, Hp, <- app_assoc. f_equal. f_equal.
    change (printed (EvTune x :: evs ++ [progress_event vm rx_lo l']))
      with (printed (evs ++ [progress_event vm rx_lo l'])).
    rewrite printed_app, (printed_probes _ Hprobes). exact Hpp.
  - rewrite Hlog, tuned_app.
    change (tuned (EvTune x :: evs ++ [progress_event vm rx_lo l']))
      with (x :: tuned (evs ++ [progress_event vm rx_lo l'])).
    rewrite tuned_app, tuned_progress, app_nil_r.
    rewrite (tuned_probes evs); [|assumption].
    rewrite !length_app. simpl. lia.
  - apply Forall_app. split; [exact Hall|].
    constructor; [exact Hmark|constructor].
Qed.

(** X8.  What a completed run without [--help] writes to the standard
    output: the two lines of the banner, then one mark for every
    frequency tuned to, then the closing newline; a mark is a dot, or,
    in verbose mode, one line with the frequency and the best
    suppression. *)
Theorem one_mark_per_frequency fuel vm w z m' :
  help vm = false ->
  UHD_SAFE_MAIN fuel vm {| world := w; log := [] |} = (Ok z, m') ->
  (exists marks,
     printed (log m') = (preamble vm ++ marks ++ [EvPrint ""])%list /\
     List.length marks = List.length (tuned (log m')) /\
     Forall (progress_mark vm) marks) /\
  (verbose vm = false ->
   printed (log m') =
     (preamble vm ++ repeat (EvPrint ".") (List.length (tuned (log m'))) ++
      [EvPrint ""])%list).
Proof.
  intros Hhelp Hrun.
  destruct (main_ok_sweep _ _ _ _ _ Hhelp Hrun) as (l & ms & Hs & _ & _ & Hlog).
  assert (H0 : exists marks,
             printed (preamble vm ++ [EvThreadCreated (tx_wave_ampl vm)])
               = (preamble vm ++ marks)%list /\
             List.length marks =
               List.length
                 (tuned (preamble vm ++ [EvThreadCreated (tx_wave_ampl vm)])) /\
             Forall (progress_mark vm) marks).
  { exists []. rewrite app_nil_r. repeat split. constructor. }
  pose proof (sweep_marks (preamble vm) _ _ _ _
                {| world := setup_world vm w;
                   log := (preamble vm ++
                           [EvThreadCreated (tx_wave_ampl vm)])%list |}
                _ _ H0 Hs) as (marks & Hp & Hlen & Hall).
  assert (Hprinted : printed (log m')
                     = (preamble vm ++ marks ++ [EvPrint ""])%list).
  { rewrite Hlog, printed_app, Hp, <- app_assoc. reflexivity. }
  assert (Htuned : tuned (log m') = tuned (log ms)).
  { rewrite Hlog, tuned_app.
    change (tuned (epilogue (results l))) with (@nil double).
    rewrite app_nil_r. reflexivity. }
  split.
  - exists marks. rewrite Htuned. repeat split; assumption.
  - intro Hv. rewrite Hprinted, Htuned, <- Hlen. f_equal. f_equal.
    clear - Hall Hv. induction Hall as [|e marks He _ IH]; [reflexivity|].
    unfold progress_mark in He. rewrite Hv in He. subst e.
    simpl. f_equal. exact IH.
Qed.

(** ** The grid of a round *)

Lemma axis_points_beyond fuel x stop step :
  stop + step / 2 < x -> axis_points fuel x stop step = [].
Proof.
  intro H. destruct fuel as [|fuel]; [reflexivity|]. simpl.
  destruct (Qle_bool x (stop + step / 2)) eqn:E; [|reflexivity].
  apply Qle_bool_iff in E. exfalso. exact (Qlt_not_le _ _ H E).
Qed.

(** An axis whose stop is [k] steps after [x] has [k + 1] points from
    [x] on, the stop included, when fuel lasts. *)
Lemma axis_points_length fuel : forall k x stop step,
  0 < step -> inject_Z (Z.of_nat k) * step == stop - x ->
  List.length (axis_points fuel x stop step) = Nat.min fuel (S k).
Proof.
  induction fuel as [|fuel IH]; intros k x stop step Hs Hk; [reflexivity|].
  simpl axis_points.
  assert (Hk0 : 0 <= inject_Z (Z.of_nat k) * step).
  { apply Qmult_le_0_compat; [|apply Qlt_le_weak; exact Hs].
    change 0 with (inject_Z 0). rewrite <- Zle_Qle. apply Nat2Z.is_nonneg. }
  assert (Hc : Qle_bool x (stop + step / 2) = true).
  { apply Qle_bool_iff. unfold Qdiv. change (/ 2) with (1 # 2).
    set (ks := inject_Z (Z.of_nat k) * step) in *. lra. }
  rewrite Hc. destruct k as [|k].
  - rewrite axis_points_beyond.
    + simpl. rewrite Nat.min_0_r. reflexivity.
    + change (inject_Z (Z.of_nat 0)) with 0 in Hk.
      unfold Qdiv. change (/ 2) with (1 # 2). lra.
  - cbn [List.length]. rewrite (IH k); [reflexivity|exact Hs|].
    rewrite Nat2Z.inj_succ in Hk. unfold Z.succ in Hk.
    rewrite inject_Z_plus in Hk. change (inject_Z 1) with 1 in Hk.
    set (ks := inject_Z (Z.of_nat k)) in *.
    assert (E : (ks + 1) * step == ks * step + step) by ring.
    rewrite E in Hk. set (kss := ks * step) in *. lra.
Qed.

(** A loop over an axis that completed stopped at its condition, not
    for lack of fuel. *)
Lemma for_double_ended {A} (Inv : A -> Prop) (cond : A -> double -> bool)
    (incr : A -> double -> double) (body : double -> A -> M W A)
    (stop step : double) :
  (forall a x, Inv a -> cond a x = Qle_bool x (stop + step / 2)) ->
  (forall a x, Inv a -> incr a x = x + step) ->
  (forall x a m a' m', Inv a -> body x a m = (Ok a', m') -> Inv a') ->
  forall fuel x a m a' m',
    Inv a -> for_double fuel cond incr body x a m = (Ok a', m') ->
    (List.length (axis_points fuel x stop step) < fuel)%nat.
Proof.
  intros Hc Hi Hb.
  induction fuel as [|fuel IH]; intros x a m a' m' Ha Hrun; simpl in *;
    [discriminate|].
  rewrite (Hc _ _ Ha) in Hrun.
  destruct (Qle_bool x (stop + step / 2)); [|simpl; lia].
  unfold bind in Hrun.
  destruct (body x a m) as [[a1| |] m1] eqn:Eb; try discriminate.
  pose proof (Hb _ _ _ _ _ Ha Eb) as Ha1.
  rewrite (Hi _ _ Ha1) in Hrun.
  simpl. apply -> Nat.succ_lt_mono. exact (IH _ _ _ _ _ Ha1 Hrun).
Qed.

Lemma grid_point_window l0 p a l m l' m' :
  same_window l0 l -> grid_point p a l m = (Ok l', m') -> same_window l0 l'.
Proof.
  intros Hw Eg.
  destruct (grid_point_run _ _ _ _ _ _ Eg) as [[Hno _]|(b & s & Hl1 & _)];
    [exfalso; eapply Hno; reflexivity|].
  cbv zeta in Hl1. inversion Hl1; subst l'.
  destruct (Qgtb s (best_suppression l)); exact Hw.
Qed.

Lemma ampl_loop_window l0 fuel p l m l' m' :
  same_window l0 l -> ampl_loop fuel p l m = (Ok l', m') -> same_window l0 l'.
Proof.
  intros Hw Hrun. unfold ampl_loop in Hrun.
  exact (proj1 (ampl_loop_coords l0 p _ _ _ _ _ _ Hw Hrun)).
Qed.

Lemma ampl_loop_ended l0 fuel p l m l' m' :
  same_window l0 l -> ampl_loop fuel p l m = (Ok l', m') ->
  (List.length (axis_points fuel (ampl_corr_start l0) (ampl_corr_stop l0)
                  (ampl_corr_step l0)) < fuel)%nat.
Proof.
  intros Hw Hrun. unfold ampl_loop in Hrun.
  pose proof Hw as (_ & _ & _ & H4 & _). rewrite H4 in Hrun.
  refine (for_double_ended (same_window l0) _ _ _ _ _ _ _ _ _ _ _ _ _ _ Hw Hrun).
  - intros a x (_ & _ & _ & _ & H5 & H6 & _). rewrite H5, H6. reflexivity.
  - intros a x (_ & _ & _ & _ & _ & H6 & _). rewrite H6. reflexivity.
  - intros x a m0 a' m0' Ha Hb. exact (grid_point_window _ _ _ _ _ _ _ Ha Hb).
Qed.

Lemma phase_loop_ended l0 fuel l m l' m' :
  same_window l0 l -> phase_loop fuel l m = (Ok l', m') ->
  (List.length (axis_points fuel (phase_corr_start l0) (phase_corr_stop l0)
                  (phase_corr_step l0)) < fuel)%nat.
Proof.
  intros Hw Hrun. unfold phase_loop in Hrun.
  pose proof Hw as (H1 & _). rewrite H1 in Hrun.
  refine (for_double_ended (same_window l0) _ _ _ _ _ _ _ _ _ _ _ _ _ _ Hw Hrun).
  - intros a x (_ & H2 & H3 & _). rewrite H2, H3. reflexivity.
  - intros a x (_ & _ & H3 & _). rewrite H3. reflexivity.
  - intros x a m0 a' m0' Ha Hb. exact (ampl_loop_window _ _ _ _ _ _ _ Ha Hb).
Qed.

Lemma phase_loop_inner fuel l m l' m' :
  phase_loop fuel l m = (Ok l', m') ->
  Qle_bool (phase_corr_start l) (phase_corr_stop l + phase_corr_step l / 2)
    = true ->
  exists l1 m1, ampl_loop fuel (phase_corr_start l) l m = (Ok l1, m1).
Proof.
  unfold phase_loop. destruct fuel as [|fuel']; [discriminate|].
  set (fuel := S fuel'). unfold fuel at 1. simpl for_double.
  intros Hrun Hc. rewrite Hc in Hrun. unfold bind in Hrun.
  destruct (ampl_loop fuel (phase_corr_start l) l m) as [[l1| |] m1];
    try discriminate.
  exists l1, m1. reflexivity.
Qed.

Lemma steps_divisor_nat :
  (2 <= num_search_steps < 2 ^ 64)%Z ->
  steps_divisor = inject_Z (Z.of_nat (Z.to_nat (num_search_steps - 1))) /\
  Z.to_nat num_search_steps = S (Z.to_nat (num_search_steps - 1)).
Proof.
  intro Hn. unfold steps_divisor, size_t_wrap.
  rewrite Z.mod_small by lia. rewrite Z2Nat.id by lia.
  split; [reflexivity|lia].
Qed.

(** The two axes of a completed round. *)
Lemma round_axes fuel l m l' m' :
  (2 <= num_search_steps < 2 ^ 64)%Z -> wide l ->
  search_round fuel l m = (Ok l', m') ->
  let n := Z.to_nat num_search_steps in
  let ps := (phase_corr_stop l - phase_corr_start l) / steps_divisor in
  let als := (ampl_corr_stop l - ampl_corr_start l) / steps_divisor in
  axis_points fuel (phase_corr_start l) (phase_corr_stop l) ps =
    candidates (phase_corr_start l) ps n /\
  axis_points fuel (ampl_corr_start l) (ampl_corr_stop l) als =
    candidates (ampl_corr_start l) als n.
Proof.
  intros Hn Hwide Hrun. cbv zeta.
  destruct (steps_divisor_nat Hn) as [Hd Hnat].
  destruct (search_round_run _ _ _ _ _ Hrun) as (l1 & _ & _ & Hloop).
  destruct (set_steps_gridded Hn l Hwide) as (Hps & Has & Hpd & Had).
  change (phase_corr_step (set_steps l))
    with ((phase_corr_stop l - phase_corr_start l) / steps_divisor) in Hps, Hpd.
  change (ampl_corr_step (set_steps l))
    with ((ampl_corr_stop l - ampl_corr_start l) / steps_divisor) in Has, Had.
  change (phase_corr_stop (set_steps l)) with (phase_corr_stop l) in Hpd.
  change (phase_corr_start (set_steps l)) with (phase_corr_start l) in Hpd.
  change (ampl_corr_stop (set_steps l)) with (ampl_corr_stop l) in Had.
  change (ampl_corr_start (set_steps l)) with (ampl_corr_start l) in Had.
  assert (Hw0 : same_window (set_steps l) (set_steps l))
    by (repeat split; reflexivity).
  pose proof (phase_loop_ended _ _ _ _ _ _ Hw0 Hloop) as Hpe.
  change (phase_corr_step (set_steps l))
    with ((phase_corr_stop l - phase_corr_start l) / steps_divisor) in Hpe.
  change (phase_corr_stop (set_steps l)) with (phase_corr_stop l) in Hpe.
  change (phase_corr_start (set_steps l)) with (phase_corr_start l) in Hpe.
  set (ps := (phase_corr_stop l - phase_corr_start l) / steps_divisor) in *.
  set (als := (ampl_corr_stop l - ampl_corr_start l) / steps_divisor) in *.
  rewrite Hd in Hpd, Had.
  pose proof (axis_points_length fuel _ _ _ _ Hps Hpd) as Hpl.
  pose proof (fun f => axis_points_length f _ _ _ _ Has Had) as Hal.
  assert (Hc : Qle_bool (phase_corr_start (set_steps l))
                 (phase_corr_stop (set_steps l)
                  + phase_corr_step (set_steps l) / 2) = true).
  { apply Qle_bool_iff.
    change (phase_corr_step (set_steps l)) with ps.
    change (phase_corr_stop (set_steps l)) with (phase_corr_stop l).
    change (phase_corr_start (set_steps l)) with (phase_corr_start l).
    destruct Hwide as [Hwp _].
    unfold Qdiv. change (/ 2) with (1 # 2). lra. }
  destruct (phase_loop_inner _ _ _ _ _ Hloop Hc) as (l2 & m2 & Hinner).
  pose proof (ampl_loop_ended _ _ _ _ _ _ _ Hw0 Hinner) as Hae.
  change (ampl_corr_step (set_steps l)) with als in Hae.
  change (ampl_corr_stop (set_steps l)) with (ampl_corr_stop l) in Hae.
  change (ampl_corr_start (set_steps l)) with (ampl_corr_start l) in Hae.
  split.
  - rewrite axis_points_candidates. f_equal. lia.
  - rewrite axis_points_candidates. f_equal. rewrite (Hal fuel) in *. lia.
Qed.

Lemma coords_length (evs : list event) :
  Forall is_probe evs -> List.length (coords evs) = List.length evs.
Proof.
  induction 1 as [|e evs He _ IH]; [reflexivity|].
  destruct e; try contradiction. simpl. f_equal. exact IH.
Qed.

Lemma candidates_length x0 step n : List.length (candidates x0 step n) = n.
Proof. unfold candidates. rewrite length_map, length_seq. reflexivity. Qed.

Lemma full_grid_length n p0 ps a0 als :
  List.length (full_grid n p0 ps a0 als) = (n * n)%nat.
Proof.
  unfold full_grid.
  rewrite (flat_map_constant_length (c := n)).
  - rewrite candidates_length. reflexivity.
  - intros p _. rewrite length_map. apply candidates_length.
Qed.

Lemma search_round_probes fuel l m l' m' :
  search_round fuel l m = (Ok l', m') ->
  Forall is_probe (since m m') /\ log m' = (log m ++ since m m')%list.
Proof.
  intro Hrun.
  assert (H1 : search_rounds fuel 1 l m = (Ok l', m')).
  { unfold search_rounds. simpl. unfold bind, ret. exact Hrun. }
  destruct (search_rounds_log _ _ _ _ _ _ H1) as (Hp & Hl & _).
  split; assumption.
Qed.

(** The grid of a completed round, with its size. *)
Lemma round_grid fuel l m l' m' :
  (2 <= num_search_steps < 2 ^ 64)%Z -> wide l ->
  search_round fuel l m = (Ok l', m') ->
  let n := Z.to_nat num_search_steps in
  let ps := (phase_corr_stop l - phase_corr_start l) / steps_divisor in
  let als := (ampl_corr_stop l - ampl_corr_start l) / steps_divisor in
  coords (since m m') =
    full_grid n (phase_corr_start l) ps (ampl_corr_start l) als /\
  List.length (since m m') = (n * n)%nat /\
  0 < ps /\ 0 < als.
Proof.
  intros Hn Hwide Hrun. cbv zeta.
  destruct (round_axes _ _ _ _ _ Hn Hwide Hrun) as [Hp Ha].
  cbv zeta in Hp, Ha.
  destruct (set_steps_gridded Hn l Hwide) as (Hps & Has & _).
  assert (Hc : coords (since m m') =
               full_grid (Z.to_nat num_search_steps) (phase_corr_start l)
                 ((phase_corr_stop l - phase_corr_start l) / steps_divisor)
                 (ampl_corr_start l)
                 ((ampl_corr_stop l - ampl_corr_start l) / steps_divisor)).
  { rewrite (round_scans_grid _ _ _ _ _ Hrun). unfold grid_points, full_grid.
    change (phase_corr_step (set_steps l))
      with ((phase_corr_stop l - phase_corr_start l) / steps_divisor).
    change (ampl_corr_step (set_steps l))
      with ((ampl_corr_stop l - ampl_corr_start l) / steps_divisor).
    change (phase_corr_stop (set_steps l)) with (phase_corr_stop l).
    change (phase_corr_start (set_steps l)) with (phase_corr_start l).
    change (ampl_corr_stop (set_steps l)) with (ampl_corr_stop l).
    change (ampl_corr_start (set_steps l)) with (ampl_corr_start l).
    rewrite Hp, Ha. reflexivity. }
  split; [exact Hc|]. split; [|split; assumption].
  destruct (search_round_probes _ _ _ _ _ Hrun) as [Hprobes _].
  rewrite <- (coords_length _ Hprobes), Hc. apply full_grid_length.
Qed.

(** X9.  A completed round of the search, started on a window of
    positive width with [num_search_steps] at least 2, probes the full
    square grid: [num_search_steps] phases from the start of the window
    in steps of a [num_search_steps - 1]-th of its width, and at each
    phase as many amplitudes likewise, the phase outermost; the last
    point of each axis is the stop of the window.  The round makes
    [num_search_steps * num_search_steps] captures. *)
Theorem round_probes_full_grid fuel l m l' m' :
  (2 <= num_search_steps < 2 ^ 64)%Z -> wide l ->
  search_round fuel l m = (Ok l', m') ->
  let n := Z.to_nat num_search_steps in
  let ps := (phase_corr_stop l - phase_corr_start l) / steps_divisor in
  let als := (ampl_corr_stop l - ampl_corr_start l) / steps_divisor in
  coords (since m m') =
    full_grid n (phase_corr_start l) ps (ampl_corr_start l) als /\
  Forall is_probe (since m m') /\
  List.length (since m m') = (n * n)%nat /\
  nth_candidate (phase_corr_start l) ps (n - 1) == phase_corr_stop l /\
  nth_candidate (ampl_corr_start l) als (n - 1) == ampl_corr_stop l.
Proof.
  intros Hn Hwide Hrun. cbv zeta.
  destruct (round_grid _ _ _ _ _ Hn Hwide Hrun) as (Hc & Hlen & _).
  cbv zeta in Hc, Hlen.
  destruct (search_round_probes _ _ _ _ _ Hrun) as [Hprobes _].
  destruct (steps_divisor_nat Hn) as [Hd Hnat].
  pose proof (steps_divisor_pos Hn) as Hpos.
  split; [exact Hc|]. split; [exact Hprobes|]. split; [exact Hlen|].
  rewrite Hnat, Nat.sub_1_r, Nat.pred_succ, !nth_candidate_value, <- Hd.
  split; field; intro H0; rewrite H0 in Hpos; discriminate Hpos.
Qed.

Lemma since_trans (m mk m' : machine W) :
  log mk = (log m ++ since m mk)%list ->
  log m' = (log mk ++ since mk m')%list ->
  since m m' = (since m mk ++ since mk m')%list.
Proof.
  intros H1 H2. apply since_app. rewrite H2, H1 at 1.
  rewrite <- app_assoc. reflexivity.
Qed.

Lemma search_rounds_count fuel k : forall l m l' m',
  (2 <= num_search_steps < 2 ^ 64)%Z -> wide l ->
  search_rounds fuel k l m = (Ok l', m') ->
  wide l' /\
  List.length (since m m') =
    (k * (Z.to_nat num_search_steps * Z.to_nat num_search_steps))%nat.
Proof.
  induction k as [|k IH]; intros l m l' m' Hn Hwide Hrun.
  - unfold search_rounds in Hrun. simpl in Hrun. inversion Hrun; subst.
    split; [exact Hwide|]. rewrite since_nil. reflexivity.
  - destruct (search_rounds_S _ _ _ _ _ _ Hrun) as (lk & mk & Hk & Hr).
    destruct (IH _ _ _ _ Hn Hwide Hk) as [Hwk Hlk].
    destruct (round_grid _ _ _ _ _ Hn Hwk Hr) as (_ & Hlen & Hps & Has).
    cbv zeta in Hlen, Hps, Has.
    destruct (round_window _ _ _ _ _ Hr) as (E1 & E2 & E3 & E4 & E5 & E6).
    split.
    + unfold wide. rewrite E3, E4, E5, E6, E1, E2.
      set (ps := (phase_corr_stop lk - phase_corr_start lk) / steps_divisor) in *.
      set (als := (ampl_corr_stop lk - ampl_corr_start lk) / steps_divisor) in *.
      split; lra.
    + destruct (search_rounds_log _ _ _ _ _ _ Hk) as (_ & Hl1 & _).
      destruct (search_round_probes _ _ _ _ _ Hr) as (_ & Hl2).
      rewrite (since_trans _ _ _ Hl1 Hl2), length_app, Hlk, Hlen. simpl. lia.
Qed.

(** X10.  A completed search at one frequency, with [num_search_steps]
    at least 2, logged nothing but probes, and made
    [num_search_iters * num_search_steps * num_search_steps] of them:
    one capture a grid point, every round a full grid. *)
Theorem search_probes_count fuel l m l' m' :
  (2 <= num_search_steps < 2 ^ 64)%Z ->
  search fuel l m = (Ok l', m') ->
  Forall is_probe (since m m') /\
  List.length (since m m') =
    (Z.to_nat num_search_iters *
     (Z.to_nat num_search_steps * Z.to_nat num_search_steps))%nat.
Proof.
  intros Hn Hrun. unfold search in Hrun.
  destruct (search_rounds_log _ _ _ _ _ _ Hrun) as (Hp & _).
  split; [exact Hp|].
  refine (proj2 (search_rounds_count _ _ _ _ _ _ Hn _ Hrun)).
  split; reflexivity.
Qed.

(** ** The number of captures of a run *)

Lemma search_count fuel l m l' m' :
  (2 <= num_search_steps < 2 ^ 64)%Z ->
  search fuel l m = (Ok l', m') ->
  Forall is_probe (since m m') /\
  log m' = (log m ++ since m m')%list /\
  List.length (since m m') =
    (Z.to_nat num_search_iters *
     (Z.to_nat num_search_steps * Z.to_nat num_search_steps))%nat.
Proof.
  intros Hn Hrun. unfold search in Hrun.
  destruct (search_rounds_log _ _ _ _ _ _ Hrun) as (Hp & Hl & _).
  split; [exact Hp|]. split; [exact Hl|].
  refine (proj2 (search_rounds_count _ _ _ _ _ _ Hn _ Hrun)).
  split; reflexivity.
Qed.

Lemma probes_app (a b : list event) :
  probes (a ++ b) = (probes a ++ probes b)%list.
Proof. unfold probes. apply filter_app. Qed.

Lemma probes_all_probes (evs : list event) :
  Forall is_probe evs -> probes evs = evs.
Proof.
  induction 1 as [|e evs He _ IH]; [reflexivity|].
  destruct e; try contradiction. simpl. f_equal. exact IH.
Qed.

Lemma probes_progress vm rx_lo l : probes [progress_event vm rx_lo l] = [].
Proof. unfold progress_event. destruct (verbose vm); reflexivity. Qed.

Lemma sweep_probe_count fuel vm range l :
  (2 <= num_search_steps < 2 ^ 64)%Z ->
  let c := (Z.to_nat num_search_iters *
            (Z.to_nat num_search_steps * Z.to_nat num_search_steps))%nat in
  hoare (fun m => List.length (probes (log m))
                  = (List.length (tuned (log m)) * c)%nat)
        (sweep fuel vm range l)
        (fun _ m => List.length (probes (log m))
                    = (List.length (tuned (log m)) * c)%nat)
        (fun _ => True).
Proof.
  intros Hn c. unfold sweep.
  apply (hoare_for_double
           (fun (_ : locals) m =>
              List.length (probes (log m))
              = (List.length (tuned (log m)) * c)%nat)
           (fun _ => True)); [auto|].
  intros x a m o m' Hinv Hrun.
  destruct o as [l'| |]; auto.
  destruct (sweep_body_ok _ _ _ _ _ _ _ Hrun)
    as (rx_lo & m1 & l1 & m2 & Ht & Hs & _ & _ & Hlog).
  pose proof (tune_rx_and_tx_log (log m) _ _ _ m _ _ eq_refl Ht) as Hl1.
  cbn beta in Hl1.
  destruct (search_count _ _ _ _ _ Hn Hs) as (Hp & Hl2 & Hlen).
  rewrite Hlog, Hl2, Hl1.
  rewrite !probes_app, !tuned_app, !length_app.
  rewrite (probes_all_probes _ Hp), (tuned_probes _ Hp), probes_progress,
    tuned_progress, Hlen, Hinv.
  change (probes [EvTune x]) with (@nil event).
  change (tuned [EvTune x]) with [x].
  fold c. simpl. lia.
Qed.

(** X11.  A completed run of [main], with [num_search_steps] at least
    2, made [num_search_iters * num_search_steps * num_search_steps]
    captures for every frequency it tuned to: the cost of a run is
    that of one search times the number of candidates. *)
Theorem run_probes_count fuel vm w z m' :
  (2 <= num_search_steps < 2 ^ 64)%Z ->
  help vm = false ->
  UHD_SAFE_MAIN fuel vm {| world := w; log := [] |} = (Ok z, m') ->
  List.length (probes (log m')) =
    (List.length (tuned (log m')) *
     (Z.to_nat num_search_iters *
      (Z.to_nat num_search_steps * Z.to_nat num_search_steps)))%nat.
Proof.
  intros Hn Hhelp Hrun.
  destruct (main_ok_sweep _ _ _ _ _ Hhelp Hrun) as (l & ms & Hs & _ & _ & Hlog).
  pose proof (sweep_probe_count _ _ _ _ Hn
                {| world := setup_world vm w;
                   log := (preamble vm ++
                           [EvThreadCreated (tx_wave_ampl vm)])%list |}
                _ _ eq_refl Hs) as Hc.
  cbv zeta in Hc.
  rewrite Hlog, probes_app, tuned_app.
  change (probes (epilogue (results l))) with (@nil event).
  change (tuned (epilogue (results l))) with (@nil double).
  rewrite !app_nil_r. exact Hc.
Qed.

(** ** Degenerate sweeps *)

(** X12.  On a device with the CAL antennas whose RX range is no wider
    than 100 MHz, twice the guard band, [main] tunes to nothing and
    probes nothing, yet it completes: it creates the transmit thread,
    stops it, and stores an empty table.  The rounding of the two ends
    of the sweep keeps their order. *)
Theorem narrow_range_stores_empty_table fuel vm w :
  monotone to_double ->
  help vm = false -> lacks_cal vm w = false ->
  snd (get_rx_freq_range usrp (setup_world vm w))
  - fst (get_rx_freq_range usrp (setup_world vm w)) <= 100e6 ->
  UHD_SAFE_MAIN (S fuel) vm {| world := w; log := [] |} =
    (Ok 0%Z,
     {| world := setup_world vm w;
        log := (preamble vm ++
                [EvThreadCreated (tx_wave_ampl vm); EvPrint ""; EvInterruptAll;
                 EvJoinAll; EvStoreResults [] "RX" "rx"])%list |}).
Proof.
  intros Hmono Hhelp Hcal Hnarrow.
  destruct (UHD_SAFE_MAIN (S fuel) vm {| world := w; log := [] |})
    as [o m'] eqn:E.
  destruct (main_run _ _ _ _ _ Hhelp E)
    as [(Hl & _)|(os & ms & _ & Hs & Hos)]; [congruence|].
  cbv zeta in Hs. cbn [world] in Hs.
  rewrite (sweep_narrow _ _ _ _ _ Hmono Hnarrow) in Hs.
  inversion Hs; subst os ms. destruct Hos as (-> & Hw & Hl).
  destruct m' as [w' L']. cbn [world log] in *. subst w' L'.
  reflexivity.
Qed.

(** A sweep whose loop variable starts below the bound and is not
    moved up by the addition of the step never completes. *)
Lemma sweep_stuck fuel0 vm (range : double * double) :
  idempotent to_double ->
  (forall x, to_double x == x -> next_candidate vm x <= x) ->
  forall fuel x l (m : machine W) l' m',
    to_double x == x ->
    x < to_double (snd range - 50e6) ->
    for_double fuel
      (fun _ rx_lo_i => Qltb rx_lo_i (to_double (snd range - 50e6)))
      (fun _ rx_lo_i => to_double (rx_lo_i + freq_step vm))
      (sweep_body fuel0 vm) x l m <> (Ok l', m').
Proof.
  intros Hidem Hstuck.
  induction fuel as [|fuel IH]; intros x l m l' m' Hrep Hx; simpl;
    [discriminate|].
  rewrite (proj2 (Qltb_true _ _) Hx). unfold bind.
  destruct (sweep_body fuel0 vm x l m) as [[l1| |] m1]; try discriminate.
  apply IH.
  - apply Hidem.
  - eapply Qle_lt_trans; [exact (Hstuck x Hrep)|exact Hx].
Qed.

(** A step of zero or less does not move the loop variable up. *)
Lemma nonpositive_step_stuck vm :
  monotone to_double -> freq_step vm <= 0 ->
  forall x, to_double x == x -> next_candidate vm x <= x.
Proof.
  intros Hmono Hstep x Hrep. unfold next_candidate.
  rewrite <- Hrep at 2. apply Hmono. lra.
Qed.

Lemma main_stuck fuel vm w z m' :
  idempotent to_double ->
  (forall x, to_double x == x -> next_candidate vm x <= x) ->
  help vm = false ->
  sweep_candidate vm (main_range vm w) 0 < sweep_bound (main_range vm w) ->
  UHD_SAFE_MAIN fuel vm {| world := w; log := [] |} <> (Ok z, m').
Proof.
  intros Hidem Hstuck Hhelp Hfirst Hrun.
  destruct (main_ok_sweep _ _ _ _ _ Hhelp Hrun) as (l & ms & Hs & _).
  unfold sweep in Hs.
  refine (sweep_stuck _ _ _ Hidem Hstuck _ _ _ _ _ _ _ _ Hs).
  - apply Hidem.
  - exact Hfirst.
Qed.

(** X13.  [freq_step] is not validated: with a step of zero or less
    and a range whose first candidate is below the bound of the sweep
    (in exact arithmetic, a range wider than 100 MHz) the loop variable
    never reaches the bound, and no run of [main] returns; a run ends,
    if at all, by an exception. *)
Theorem nonpositive_step_never_returns fuel vm w z m' :
  monotone to_double -> idempotent to_double ->
  help vm = false ->
  freq_step vm <= 0 ->
  to_double (fst (get_rx_freq_range usrp (setup_world vm w)) + 50e6)
  < to_double (snd (get_rx_freq_range usrp (setup_world vm w)) - 50e6) ->
  UHD_SAFE_MAIN fuel vm {| world := w; log := [] |} <> (Ok z, m').
Proof.
  intros Hmono Hidem Hhelp Hstep Hwide.
  apply main_stuck; auto.
  apply nonpositive_step_stuck; assumption.
Qed.

(** ** The zoom *)

(** X14.  A completed round on a window of positive width, with
    [num_search_steps] at least 2, makes the window narrower on an axis
    exactly when [num_search_steps] is more than 3: the new width is
    two steps of the round.  With 3 steps a round the width stays as
    it is, and with 2 it doubles. *)
Theorem window_shrinks_iff_more_than_3_steps fuel l m l' m' :
  (2 <= num_search_steps < 2 ^ 64)%Z -> wide l ->
  search_round fuel l m = (Ok l', m') ->
  (phase_corr_stop l' - phase_corr_start l'
     < phase_corr_stop l - phase_corr_start l <-> (3 < num_search_steps)%Z) /\
  (ampl_corr_stop l' - ampl_corr_start l'
     < ampl_corr_stop l - ampl_corr_start l <-> (3 < num_search_steps)%Z) /\
  (num_search_steps = 3%Z ->
   phase_corr_stop l' - phase_corr_start l'
     == phase_corr_stop l - phase_corr_start l) /\
  (num_search_steps = 2%Z ->
   phase_corr_stop l' - phase_corr_start l'
     == 2 * (phase_corr_stop l - phase_corr_start l)).
Proof.
  clear to_double to_float.
  intros Hn [Hwp Hwa] Hrun.
  destruct (round_window _ _ _ _ _ Hrun) as (E1 & E2 & E3 & E4 & E5 & E6).
  destruct (steps_divisor_nat Hn) as [Hd _].
  pose proof (steps_divisor_pos Hn) as Hpos.
  assert (Hdz : steps_divisor = inject_Z (num_search_steps - 1)).
  { rewrite Hd, Z2Nat.id by lia. reflexivity. }
  assert (Hshrink : forall wd : Q, 0 < wd ->
            (2 * (wd / steps_divisor) < wd <-> (3 < num_search_steps)%Z) /\
            (num_search_steps = 3%Z -> 2 * (wd / steps_divisor) == wd) /\
            (num_search_steps = 2%Z -> 2 * (wd / steps_divisor) == 2 * wd)).
  { intros wd Hwd.
    assert (Hs : 0 < wd / steps_divisor).
    { apply Qlt_shift_div_l; [exact Hpos|]. lra. }
    assert (Hw : wd == steps_divisor * (wd / steps_divisor)).
    { field. intro H0. rewrite H0 in Hpos. discriminate Hpos. }
    set (s := wd / steps_divisor) in Hs, Hw |- *.
    split; [|split].
    - split.
      + intro Hlt. rewrite Hw in Hlt.
        assert (H2 : 2 < steps_divisor).
        { apply (Qmult_lt_r _ _ s Hs). exact Hlt. }
        rewrite Hdz in H2. change 2 with (inject_Z 2) in H2.
        rewrite <- Zlt_Qlt in H2. lia.
      + intro H3. rewrite Hw.
        apply (Qmult_lt_r _ _ s Hs).
        rewrite Hdz. change 2 with (inject_Z 2).
        rewrite <- Zlt_Qlt. lia.
    - intros H3. rewrite Hw. rewrite Hdz, H3. reflexivity.
    - intros H2. rewrite Hw. rewrite Hdz, H2.
      change (inject_Z (2 - 1)) with 1. ring. }
  assert (Ep : phase_corr_stop l' - phase_corr_start l'
               == 2 * ((phase_corr_stop l - phase_corr_start l) / steps_divisor)).
  { rewrite E3, E4, E1. ring. }
  assert (Ea : ampl_corr_stop l' - ampl_corr_start l'
               == 2 * ((ampl_corr_stop l - ampl_corr_start l) / steps_divisor)).
  { rewrite E5, E6, E2. ring. }
  assert (Hp0 : 0 < phase_corr_stop l - phase_corr_start l) by lra.
  assert (Ha0 : 0 < ampl_corr_stop l - ampl_corr_start l) by lra.
  destruct (Hshrink _ Hp0) as (Hp1 & Hp2 & Hp3).
  destruct (Hshrink _ Ha0) as (Ha1 & _ & _).
  rewrite Ep, Ea. repeat split; tauto.
Qed.

(** X15.  Over any number of completed rounds the best point never
    gets worse and is replaced only by a strictly better probe: the
    best suppression does not decrease; when no probe of these rounds
    measured more than it, the best point with its correction is kept
    as it was; and when it has increased, the best point is a probe of
    these rounds that measured the new value. *)
Theorem best_never_degrades fuel k l m l' m' :
  search_rounds fuel k l m = (Ok l', m') ->
  best_suppression l <= best_suppression l' /\
  (probes_all Qle (best_suppression l) (since m m') ->
   best_of l' = best_of l) /\
  (best_suppression l < best_suppression l' ->
   In (EvProbe (best_phase_corr l') (best_ampl_corr l') (best_correction l')
         (best_suppression l'))
      (since m m')).
Proof.
  intro Hrun.
  destruct (search_rounds_log _ _ _ _ _ _ Hrun) as (_ & _ & Hbest).
  assert (Hs : best_suppression l' = best_sup (fold_left pick (since m m') (best_of l))).
  { rewrite <- Hbest. reflexivity. }
  split; [|split].
  - rewrite Hs. apply (fold_pick_sup_le (since m m') (best_of l)).
  - intro Hall. rewrite Hbest. apply fold_pick_keep. exact Hall.
  - intro Hlt. rewrite Hs in Hlt.
    destruct (fold_pick_first _ (best_of l) Hlt)
      as (before & p & a & c & s & after & Hev & Hfold & _).
    rewrite Hfold in Hbest. unfold best_of in Hbest.
    inversion Hbest; subst. rewrite Hev. apply in_or_app. right. left.
    reflexivity.
Qed.

(** ** The centre of the window *)


Lemma coords_In (p a : double) (evs : list event) :
  In (p, a) (coords evs) <-> exists c s, In (EvProbe p a c s) evs.
Proof.
  unfold coords. rewrite in_flat_map. split.
  - intros (e & Hin & He). destruct e; try contradiction.
    destruct He as [He|[]]. inversion He; subst. eauto.
  - intros (c & s & Hin). exists (EvProbe p a c s). split; [exact Hin|].
    left. reflexivity.
Qed.

Lemma candidates_In (x x0 step : double) (n : nat) :
  In x (candidates x0 step n) <->
  exists i, (i < n)%nat /\ x = nth_candidate x0 step i.
Proof.
  unfold candidates. rewrite in_map_iff. split.
  - intros (i & <- & Hi). apply in_seq in Hi. exists i. split; [lia|reflexivity].
  - intros (i & Hi & ->). exists i. split; [reflexivity|].
    apply in_seq. lia.
Qed.

Lemma full_grid_In (p a : double) n p0 ps a0 als :
  In (p, a) (full_grid n p0 ps a0 als) <->
  exists i j, (i < n)%nat /\ (j < n)%nat /\
              p = nth_candidate p0 ps i /\ a = nth_candidate a0 als j.
Proof.
  unfold full_grid. rewrite in_flat_map. split.
  - intros (x & Hx & Hin). apply in_map_iff in Hin as (y & He & Hy).
    inversion He; subst x y.
    apply candidates_In in Hx as (i & Hi & ->).
    apply candidates_In in Hy as (j & Hj & ->).
    exists i, j. auto.
  - intros (i & j & Hi & Hj & -> & ->).
    exists (nth_candidate p0 ps i). split.
    + apply candidates_In. eauto.
    + apply in_map. apply candidates_In. eauto.
Qed.

(** The point of index [i] on an axis of [d] steps is the middle of
    the axis exactly when [2 * i = d]. *)
Lemma axis_middle (start stop c d : Q) (i : nat) :
  start < stop -> 0 < d -> start + stop == 2 * c ->
  (nth_candidate start ((stop - start) / d) i == c <->
   2 * inject_Z (Z.of_nat i) == d).
Proof.
  intros Hw Hd Hc. rewrite nth_candidate_value.
  set (I := inject_Z (Z.of_nat i)).
  assert (Hd0 : ~ d == 0) by (intro H0; rewrite H0 in Hd; lra).
  assert (E : (start + I * ((stop - start) / d) - c) * (2 * d)
              == (2 * I - d) * (stop - start)).
  { assert (Ec : c == (start + stop) / 2) by (rewrite Hc; field).
    rewrite Ec. field. exact Hd0. }
  split; intro H.
  - assert (Z0 : (2 * I - d) * (stop - start) == 0).
    { rewrite <- E. rewrite H. ring. }
    apply Qmult_integral in Z0 as [Z0|Z0]; lra.
  - assert (Z0 : (start + I * ((stop - start) / d) - c) * (2 * d) == 0).
    { rewrite E. rewrite H. ring. }
    apply Qmult_integral in Z0 as [Z0|Z0]; lra.
Qed.

(** A completed round over a window with the middle [(cp, ca)] probes
    the middle exactly when the number of steps is odd. *)
Lemma round_probes_centre fuel l m l' m' (cp ca : double) :
  (2 <= num_search_steps < 2 ^ 64)%Z -> wide l ->
  search_round fuel l m = (Ok l', m') ->
  phase_corr_start l + phase_corr_stop l == 2 * cp ->
  ampl_corr_start l + ampl_corr_stop l == 2 * ca ->
  (at_point cp ca (since m m') <-> Z.odd num_search_steps = true).
Proof.
  intros Hn Hwide Hrun Hcp Hca.
  destruct (round_grid _ _ _ _ _ Hn Hwide Hrun) as (Hgrid & _).
  cbv zeta in Hgrid.
  destruct (steps_divisor_nat Hn) as [Hd Hnat].
  pose proof (steps_divisor_pos Hn) as Hpos.
  destruct Hwide as [Hwp Hwa].
  assert (Hmid : forall i : nat,
             2 * inject_Z (Z.of_nat i) == steps_divisor <->
             (2 * Z.of_nat i = num_search_steps - 1)%Z).
  { intro i. rewrite Hd, Z2Nat.id by lia.
    change 2 with (inject_Z 2). rewrite <- inject_Z_mult.
    rewrite inject_Z_injective. reflexivity. }
  split.
  - intros (p & a & c & s & Hin & Hp & Ha).
    assert (Hc : In (p, a) (coords (since m m')))
      by (apply coords_In; eauto).
    rewrite Hgrid in Hc. apply full_grid_In in Hc as (i & j & Hi & Hj & Ei & Ej).
    rewrite Ei in Hp.
    apply (axis_middle _ _ _ _ _ Hwp Hpos Hcp) in Hp. apply Hmid in Hp.
    rewrite <- Z.odd_succ_succ.
    replace (Z.succ (Z.succ num_search_steps))
      with (1 + 2 * (Z.of_nat i + 1))%Z by lia.
    rewrite Z.odd_add_mul_2. reflexivity.
  - intro Hodd.
    destruct (Zodd_ex num_search_steps) as (h & Hh).
    { apply Zodd_bool_iff. exact Hodd. }
    set (i := Z.to_nat h).
    assert (Hi : (i < Z.to_nat num_search_steps)%nat) by (unfold i; lia).
    assert (Hm : 2 * inject_Z (Z.of_nat i) == steps_divisor).
    { apply Hmid. unfold i. rewrite Z2Nat.id by lia. lia. }
    assert (Hc : In (nth_candidate (phase_corr_start l)
                       ((phase_corr_stop l - phase_corr_start l) / steps_divisor) i,
                     nth_candidate (ampl_corr_start l)
                       ((ampl_corr_stop l - ampl_corr_start l) / steps_divisor) i)
                    (coords (since m m'))).
    { rewrite Hgrid. apply full_grid_In. exists i, i. auto. }
    apply coords_In in Hc as (c & s & Hin).
    eexists _, _, c, s. split; [exact Hin|]. split.
    + apply (axis_middle _ _ _ _ _ Hwp Hpos Hcp). exact Hm.
    + apply (axis_middle _ _ _ _ _ Hwa Hpos Hca). exact Hm.
Qed.

(** The log of a search after some of its rounds is a prefix of the
    log after more of them. *)
Lemma search_rounds_prefix fuel j k l m lj mj l' m' :
  (j <= k)%nat ->
  search_rounds fuel j l m = (Ok lj, mj) ->
  search_rounds fuel k l m = (Ok l', m') ->
  exists evs, since m m' = (since m mj ++ evs)%list.
Proof.
  intros Hjk Hj. revert l' m'.
  induction k as [|k IH]; intros l' m' Hk.
  - assert (j = O) by lia. subst j. rewrite Hj in Hk. inversion Hk; subst.
    exists []. rewrite app_nil_r. reflexivity.
  - destruct (Nat.eq_dec j (S k)) as [->|Hne].
    + rewrite Hj in Hk. inversion Hk; subst.
      exists []. rewrite app_nil_r. reflexivity.
    + destruct (search_rounds_S _ _ _ _ _ _ Hk) as (lk & mk & Hk' & Hr).
      destruct (IH ltac:(lia) _ _ Hk') as (evs & Hev).
      destruct (search_rounds_log _ _ _ _ _ _ Hk') as (_ & Hlk & _).
      destruct (search_round_probes _ _ _ _ _ Hr) as (_ & Hl').
      exists (evs ++ since mk m')%list.
      rewrite (since_trans _ _ _ Hlk Hl'), Hev, app_assoc. reflexivity.
Qed.

(** When no probe measures more than 0 every round of a search is made
    over a window with the middle (0, 0). *)
Lemma origin_window fuel k l m l' m' :
  search_rounds fuel k (search_decls l) m = (Ok l', m') ->
  probes_all Qle 0 (since m m') ->
  phase_corr_start l' + phase_corr_stop l' == 2 * 0 /\
  ampl_corr_start l' + ampl_corr_stop l' == 2 * 0.
Proof.
  intros Hrun Hall. destruct k as [|k].
  - unfold search_rounds in Hrun. simpl in Hrun. inversion Hrun; subst.
    simpl. split; reflexivity.
  - pose proof (origin_kept _ _ _ _ _ _ Hrun Hall) as Hb.
    unfold best_of, best_init in Hb. injection Hb as _ _ Hp Ha.
    destruct (search_rounds_S _ _ _ _ _ _ Hrun) as (lk & mk & _ & Hround).
    destruct (round_window _ _ _ _ _ Hround) as (_ & _ & H1 & H2 & H3 & H4).
    rewrite H1, H2, H3, H4, Hp, Ha. split; ring.
Qed.

(** C10, as the code has it: the best point starts as suppression 0
    at phase 0 and amplitude 0 with the correction 0+0i; when every
    suppression measured at a frequency is at most 0 the search ends
    with exactly that point, and every round re-centres the window on
    (0, 0).  No probe was made at the correction 0+0i: with at least 3
    steps a round every amplitude scanned is -0.3 or more, and
    [std::polar] of a positive modulus is not 0.  But (0, 0) is a point
    of the grid of every round when [num_search_steps] is odd, and of
    no round when it is even: every window of such a search has its
    middle there. *)
Theorem best_stays_at_origin fuel k l m l' m' :
  search_rounds fuel k (search_decls l) m = (Ok l', m') ->
  probes_all Qle 0 (since m m') ->
  best_of (search_decls l) = (complex_zero, 0, 0, 0) /\
  best_correction l' = complex_zero /\
  best_suppression l' = 0 /\
  best_phase_corr l' = 0 /\
  best_ampl_corr l' = 0 /\
  (k <> O ->
   phase_corr_start l' = 0 - phase_corr_step l' /\
   phase_corr_stop l' = 0 + phase_corr_step l' /\
   ampl_corr_start l' = 0 - ampl_corr_step l' /\
   ampl_corr_stop l' = 0 + ampl_corr_step l') /\
  ((3 <= num_search_steps < 2 ^ 64)%Z ->
   (forall rho theta, 0 < rho -> polar rho theta <> complex_zero) ->
   forall p a c s, In (EvProbe p a c s) (since m m') -> c <> complex_zero) /\
  ((2 <= num_search_steps < 2 ^ 64)%Z ->
   forall j lj mj lj' mj',
     (j < k)%nat ->
     search_rounds fuel j (search_decls l) m = (Ok lj, mj) ->
     search_round fuel lj mj = (Ok lj', mj') ->
     (at_point 0 0 (since mj mj') <-> Z.odd num_search_steps = true)).
Proof.
  intros Hrun Hall.
  pose proof (origin_kept _ _ _ _ _ _ Hrun Hall) as Hb.
  unfold best_of, best_init in Hb. injection Hb as Hc Hs Hp Ha.
  split; [reflexivity|]. repeat (split; [assumption|]). split; [|split].
  - intro Hk. destruct k as [|k]; [contradiction|].
    destruct (search_rounds_S _ _ _ _ _ _ Hrun) as (lk & mk & _ & Hround).
    destruct (round_window _ _ _ _ _ Hround) as (_ & _ & H1 & H2 & H3 & H4).
    rewrite Hp in H1, H2. rewrite Ha in H3, H4. auto.
  - intros Hn Hpolar p a c s Hin.
    destruct (rounds_at_origin _ _ _ _ _ _ Hn Hrun Hall) as (_ & _ & _ & Hfrom).
    destruct (Hfrom _ _ _ _ Hin) as [Hlo ->].
    apply Hpolar. unfold double in *. lra.
  - intros Hn j lj mj lj' mj' Hjk Hj Hround.
    destruct (search_rounds_prefix _ _ _ _ _ _ _ _ _
                (Nat.lt_le_incl _ _ Hjk) Hj Hrun) as (evs & Hev).
    assert (Hallj : probes_all Qle 0 (since m mj)).
    { intros p a c s Hin. apply (Hall p a c s). rewrite Hev.
      apply in_or_app. left. exact Hin. }
    destruct (origin_window _ _ _ _ _ _ Hj Hallj) as [Hcp Hca].
    assert (Hwide : wide (search_decls l)) by (split; reflexivity).
    destruct (search_rounds_count _ _ _ _ _ _ Hn Hwide Hj) as [Hwj _].
    exact (round_probes_centre _ _ _ _ _ 0 0 Hn Hwj Hround Hcp Hca).
Qed.

(** ** The transmit thread of a run *)

(** X16.  A run of [main] that passes the antenna check creates
    exactly one transmit thread, with the amplitude of the options: it
    does so right after the banner, before the first tuning, and never
    again, whatever the outcome of the run. *)
Theorem one_tx_thread_per_run fuel vm w o m' :
  help vm = false -> lacks_cal vm w = false ->
  UHD_SAFE_MAIN fuel vm {| world := w; log := [] |} = (o, m') ->
  exists rest,
    log m' = (preamble vm ++ EvThreadCreated (tx_wave_ampl vm) :: rest)%list /\
    (forall a, ~ In (EvThreadCreated a) rest) /\
    (forall a, ~ In (EvThreadCreated a) (preamble vm)).
Proof.
  intros Hhelp Hcal Hrun.
  destruct (main_run _ _ _ _ _ Hhelp Hrun)
    as [(Hl & _)|(os & ms & _ & Hs & Hos)]; [congruence|].
  cbv zeta in Hs. cbn [world] in Hs.
  assert (Hswept : swept (preamble vm ++ [EvThreadCreated (tx_wave_ampl vm)])
                     ms).
  { pose proof (sweep_events _ _ _ _ _ _ _ _ (swept_refl _) Hs) as H.
    cbn [log] in H. destruct os; exact H. }
  destruct Hswept as (evs & Hms & Hev).
  assert (Hpre : forall a, ~ In (EvThreadCreated a) (preamble vm)).
  { intros a [H|[H|[]]]; discriminate H. }
  assert (Hevs : forall a, ~ In (EvThreadCreated a) evs).
  { intros a Hin. rewrite Forall_forall in Hev. exact (Hev _ Hin). }
  destruct os as [l|e|]; destruct Hos as [_ Hm].
  - destruct Hm as [_ Hl].
    exists (evs ++ epilogue (results l))%list.
    split; [rewrite Hl, Hms, <- !app_assoc; reflexivity|].
    split; [|exact Hpre].
    intros a Hin. apply in_app_or in Hin. destruct Hin as [Hin|Hin].
    + exact (Hevs a Hin).
    + destruct Hin as [H|[H|[H|[H|[]]]]]; discriminate H.
  - subst m'. exists evs.
    split; [rewrite Hms, <- app_assoc; reflexivity|].
    split; [exact Hevs|exact Hpre].
  - subst m'. exists evs.
    split; [rewrite Hms, <- app_assoc; reflexivity|].
    split; [exact Hevs|exact Hpre].
Qed.

End Program.

(** * Runs on the recording device *)

(** ** The journal does not change the run *)

Lemma transparent_ret {W A} (a : A) :
  transparent (W := W) (ret a) (ret a).
Proof. intro m. reflexivity. Qed.

Lemma transparent_throw {W A} (e : exn) :
  transparent (W := W) (A := A) (throw e) (throw e).
Proof. intro m. reflexivity. Qed.

Lemma transparent_out_of_fuel {W A} :
  transparent (W := W) (A := A) out_of_fuel out_of_fuel.
Proof. intro m. reflexivity. Qed.

Lemma transparent_emit {W} (e : event) :
  transparent (W := W) (emit e) (emit e).
Proof. intro m. reflexivity. Qed.

Lemma transparent_call {W} (f1 : W * list devcall -> W * list devcall)
    (f2 : W -> W) :
  (forall wt, fst (f1 wt) = f2 (fst wt)) ->
  transparent (call f1) (call f2).
Proof.
  intros H m. unfold call, forget. cbn [fst snd world log].
  rewrite H. reflexivity.
Qed.

Lemma transparent_get {W A} (f1 : W * list devcall -> A) (f2 : W -> A) :
  (forall wt, f1 wt = f2 (fst wt)) ->
  transparent (get f1) (get f2).
Proof.
  intros H m. unfold get, forget. cbn [fst snd world log].
  rewrite H. reflexivity.
Qed.

Lemma transparent_io {W A} (f1 : W * list devcall -> A * (W * list devcall))
    (f2 : W -> A * W) :
  (forall wt, f2 (fst wt) = (fst (f1 wt), fst (snd (f1 wt)))) ->
  transparent (io f1) (io f2).
Proof.
  intros H m. unfold io, forget. cbn [fst snd world log].
  rewrite H. destruct (f1 (world m)) as [a wt]. reflexivity.
Qed.

Lemma transparent_bind {W A B} (c1 : M (W * list devcall) A) (c2 : M W A)
    (k1 : A -> M (W * list devcall) B) (k2 : A -> M W B) :
  transparent c1 c2 -> (forall a, transparent (k1 a) (k2 a)) ->
  transparent (bind c1 k1) (bind c2 k2).
Proof.
  intros Hc Hk m. unfold bind. rewrite Hc.
  destruct (c1 m) as [[a|e|] m1]; cbn [fst snd]; [apply Hk| |]; reflexivity.
Qed.

Lemma transparent_if {W A} (b : bool) (c1 d1 : M (W * list devcall) A)
    (c2 d2 : M W A) :
  transparent c1 c2 -> transparent d1 d2 ->
  transparent (if b then c1 else d1) (if b then c2 else d2).
Proof. destruct b; auto. Qed.

Lemma transparent_for_double {W A} (cond : A -> double -> bool)
    (incr : A -> double -> double)
    (body1 : double -> A -> M (W * list devcall) A)
    (body2 : double -> A -> M W A) :
  (forall x a, transparent (body1 x a) (body2 x a)) ->
  forall fuel x a,
    transparent (for_double fuel cond incr body1 x a)
                (for_double fuel cond incr body2 x a).
Proof.
  intros Hb. induction fuel as [|fuel IH]; intros x a; simpl.
  - apply transparent_out_of_fuel.
  - apply transparent_if; [|apply transparent_ret].
    apply transparent_bind; [apply Hb|]. intro a'. apply IH.
Qed.

Lemma transparent_for_size_t {W A} (body1 : A -> M (W * list devcall) A)
    (body2 : A -> M W A) :
  (forall a, transparent (body1 a) (body2 a)) ->
  forall n a, transparent (for_size_t n body1 a) (for_size_t n body2 a).
Proof.
  intros Hb. induction n as [|n IH]; intro a; simpl.
  - apply transparent_ret.
  - apply transparent_bind; [apply IH|apply Hb].
Qed.

Create HintDb transparent.

#[local] Hint Resolve transparent_ret transparent_throw
  transparent_out_of_fuel transparent_emit transparent_call transparent_get
  transparent_io transparent_bind transparent_if transparent_for_double
  transparent_for_size_t : transparent.

#[local] Hint Extern 1 (forall wt : _ * list devcall, _ = _) =>
  (intros [? ?]; simpl; first [reflexivity | apply surjective_pairing])
  : transparent.

Section Recorded.

Context {W : Type} (u : multi_usrp W).
Variable polar : double -> double -> complex.
Variable tau : double.
Variable num_search_steps : Z.
Variable num_search_iters : Z.
Variable compute_tone_dbrms : list complex -> double -> double.
Variable to_double : Q -> Q.
Variable to_float : Q -> Q.

Lemma traced_wait_lo_locked fuel start :
  transparent (wait_lo_locked (traced u) fuel start)
              (wait_lo_locked u fuel start).
Proof.
  induction fuel as [|fuel IH]; simpl; [apply transparent_out_of_fuel|].
  unfold lo_unlocked. auto 20 with transparent.
Qed.

Lemma traced_tune_rx_and_tx fuel f offset :
  transparent (tune_rx_and_tx (traced u) fuel f offset)
              (tune_rx_and_tx u fuel f offset).
Proof.
  unfold tune_rx_and_tx.
  pose proof traced_wait_lo_locked.
  repeat (apply transparent_bind; [auto with transparent|intro]).
  auto with transparent.
Qed.

Lemma traced_capture_samples b :
  transparent (capture_samples (traced u) b) (capture_samples u b).
Proof. unfold capture_samples. auto 20 with transparent. Qed.

Lemma traced_search fuel l :
  transparent
    (search (traced u) polar tau num_search_steps num_search_iters
       compute_tone_dbrms fuel l)
    (search u polar tau num_search_steps num_search_iters
       compute_tone_dbrms fuel l).
Proof.
  pose proof traced_capture_samples.
  unfold search, search_rounds, search_round, phase_loop, ampl_loop,
    grid_point.
  auto 30 with transparent.
Qed.

Lemma traced_sweep fuel vm range l :
  transparent
    (sweep (traced u) polar tau num_search_steps num_search_iters
       compute_tone_dbrms to_double fuel vm range l)
    (sweep u polar tau num_search_steps num_search_iters
       compute_tone_dbrms to_double fuel vm range l).
Proof.
  pose proof traced_tune_rx_and_tx. pose proof traced_search.
  unfold sweep, sweep_body. auto 30 with transparent.
Qed.

(** The program on the recording device is the program on the
    device. *)
Lemma traced_main fuel vm :
  transparent
    (UHD_SAFE_MAIN (traced u) polar tau num_search_steps num_search_iters
       compute_tone_dbrms to_double fuel vm)
    (UHD_SAFE_MAIN u polar tau num_search_steps num_search_iters
       compute_tone_dbrms to_double fuel vm).
Proof.
  pose proof traced_sweep.
  unfold UHD_SAFE_MAIN.
  apply transparent_if; [auto with transparent|].
  do 3 (apply transparent_bind; [auto with transparent|intro]).
  apply transparent_bind; [auto with transparent|intro rx].
  apply transparent_bind; [auto with transparent|intro tx].
  apply transparent_if; [auto with transparent|].
  repeat (apply transparent_bind; [auto with transparent|intro]).
  auto with transparent.
Qed.

Lemma traced_tx_loop fuel a md b :
  transparent (tx_loop (traced u) to_float fuel a md b) (tx_loop u to_float fuel a md b).
Proof.
  revert b. induction fuel as [|fuel IH]; intro b; simpl;
    [apply transparent_out_of_fuel|].
  apply transparent_bind; [auto with transparent|intro stop].
  apply transparent_if; [auto with transparent|].
  repeat (apply transparent_bind; [auto with transparent|intro]).
  apply IH.
Qed.

Lemma traced_tx_thread fuel a :
  transparent (tx_thread (traced u) to_float fuel a) (tx_thread u to_float fuel a).
Proof.
  pose proof traced_tx_loop.
  unfold tx_thread.
  repeat (apply transparent_bind; [auto with transparent|intro]).
  auto with transparent.
Qed.

(** ** The calls of the tuning routine *)

Lemma lo_unlocked_journal (m : machine (W * list devcall)) :
  exists b m' polls,
    lo_unlocked (traced u) m = (Ok b, m') /\
    journal m' = (journal m ++ polls)%list /\
    log m' = log m /\
    (if b then failed_poll polls else polls = locked_poll).
Proof.
  destruct m as [[w t] L].
  unfold lo_unlocked, bind, io, ret, journal, failed_poll, locked_poll.
  cbn [world log fst snd traced get_tx_sensor get_rx_sensor].
  destruct (fst (get_tx_sensor u "lo_locked" w)) eqn:Etx; cbn [negb].
  - cbn [world log fst snd].
    destruct (fst (get_rx_sensor u "lo_locked"
                     (snd (get_tx_sensor u "lo_locked" w)))) eqn:Erx;
      cbn [negb]; eexists _, _, _; (split; [reflexivity|]);
      cbn [world log snd]; rewrite <- app_assoc;
      (split; [reflexivity|]); (split; [reflexivity|]); auto.
  - eexists _, _, _. split; [reflexivity|]. cbn [world log snd].
    split; [reflexivity|]. split; [reflexivity|]. auto.
Qed.

Lemma lo_poll_unlocked b polls d :
  (if (b : bool) then failed_poll polls else polls = locked_poll) ->
  Forall lo_poll polls /\ Forall (clock_within d) polls.
Proof.
  destruct b; [intros [->| ->]|intros ->]; split;
    repeat constructor.
Qed.

(** The calls of the wait for the lock and how it ends. *)
Lemma wait_lo_locked_journal fuel start :
  forall (m : machine (W * list devcall)) o m',
    wait_lo_locked (traced u) fuel start m = (o, m') ->
    exists polls,
      journal m' = (journal m ++ polls)%list /\
      log m' = log m /\
      Forall lo_poll polls /\
      match o with
      | Ok _ =>
          Forall (clock_within (start + milliseconds 100)) polls /\
          exists before, polls = (before ++ locked_poll)%list
      | Throw e =>
          e = lo_timeout /\
          exists before failed now,
            polls = (before ++ failed ++ [CallGetSystemTime now])%list /\
            failed_poll failed /\
            (now > start + milliseconds 100)%Z /\
            Forall (clock_within (start + milliseconds 100)) before
      | OutOfFuel => True
      end.
Proof.
  induction fuel as [|fuel IH]; intros m o m' Hrun; simpl in Hrun.
  - inversion Hrun; subst. exists []. rewrite app_nil_r.
    repeat split; constructor.
  - destruct (lo_unlocked_journal m) as (b & m1 & polls & Hlo & Hj & Hl & Hb).
    unfold bind at 1 in Hrun. rewrite Hlo in Hrun.
    destruct (lo_poll_unlocked b polls (start + milliseconds 100) Hb)
      as [Hp Hc].
    destruct b.
    + unfold bind at 1, io at 1 in Hrun.
      destruct m1 as [[w1 t1] L1]. unfold journal in Hj.
      cbn [world log fst snd traced get_system_time] in Hrun, Hj, Hl.
      set (now := fst (get_system_time u w1)) in *.
      destruct (now >? start + milliseconds 100)%Z eqn:Enow.
      * inversion Hrun; subst o m'. unfold journal. cbn [world log snd].
        exists (polls ++ [CallGetSystemTime now])%list.
        rewrite Hj, <- app_assoc.
        split; [reflexivity|]. split; [exact Hl|].
        split; [apply Forall_app; split; [exact Hp|repeat constructor]|].
        split; [reflexivity|]. exists [], polls, now.
        split; [reflexivity|]. split; [exact Hb|].
        split; [|constructor].
        apply Z.gtb_lt in Enow. lia.
      * destruct (IH _ _ _ Hrun) as (rest & Hj' & Hl' & Hp' & Hend).
        unfold journal in Hj'. cbn [world log snd] in Hj', Hl'.
        assert (Hnow : clock_within (start + milliseconds 100)
                         (CallGetSystemTime now)).
        { unfold clock_within.
          destruct (Z.gtb_spec now (start + milliseconds 100));
            [discriminate|lia]. }
        exists (polls ++ CallGetSystemTime now :: rest)%list.
        split; [unfold journal; rewrite Hj', Hj, <- !app_assoc; reflexivity|].
        split; [congruence|].
        split; [apply Forall_app; split; [exact Hp|];
                constructor; [exact I|exact Hp']|].
        destruct o as [r|e|]; [| |exact I].
        -- destruct Hend as (Hc' & before & ->).
           split; [apply Forall_app; split; [exact Hc|];
                   constructor; [exact Hnow|exact Hc']|].
           exists (polls ++ CallGetSystemTime now :: before)%list.
           rewrite <- app_assoc. reflexivity.
        -- destruct Hend as (-> & before & failed & now' & -> & Hf & Hlate & Hc').
           split; [reflexivity|].
           exists (polls ++ CallGetSystemTime now :: before)%list, failed, now'.
           split; [rewrite <- app_assoc; reflexivity|].
           split; [exact Hf|]. split; [exact Hlate|].
           apply Forall_app; split; [exact Hc|].
           constructor; [exact Hnow|exact Hc'].
    + inversion Hrun; subst o m'.
      exists polls. split; [exact Hj|]. split; [exact Hl|].
      split; [exact Hp|]. split; [exact Hc|].
      exists []. exact Hb.
Qed.

(** The calls of [tune_rx_and_tx] and how it ends. *)
Lemma tune_rx_and_tx_journal fuel f offset
    (m : machine (W * list devcall)) o m' :
  tune_rx_and_tx (traced u) fuel f offset m = (o, m') ->
  exists start polls,
    journal m' =
      (journal m ++
       [CallSetRxFreq {| target_freq := f;
                         dsp_freq_policy := POLICY_MANUAL; dsp_freq := 0 |};
        CallSetTxFreq
          {| target_freq :=
               get_rx_freq u
                 (set_rx_freq u
                    {| target_freq := f;
                       dsp_freq_policy := POLICY_MANUAL; dsp_freq := 0 |}
                    (fst (world m))) - offset;
             dsp_freq_policy := POLICY_MANUAL; dsp_freq := 0 |};
        CallSleep (milliseconds 50);
        CallGetSystemTime start] ++ polls)%list /\
    log m' = (log m ++ [EvTune f])%list /\
    Forall lo_poll polls /\
    match o with
    | Ok rx_lo =>
        rx_lo = get_rx_freq u (fst (world m')) /\
        Forall (clock_within (start + milliseconds 100)) polls /\
        exists before, polls = (before ++ locked_poll)%list
    | Throw e =>
        e = lo_timeout /\
        exists before failed now,
          polls = (before ++ failed ++ [CallGetSystemTime now])%list /\
          failed_poll failed /\
          (now > start + milliseconds 100)%Z /\
          Forall (clock_within (start + milliseconds 100)) before
    | OutOfFuel => True
    end.
Proof.
  destruct m as [[w t] L].
  unfold tune_rx_and_tx.
  unfold bind at 1, emit at 1. unfold bind at 1, call at 1.
  unfold bind at 1, get at 1. unfold bind at 1, call at 1.
  unfold bind at 1, call at 1. unfold bind at 1, io at 1.
  cbn [world log fst snd traced set_rx_freq get_rx_freq set_tx_freq sleep
         get_system_time].
  unfold bind at 1.
  match goal with
  | |- context [wait_lo_locked (traced u) fuel ?s ?m1] =>
      destruct (wait_lo_locked (traced u) fuel s m1) as [o1 m2] eqn:Ew;
      destruct (wait_lo_locked_journal _ _ _ _ _ Ew)
        as (polls & Hj & Hl & Hp & Hend);
      intro Hrun; exists s, polls
  end.
  unfold journal in *. cbn [world log snd] in Hj, Hl.
  destruct o1 as [r|e|]; inversion Hrun; subst; clear Hrun;
    cbn [world log snd fst traced get_rx_freq];
    (split; [rewrite Hj, <- !app_assoc; reflexivity|]);
    (split; [exact Hl|]);
    (split; [exact Hp|]).
  - split; [reflexivity|exact Hend].
  - exact Hend.
  - exact I.
Qed.

(** X17.  Whatever its outcome, [tune_rx_and_tx] tunes each LO once,
    the RX first: the RX to the requested frequency, the TX to the
    frequency that the device reports for the RX after that, less the
    offset, both with the manual DSP policy and a DSP frequency of 0.
    Then it sleeps 50 ms and reads the clock, and from then on it only
    polls the two [lo_locked] sensors and reads the clock: it never
    tunes again while it waits. *)
Theorem tune_tunes_once_then_polls fuel f offset
    (m : machine (W * list devcall)) o m' :
  tune_rx_and_tx (traced u) fuel f offset m = (o, m') ->
  exists start polls,
    journal m' =
      (journal m ++
       [CallSetRxFreq {| target_freq := f;
                         dsp_freq_policy := POLICY_MANUAL; dsp_freq := 0 |};
        CallSetTxFreq
          {| target_freq :=
               get_rx_freq u
                 (set_rx_freq u
                    {| target_freq := f;
                       dsp_freq_policy := POLICY_MANUAL; dsp_freq := 0 |}
                    (fst (world m))) - offset;
             dsp_freq_policy := POLICY_MANUAL; dsp_freq := 0 |};
        CallSleep (milliseconds 50);
        CallGetSystemTime start] ++ polls)%list /\
    Forall lo_poll polls.
Proof.
  intro Hrun.
  destruct (tune_rx_and_tx_journal _ _ _ _ _ _ Hrun)
    as (start & polls & Hj & _ & Hp & _).
  exists start, polls. split; assumption.
Qed.

(** X18.  How the wait for the lock ends, [start] being the clock
    read after the sleep and the deadline 100 ms later.
    [tune_rx_and_tx] returns only after a poll in which the TX sensor
    and then the RX sensor reported lock, no clock reading before it
    having passed the deadline, and it returns the frequency that the
    device reports then.  It throws only the timeout exception, and
    only right after a clock reading past the deadline that follows a
    poll without lock; in such a poll the RX sensor is read only when
    the TX sensor reported lock. *)
Theorem tune_returns_locked_or_times_out fuel f offset
    (m : machine (W * list devcall)) o m' :
  tune_rx_and_tx (traced u) fuel f offset m = (o, m') ->
  exists head start polls,
    journal m' =
      (journal m ++ head ++ CallGetSystemTime start :: polls)%list /\
    List.length head = 3%nat /\
    match o with
    | Ok rx_lo =>
        rx_lo = get_rx_freq u (fst (world m')) /\
        Forall (clock_within (start + milliseconds 100)) polls /\
        exists before, polls = (before ++ locked_poll)%list
    | Throw e =>
        e = lo_timeout /\
        exists before failed now,
          polls = (before ++ failed ++ [CallGetSystemTime now])%list /\
          failed_poll failed /\
          (now > start + milliseconds 100)%Z /\
          Forall (clock_within (start + milliseconds 100)) before
    | OutOfFuel => True
    end.
Proof.
  intro Hrun.
  destruct (tune_rx_and_tx_journal _ _ _ _ _ _ Hrun)
    as (start & polls & Hj & _ & _ & Hend).
  eexists [_; _; _], start, polls.
  split; [exact Hj|]. split; [reflexivity|]. exact Hend.
Qed.

(** ** The calls of a capture and of a grid point *)

Lemma capture_samples_journal b (m : machine (W * list devcall)) o m' :
  capture_samples (traced u) b m = (o, m') ->
  exists md,
    journal m' =
      (journal m ++
       [CallIssueStreamCmd
          {| stream_mode := STREAM_MODE_NUM_SAMPS_AND_DONE;
             num_samps := List.length b; stream_now := true |};
        CallRecv (List.length b) md])%list /\
    log m' = log m /\
    forall b', o = Ok b' -> List.length b' = List.length b.
Proof.
  intro Hrun.
  exists (fst (capture_recv (traced u) b (world m))).
  assert (Hm' : m' = {| world := snd (capture_recv (traced u) b (world m));
                        log := log m |} /\
                forall b', o = Ok b' -> List.length b' = List.length b).
  { destruct (capture_samples_cases (traced u) b m)
      as [(_ & H)|[(_ & _ & H)|(_ & Hn & H)]];
      rewrite H in Hrun; inversion Hrun; subst; (split; [reflexivity|]);
      intros b' Hb; inversion Hb; subst. exact Hn. }
  destruct Hm' as [-> Hlen].
  destruct m as [[w t] L]. unfold journal, capture_recv.
  cbn [world log fst snd traced recv issue_stream_cmd].
  rewrite <- app_assoc. repeat split. exact Hlen.
Qed.

Lemma grid_point_journal p a l (m : machine (W * list devcall)) o m' :
  grid_point (traced u) polar tau compute_tone_dbrms p a l m = (o, m') ->
  exists md,
    journal m' =
      (journal m ++
       [CallSetRxIqBalance (polar (a + 1) (p * tau));
        CallIssueStreamCmd
          {| stream_mode := STREAM_MODE_NUM_SAMPS_AND_DONE;
             num_samps := List.length (buff l); stream_now := true |};
        CallRecv (List.length (buff l)) md])%list /\
    match o with
    | Ok l' =>
        List.length (buff l') = List.length (buff l) /\
        exists s,
          log m' = (log m ++ [EvProbe p a (polar (a + 1) (p * tau)) s])%list
    | _ => log m' = log m
    end.
Proof.
  destruct m as [[w t] L].
  unfold grid_point. unfold bind at 1, call at 1.
  cbn [world log fst snd traced set_rx_iq_balance].
  unfold bind at 1.
  match goal with
  | |- context [capture_samples (traced u) (buff l) ?m1] =>
      destruct (capture_samples (traced u) (buff l) m1) as [o1 m2] eqn:Ec;
      destruct (capture_samples_journal _ _ _ _ Ec) as (md & Hj & Hl & Hlen)
  end.
  unfold journal in *. cbn [world log snd] in Hj, Hl.
  intro Hrun. exists md.
  destruct o1 as [b'|e|]; inversion Hrun; subst; clear Hrun;
    cbn [world log snd];
    (split; [rewrite Hj, <- app_assoc; reflexivity|]); try reflexivity.
  split.
  - destruct (Qgtb _ _); cbn [buff with_best with_buff]; apply Hlen;
      reflexivity.
  - eexists. reflexivity.
Qed.

(** ** The calls of a run of [main] *)

Lemma iq_calls_app (a b : list devcall) :
  iq_calls (a ++ b) = (iq_calls a ++ iq_calls b)%list.
Proof. unfold iq_calls. apply flat_map_app. Qed.

Lemma corrections_app (a b : list event) :
  corrections (a ++ b) = (corrections a ++ corrections b)%list.
Proof. unfold corrections. apply flat_map_app. Qed.

Lemma lo_poll_calls vm polls :
  Forall lo_poll polls ->
  Forall (main_call vm) polls /\ iq_calls polls = [].
Proof.
  induction 1 as [|c polls Hc _ [IH1 IH2]]; [split; [constructor|reflexivity]|].
  destruct c; try contradiction; (split; [constructor; assumption|exact IH2]).
Qed.

Lemma tune_rx_and_tx_in_step vm fuel f offset :
  hoare (in_step vm) (tune_rx_and_tx (traced u) fuel f offset)
        (fun _ => in_step vm) (well_called vm).
Proof.
  intros m o m' [Hw Hiq] Hrun.
  destruct (tune_rx_and_tx_journal _ _ _ _ _ _ Hrun)
    as (start & polls & Hj & Hl & Hp & _).
  destruct (lo_poll_calls vm _ Hp) as [Hpc Hpi].
  assert (Hw' : well_called vm m').
  { unfold well_called. rewrite Hj. apply Forall_app. split; [exact Hw|].
    apply Forall_app. split; [|exact Hpc].
    repeat constructor. }
  assert (Hs : in_step vm m').
  { split; [exact Hw'|].
    rewrite Hj, Hl, !iq_calls_app, corrections_app, Hpi, Hiq.
    reflexivity. }
  destruct o; assumption.
Qed.

Lemma grid_point_in_step vm p a l :
  hoare (search_inv vm l)
        (grid_point (traced u) polar tau compute_tone_dbrms p a l)
        (search_inv vm) (well_called vm).
Proof.
  intros m o m' (Hlen & Hw & Hiq) Hrun.
  destruct (grid_point_journal _ _ _ _ _ _ Hrun) as (md & Hj & Hend).
  assert (Hw' : well_called vm m').
  { unfold well_called. rewrite Hj. apply Forall_app. split; [exact Hw|].
    rewrite Hlen. repeat constructor. }
  destruct o as [l'|e|]; try exact Hw'.
  destruct Hend as (Hlen' & s & Hl).
  split; [congruence|]. split; [exact Hw'|].
  rewrite Hj, Hl, iq_calls_app, corrections_app, Hiq. reflexivity.
Qed.

Lemma search_in_step vm fuel l :
  hoare (search_inv vm l)
        (search (traced u) polar tau num_search_steps num_search_iters
           compute_tone_dbrms fuel l)
        (search_inv vm) (well_called vm).
Proof.
  assert (Herr : forall a (m : machine (W * list devcall)),
             search_inv vm a m -> well_called vm m)
    by (intros a m (_ & H & _); exact H).
  unfold search, search_rounds.
  apply (hoare_conseq (search_inv vm l) (search_inv vm (search_decls l))
           _ (search_inv vm) (search_inv vm) (well_called vm) (well_called vm));
    auto.
  apply (hoare_for_size_t (search_inv vm) (well_called vm)).
  intro a. unfold search_round.
  apply (hoare_bind _ _ _ (search_inv vm)).
  - apply (hoare_conseq (search_inv vm a) (search_inv vm (set_steps num_search_steps a))
             _ (search_inv vm) (search_inv vm) (well_called vm)
             (well_called vm)); auto.
    unfold phase_loop.
    apply (hoare_for_double (search_inv vm) (well_called vm)); [exact Herr|].
    intros x a1. unfold ampl_loop.
    apply (hoare_for_double (search_inv vm) (well_called vm)); [exact Herr|].
    intros y a2. apply grid_point_in_step.
  - intro l1. apply hoare_ret. auto.
Qed.

Lemma sweep_in_step vm fuel range l :
  hoare (search_inv vm l)
        (sweep (traced u) polar tau num_search_steps num_search_iters
           compute_tone_dbrms to_double fuel vm range l)
        (search_inv vm) (well_called vm).
Proof.
  assert (Herr : forall a (m : machine (W * list devcall)),
             search_inv vm a m -> well_called vm m)
    by (intros a m (_ & H & _); exact H).
  unfold sweep.
  apply (hoare_for_double (search_inv vm) (well_called vm)); [exact Herr|].
  intros x a. unfold sweep_body.
  apply (hoare_bind _ _ _ (fun _ => search_inv vm a)).
  - intros m o m' (Hlen & Hs) Hrun.
    pose proof (tune_rx_and_tx_in_step vm _ _ _ m o m' Hs Hrun) as H.
    destruct o; [split; assumption|exact H|exact H].
  - intro rx_lo.
    apply (hoare_bind _ _ _ (search_inv vm)); [apply search_in_step|].
    intro l1.
    apply (hoare_bind _ _ _
             (fun _ => search_inv vm (keep_result rx_lo l1))).
    + assert (Hk : forall m : machine (W * list devcall),
                 search_inv vm l1 m -> search_inv vm (keep_result rx_lo l1) m).
      { intros m (Hlen & Hs). split; [|exact Hs].
        unfold keep_result. destruct (Qgtb _ _); exact Hlen. }
      destruct (verbose vm); apply hoare_emit;
        intros m Hm; destruct (Hk m Hm) as (Hlen & Hw & Hiq);
        (split; [exact Hlen|]); (split; [exact Hw|]);
        unfold journal in *; cbn [world log];
        rewrite corrections_app, app_nil_r; exact Hiq.
    + intros _. apply hoare_ret. auto.
Qed.

(** The calls of a run of [main], and the corrections applied when it
    returns. *)
Lemma main_recorded fuel vm w o m' :
  UHD_SAFE_MAIN (traced u) polar tau num_search_steps num_search_iters
    compute_tone_dbrms to_double fuel vm {| world := (w, []); log := [] |} = (o, m') ->
  well_called vm m' /\
  (forall z, o = Ok z -> iq_calls (journal m') = corrections (log m')).
Proof.
  intro Hrun.
  destruct (help vm) eqn:Hhelp.
  { unfold UHD_SAFE_MAIN in Hrun. rewrite Hhelp in Hrun.
    inversion Hrun; subst. split; [constructor|reflexivity]. }
  destruct (lacks_cal (traced u) vm (w, [])) eqn:Hcal.
  { rewrite (main_no_cal_run (traced u) polar tau num_search_steps
               num_search_iters compute_tone_dbrms to_double fuel vm _ Hhelp Hcal)
      in Hrun.
    inversion Hrun; subst. split; [|discriminate].
    unfold well_called, journal. cbn [world snd traced make].
    repeat constructor. }
  destruct (main_run _ _ _ _ _ _ _ _ _ _ _ _ Hhelp Hrun)
    as [(Hl & _)|(os & ms & _ & Hs & Hos)]; [congruence|].
  cbv zeta in Hs. cbn [world] in Hs.
  assert (H0 : search_inv vm (main_decls vm)
                 {| world := setup_world (traced u) vm (w, []);
                    log := (preamble vm ++
                            [EvThreadCreated (tx_wave_ampl vm)])%list |}).
  { split; [apply repeat_length|]. split.
    - unfold well_called, journal, setup_world.
      cbn [world snd fst traced make set_rx_antenna set_tx_antenna set_rx_rate
             set_tx_rate set_tx_gain set_rx_gain get_rx_stream app].
      repeat constructor.
    - reflexivity. }
  pose proof (sweep_in_step vm _ _ _ _ _ _ H0 Hs) as Hend.
  destruct os as [l|e|]; destruct Hos as [-> Hm].
  - destruct Hm as [Hw Hl]. destruct Hend as (_ & Hwc & Hiq).
    unfold well_called, journal in *. rewrite Hw.
    split; [exact Hwc|]. intros z _.
    rewrite Hl, corrections_app, app_nil_r. exact Hiq.
  - subst m'. split; [exact Hend|discriminate].
  - subst m'. split; [exact Hend|discriminate].
Qed.

(** X19.  Every call that a run of [main] made on the device, whatever
    the outcome of the run, is well formed for its options: the
    antennas selected are "CAL", the rates and gains are those of the
    options, every tune request has the manual DSP policy and a DSP
    frequency of 0, every stream command asks for exactly [nsamps]
    samples at once and then done, every [recv] is for [nsamps]
    samples (the buffer is never resized), the sensors polled are the
    [lo_locked] ones, every sleep is of 50 ms; and [main] itself never
    sends and never touches the transmit streamer. *)
Theorem main_calls_are_well_formed fuel vm w o m' :
  UHD_SAFE_MAIN (traced u) polar tau num_search_steps num_search_iters
    compute_tone_dbrms to_double fuel vm {| world := (w, []); log := [] |} = (o, m') ->
  Forall (main_call vm) (journal m').
Proof.
  intro Hrun. exact (proj1 (main_recorded _ _ _ _ _ Hrun)).
Qed.

(** X20.  In a run of [main] that returns, the corrections handed to
    [set_rx_iq_balance] are exactly the corrections of the probes, in
    the order of the probes: one call a grid point and no other.  So
    the best correction found is never applied again after the search:
    the device is left with the correction of the last grid point
    probed. *)
Theorem corrections_applied_are_those_probed fuel vm w z m' :
  UHD_SAFE_MAIN (traced u) polar tau num_search_steps num_search_iters
    compute_tone_dbrms to_double fuel vm {| world := (w, []); log := [] |}
    = (Ok z, m') ->
  iq_calls (journal m') = corrections (log m') /\
  (forall c, last (iq_calls (journal m')) c = last (corrections (log m')) c).
Proof.
  intro Hrun.
  pose proof (proj2 (main_recorded _ _ _ _ _ Hrun) z eq_refl) as H.
  split; [exact H|]. intro c. rewrite H. reflexivity.
Qed.

(** ** The calls of the transmit thread *)

Lemma map_const_repeat {A B} (c : B) (l : list A) :
  map (fun _ => c) l = repeat c (List.length l).
Proof. induction l as [|x l IH]; simpl; [reflexivity|]. f_equal. exact IH. Qed.

Lemma tx_loop_journal fuel a md n :
  forall b (m : machine (W * list devcall)) o m',
    List.length b = n ->
    tx_loop (traced u) to_float fuel a md b m = (o, m') ->
    (forall e, o <> Throw e) /\
    exists k,
      journal m' =
        (journal m ++ tx_turns k (repeat (to_float a, 0) n) md ++
         match o with
         | Ok _ => [CallInterruptionRequested true]
         | _ => []
         end)%list /\
      log m' = (log m ++ repeat (EvSend n md) k)%list.
Proof.
  induction fuel as [|fuel IH]; intros b m o m' Hb Hrun; simpl in Hrun.
  - inversion Hrun; subst. split; [discriminate|].
    exists O. unfold tx_turns. simpl. rewrite !app_nil_r. split; reflexivity.
  - destruct m as [[w t] L].
    unfold bind at 1, io at 1 in Hrun.
    cbn [world log fst snd traced interruption_requested] in Hrun.
    destruct (fst (interruption_requested u w)) eqn:Estop.
    + inversion Hrun; subst o m'. split; [discriminate|].
      exists O. unfold journal, tx_turns. cbn [world log snd repeat List.concat app].
      rewrite app_nil_r. split; reflexivity.
    + unfold bind at 1, call at 1 in Hrun.
      unfold bind at 1, emit at 1 in Hrun.
      cbn [world log fst snd traced send] in Hrun.
      rewrite map_const_repeat, Hb, repeat_length in Hrun.
      destruct (IH _ _ _ _ (repeat_length _ _) Hrun) as (Hno & k & Hj & Hl).
      split; [exact Hno|]. exists (S k).
      unfold journal in *. cbn [world log snd] in Hj, Hl.
      split.
      * rewrite Hj. unfold tx_turns. cbn [repeat List.concat].
        rewrite <- !app_assoc. reflexivity.
      * rewrite Hl. cbn [repeat]. rewrite <- app_assoc. reflexivity.
Qed.

(** X21.  The transmit thread raises no exception of its own.  It
    sets its priority and makes the "fc32" transmit streamer once; then
    it reads the interruption flag before every send, and as long as
    the flag is not set it sends one buffer of ten times
    [get_max_num_samps] samples, every sample being the amplitude
    narrowed to a float, [float(tx_wave_ampl)], with a zero imaginary
    part, without a time spec and without the end-of-burst mark.  When it returns, it has read the
    flag as set once, last, and then sent exactly one packet of no
    samples that carries the end-of-burst mark; if the flag is set from
    the start this is the only packet. *)
Theorem tx_thread_sends_constant_then_eob fuel a
    (m : machine (W * list devcall)) o m' :
  tx_thread (traced u) to_float fuel a m = (o, m') ->
  let n := (get_max_num_samps u
              (get_tx_stream u "fc32"
                 (set_thread_priority_safe u (fst (world m)))) * 10)%nat in
  let md := {| has_time_spec := false; end_of_burst := false |} in
  let eob := {| has_time_spec := false; end_of_burst := true |} in
  (forall e, o <> Throw e) /\
  exists k,
    journal m' =
      (journal m ++ [CallSetThreadPrioritySafe; CallGetTxStream "fc32"] ++
       tx_turns k (repeat (to_float a, 0) n) md ++
       match o with
       | Ok _ => [CallInterruptionRequested true; CallSend [] eob]
       | _ => []
       end)%list /\
    log m' =
      (log m ++ repeat (EvSend n md) k ++
       match o with
       | Ok _ => [EvSend 0 eob]
       | _ => []
       end)%list.
Proof.
  cbv zeta. destruct m as [[w t] L].
  unfold tx_thread.
  unfold bind at 1, call at 1. unfold bind at 1, call at 1.
  unfold bind at 1, get at 1.
  cbn [world log fst snd traced set_thread_priority_safe get_tx_stream
         get_max_num_samps].
  unfold bind at 1.
  match goal with
  | |- context [tx_loop (traced u) to_float fuel a ?md ?b ?m1] =>
      destruct (tx_loop (traced u) to_float fuel a md b m1) as [o1 m2] eqn:El;
      destruct (tx_loop_journal _ _ _ _ _ _ _ _ (repeat_length _ _) El)
        as (Hno & k & Hj & Hl)
  end.
  unfold journal in *. cbn [world log snd] in Hj, Hl.
  intro Hrun.
  destruct o1 as [b'|e|]; [| exfalso; exact (Hno e eq_refl) |].
  - unfold bind, call, emit in Hrun. cbn [world log fst snd traced send] in Hrun.
    inversion Hrun; subst o m'. split; [discriminate|].
    exists k. cbn [world log snd]. rewrite Hj, Hl, <- !app_assoc.
    split; reflexivity.
  - inversion Hrun; subst o m'. split; [discriminate|].
    exists k. rewrite Hj, Hl, <- !app_assoc, !app_nil_r.
    split; reflexivity.
Qed.

End Recorded.

(** * The theorems on the simulated device *)

(** ** The roundings of the simulated device

    [round_nearest_even] keeps the order and leaves the numbers it
    produces as they are. *)

Lemma Qfloor_bounds (x : Q) : inject_Z (Qfloor x) <= x < inject_Z (Qfloor x) + 1.
Proof.
  split; [apply Qfloor_le|].
  pose proof (Qlt_floor x) as H. rewrite inject_Z_plus in H. exact H.
Qed.

Lemma round_half_even_bounds (x : Q) :
  (Qfloor x <= round_half_even x <= Qfloor x + 1)%Z.
Proof.
  unfold round_half_even. cbv zeta.
  destruct (Qcompare _ _); [destruct (Z.even _)| |]; lia.
Qed.

Lemma round_half_even_monotone (x y : Q) :
  x <= y -> (round_half_even x <= round_half_even y)%Z.
Proof.
  intro Hxy.
  pose proof (Qfloor_resp_le _ _ Hxy) as Hf.
  destruct (Z.eq_dec (Qfloor x) (Qfloor y)) as [E|N].
  - unfold round_half_even. cbv zeta. rewrite <- E.
    destruct (Qcompare (x - inject_Z (Qfloor x)) (1 # 2)) eqn:Cx;
      destruct (Qcompare (y - inject_Z (Qfloor x)) (1 # 2)) eqn:Cy;
      try (destruct (Z.even (Qfloor x))); try lia; exfalso;
      repeat match goal with
             | H : Qcompare _ _ = Eq |- _ => apply Qeq_alt in H
             | H : Qcompare _ _ = Lt |- _ => apply Qlt_alt in H
             | H : Qcompare _ _ = Gt |- _ => apply Qgt_alt in H
             end;
      lra.
  - pose proof (round_half_even_bounds x). pose proof (round_half_even_bounds y).
    lia.
Qed.

Lemma round_half_even_int (k : Z) : round_half_even (inject_Z k) = k.
Proof.
  unfold round_half_even. cbv zeta. rewrite Qfloor_Z.
  assert (H : Qcompare (inject_Z k - inject_Z k) (1 # 2) = Lt).
  { apply Qlt_alt. 
    assert (E : inject_Z k - inject_Z k == 0) by ring.
    rewrite E. reflexivity. }
  rewrite H. reflexivity.
Qed.

Lemma pow2_pos (e : Z) : 0 < 2 ^ e.
Proof. apply Qpower_0_lt. reflexivity. Qed.

Lemma pow2_succ (e : Z) : 2 ^ (e + 1) == 2 * 2 ^ e.
Proof. rewrite Qpower_plus by discriminate. simpl. ring. Qed.

Lemma pow2_log2 (n : Z) :
  (0 < n)%Z -> 2 ^ Z.log2 n <= inject_Z n < 2 ^ (Z.log2 n + 1).
Proof.
  intro Hn. destruct (Z.log2_spec n Hn) as [H1 H2].
  pose proof (Z.log2_nonneg n) as H0.
  change 2 with (inject_Z 2).
  rewrite <- !Zpower_Qpower by lia.
  rewrite <- Zle_Qle, <- Zlt_Qlt. unfold Z.succ in H2. split; assumption.
Qed.

Lemma binade_unique (x : Q) (e e' : Z) : binade x e -> binade x e' -> e = e'.
Proof.
  intros [H1 H2] [H1' H2'].
  assert (A : (e < e' + 1)%Z).
  { apply (Qpower_lt_compat_l_inv 2); [|reflexivity].
    eapply Qle_lt_trans; eauto. }
  assert (B : (e' < e + 1)%Z).
  { apply (Qpower_lt_compat_l_inv 2); [|reflexivity].
    eapply Qle_lt_trans; eauto. }
  lia.
Qed.

Lemma exponent_binade (x : Q) : 0 < x -> binade x (exponent x).
Proof.
  intro Hx. destruct x as [n d].
  assert (Hn : (0 < n)%Z).
  { unfold Qlt in Hx. simpl in Hx. lia. }
  unfold exponent. cbn [Qnum Qden].
  set (a := Z.log2 n). set (b := Z.log2 (Z.pos d)).
  pose proof (pow2_log2 n Hn) as [Ha1 Ha2]. fold a in Ha1, Ha2.
  pose proof (pow2_log2 (Z.pos d) eq_refl) as [Hb1 Hb2]. fold b in Hb1, Hb2.
  assert (Hd : 0 < inject_Z (Z.pos d)) by reflexivity.
  assert (Hq : n # d == inject_Z n / inject_Z (Z.pos d)) by apply Qmake_Qdiv.
  pose proof (pow2_pos a) as Pa. pose proof (pow2_pos b) as Pb.
  pose proof (pow2_pos (a - b)) as Pab.
  assert (Eab : 2 ^ a == 2 ^ (a - b) * 2 ^ b).
  { rewrite <- Qpower_plus by discriminate. replace (a - b + b)%Z with a by lia.
    reflexivity. }
  assert (X : (n # d) * inject_Z (Z.pos d) == inject_Z n).
  { rewrite Hq. field. intro H0. rewrite H0 in Hd. lra. }
  unfold binade.
  destruct (Qle_bool (2 ^ (a - b)) (n # d)) eqn:E.
  - apply Qle_bool_iff in E. split; [exact E|].
    rewrite pow2_succ.
    (* n/d < 2^(a+1)/2^b *)
    rewrite pow2_succ in Ha2, Hb2.
    set (P := 2 ^ (a - b)) in *. set (A := 2 ^ a) in *. set (B := 2 ^ b) in *.
    set (q := n # d) in *. set (D := inject_Z (Z.pos d)) in *.
    set (N := inject_Z n) in *.
    apply Qnot_le_lt. intro C.
    assert (2 * P * B <= q * D) by (clear - C Hb1 Pb Pab Hd; nra).
    nra.
  - assert (E' : n # d < 2 ^ (a - b)).
    { apply Qnot_le_lt. intro C. apply Qle_bool_iff in C. congruence. }
    replace (a - b - 1 + 1)%Z with (a - b)%Z by lia.
    split; [|exact E'].
    assert (Es : 2 ^ (a - b) == 2 * 2 ^ (a - b - 1)).
    { rewrite <- pow2_succ. replace (a - b - 1 + 1)%Z with (a - b)%Z by lia.
      reflexivity. }
    pose proof (pow2_pos (a - b - 1)) as Pm.
    rewrite pow2_succ in Ha2, Hb2.
    set (P := 2 ^ (a - b)) in *. set (A := 2 ^ a) in *. set (B := 2 ^ b) in *.
    set (q := n # d) in *. set (D := inject_Z (Z.pos d)) in *.
    set (N := inject_Z n) in *. set (R := 2 ^ (a - b - 1)) in *.
    apply Qnot_lt_le. intro C.
    assert (q * D < R * (2 * B)) by (clear - C Hb2 Pb Pm Hd Hx; nra).
    nra.
Qed.

Lemma exponent_unique (x : Q) (e : Z) : binade x e -> exponent x = e.
Proof.
  intro H. apply (binade_unique x); [|exact H].
  apply exponent_binade. destruct H as [H _].
  eapply Qlt_le_trans; [apply (pow2_pos e)|exact H].
Qed.

Lemma exponent_le (x y : Q) : 0 < x -> x <= y -> (exponent x <= exponent y)%Z.
Proof.
  intros Hx Hxy.
  destruct (exponent_binade x Hx) as [H1 _].
  destruct (exponent_binade y) as [_ H2]; [lra|].
  assert (A : (exponent x < exponent y + 1)%Z).
  { apply (Qpower_lt_compat_l_inv 2); [|reflexivity]. lra. }
  lia.
Qed.

Section Rounding.

Variable prec : Z.
Hypothesis prec_pos : (1 <= prec)%Z.

(** The significand of a number of the binade [e]. *)
Lemma significand_range (x : Q) (e : Z) :
  binade x e ->
  (2 ^ (prec - 1) <= round_half_even (x / 2 ^ (e - (prec - 1))) <= 2 ^ prec)%Z.
Proof using Type prec_pos.
  intros [H1 H2].
  set (s := (e - (prec - 1))%Z).
  pose proof (pow2_pos s) as Ps.
  assert (Ps0 : ~ 2 ^ s == 0) by (intro H0; rewrite H0 in Ps; lra).
  assert (E1 : 2 ^ e == inject_Z (2 ^ (prec - 1)) * 2 ^ s).
  { rewrite Zpower_Qpower by lia. change (inject_Z 2) with 2.
    rewrite <- Qpower_plus by discriminate.
    replace (prec - 1 + s)%Z with e by (unfold s; lia). reflexivity. }
  assert (E2 : 2 ^ (e + 1) == inject_Z (2 ^ prec) * 2 ^ s).
  { rewrite Zpower_Qpower by lia. change (inject_Z 2) with 2.
    rewrite <- Qpower_plus by discriminate.
    replace (prec + s)%Z with (e + 1)%Z by (unfold s; lia). reflexivity. }
  split.
  - rewrite <- (round_half_even_int (2 ^ (prec - 1))) at 1.
    apply round_half_even_monotone.
    apply Qle_shift_div_l; [exact Ps|]. rewrite <- E1. exact H1.
  - rewrite <- (round_half_even_int (2 ^ prec)) at 1.
    apply round_half_even_monotone.
    apply Qle_shift_div_r; [exact Ps|]. rewrite <- E2. apply Qlt_le_weak. exact H2.
Qed.

Lemma round_positive_range (x : Q) :
  0 < x ->
  2 ^ exponent x <= round_positive prec x <= 2 ^ (exponent x + 1).
Proof using Type prec_pos.
  intro Hx. pose proof (exponent_binade x Hx) as Hb.
  pose proof (significand_range x _ Hb) as [M1 M2].
  unfold round_positive. cbv zeta.
  set (e := exponent x) in *. set (s := (e - (prec - 1))%Z) in *.
  set (m := round_half_even (x / 2 ^ s)) in *.
  pose proof (pow2_pos s) as Ps.
  assert (E1 : 2 ^ e == inject_Z (2 ^ (prec - 1)) * 2 ^ s).
  { rewrite Zpower_Qpower by lia. change (inject_Z 2) with 2.
    rewrite <- Qpower_plus by discriminate.
    replace (prec - 1 + s)%Z with e by (unfold s; lia). reflexivity. }
  assert (E2 : 2 ^ (e + 1) == inject_Z (2 ^ prec) * 2 ^ s).
  { rewrite Zpower_Qpower by lia. change (inject_Z 2) with 2.
    rewrite <- Qpower_plus by discriminate.
    replace (prec + s)%Z with (e + 1)%Z by (unfold s; lia). reflexivity. }
  rewrite E1, E2. rewrite Zle_Qle in M1, M2.
  split; apply Qmult_le_compat_r; auto; apply Qlt_le_weak; exact Ps.
Qed.

Lemma round_positive_monotone (x y : Q) :
  0 < x -> x <= y -> round_positive prec x <= round_positive prec y.
Proof using Type prec_pos.
  intros Hx Hxy. assert (Hy : 0 < y) by lra.
  pose proof (exponent_le x y Hx Hxy) as He.
  destruct (Z.eq_dec (exponent x) (exponent y)) as [E|N].
  - unfold round_positive. cbv zeta. rewrite E.
    set (s := (exponent y - (prec - 1))%Z).
    pose proof (pow2_pos s) as Ps.
    apply Qmult_le_compat_r; [|apply Qlt_le_weak; exact Ps].
    rewrite <- Zle_Qle. apply round_half_even_monotone.
    unfold Qdiv. apply Qmult_le_compat_r; [exact Hxy|].
    apply Qlt_le_weak, Qinv_lt_0_compat. exact Ps.
  - destruct (round_positive_range x Hx) as [_ Ux].
    destruct (round_positive_range y Hy) as [Ly _].
    eapply Qle_trans; [exact Ux|]. eapply Qle_trans; [|exact Ly].
    apply Qpower_le_compat_l; [lia|discriminate].
Qed.

Lemma round_positive_pos (x : Q) : 0 < x -> 0 < round_positive prec x.
Proof using Type prec_pos.
  intro Hx. destruct (round_positive_range x Hx) as [L _].
  eapply Qlt_le_trans; [apply (pow2_pos (exponent x))|exact L].
Qed.

Lemma round_positive_comp (x y : Q) :
  0 < x -> x == y -> round_positive prec x == round_positive prec y.
Proof using Type prec_pos.
  intros Hx E. apply Qle_antisym; apply round_positive_monotone; lra.
Qed.

Lemma Qnum_pos (x : Q) : 0 < x <-> exists p, Qnum x = Z.pos p.
Proof.
  destruct x as [n d]. unfold Qlt. simpl. split.
  - intro H. destruct n; try lia. eauto.
  - intros [p ->]. lia.
Qed.

Lemma Qnum_neg (x : Q) : x < 0 <-> exists p, Qnum x = Z.neg p.
Proof.
  destruct x as [n d]. unfold Qlt. simpl. split.
  - intro H. destruct n; try lia. eauto.
  - intros [p ->]. lia.
Qed.

Lemma Qnum_zero (x : Q) : x == 0 <-> Qnum x = 0%Z.
Proof.
  destruct x as [n d]. unfold Qeq. simpl. lia.
Qed.

Lemma round_nearest_even_pos (x : Q) :
  0 < x -> round_nearest_even prec x == round_positive prec x.
Proof.
  intro Hx. apply Qnum_pos in Hx as [p Hp].
  unfold round_nearest_even. rewrite Hp. apply Qred_correct.
Qed.

Lemma round_nearest_even_neg (x : Q) :
  x < 0 -> round_nearest_even prec x == - round_positive prec (- x).
Proof.
  intro Hx. apply Qnum_neg in Hx as [p Hp].
  unfold round_nearest_even. rewrite Hp. apply Qred_correct.
Qed.

Lemma round_nearest_even_zero (x : Q) :
  x == 0 -> round_nearest_even prec x == 0.
Proof.
  intro Hx. apply Qnum_zero in Hx.
  unfold round_nearest_even. rewrite Hx. reflexivity.
Qed.

Lemma round_nearest_even_monotone : monotone (round_nearest_even prec).
Proof using Type prec_pos.
  intros x y Hxy.
  destruct (Q_dec x 0) as [[Hx|Hx]|Hx]; destruct (Q_dec y 0) as [[Hy|Hy]|Hy];
    try (exfalso; lra).
  - rewrite (round_nearest_even_neg x Hx), (round_nearest_even_neg y Hy).
    assert (H : round_positive prec (- y) <= round_positive prec (- x))
      by (apply round_positive_monotone; lra).
    lra.
  - rewrite (round_nearest_even_neg x Hx), (round_nearest_even_pos y Hy).
    pose proof (round_positive_pos (- x)). pose proof (round_positive_pos y).
    lra.
  - rewrite (round_nearest_even_neg x Hx), (round_nearest_even_zero y Hy).
    pose proof (round_positive_pos (- x)). lra.
  - rewrite (round_nearest_even_pos x Hx), (round_nearest_even_pos y Hy).
    apply round_positive_monotone; assumption.
  - rewrite (round_nearest_even_zero x Hx), (round_nearest_even_pos y Hy).
    pose proof (round_positive_pos y). lra.
  - rewrite (round_nearest_even_zero x Hx), (round_nearest_even_zero y Hy).
    lra.
Qed.

Lemma round_positive_idempotent (x : Q) :
  0 < x -> round_positive prec (round_positive prec x) == round_positive prec x.
Proof using Type prec_pos.
  intro Hx. pose proof (exponent_binade x Hx) as Hb.
  pose proof (significand_range x _ Hb) as [M1 M2].
  pose proof (round_positive_pos x Hx) as Hr.
  unfold round_positive at 2 3. unfold round_positive in Hr. cbv zeta in *.
  set (e := exponent x) in *. set (s := (e - (prec - 1))%Z) in *.
  set (m := round_half_even (x / 2 ^ s)) in *.
  pose proof (pow2_pos s) as Ps.
  assert (Ps0 : ~ 2 ^ s == 0) by (intro H0; rewrite H0 in Ps; lra).
  assert (E1 : 2 ^ e == inject_Z (2 ^ (prec - 1)) * 2 ^ s).
  { rewrite Zpower_Qpower by lia. change (inject_Z 2) with 2.
    rewrite <- Qpower_plus by discriminate.
    replace (prec - 1 + s)%Z with e by (unfold s; lia). reflexivity. }
  assert (E2 : 2 ^ (e + 1) == inject_Z (2 ^ prec) * 2 ^ s).
  { rewrite Zpower_Qpower by lia. change (inject_Z 2) with 2.
    rewrite <- Qpower_plus by discriminate.
    replace (prec + s)%Z with (e + 1)%Z by (unfold s; lia). reflexivity. }
  destruct (Z.eq_dec m (2 ^ prec)) as [Em|Nm].
  - (* the significand overflowed into the next binade *)
    assert (Hv : inject_Z m * 2 ^ s == 2 ^ (e + 1)) by (rewrite Em, E2; reflexivity).
    assert (Hbin : binade (inject_Z m * 2 ^ s) (e + 1)).
    { unfold binade. rewrite Hv. split; [apply Qle_refl|].
      apply Qpower_lt_compat_l; [lia|reflexivity]. }
    unfold round_positive. cbv zeta. rewrite (exponent_unique _ _ Hbin).
    replace (e + 1 - (prec - 1))%Z with (s + 1)%Z by (unfold s; lia).
    assert (Hd : inject_Z m * 2 ^ s / 2 ^ (s + 1) == inject_Z (2 ^ (prec - 1))).
    { rewrite Em, pow2_succ.
      replace prec with (prec - 1 + 1)%Z at 1 by lia.
      rewrite Z.pow_add_r by lia. rewrite inject_Z_mult.
      change (inject_Z (2 ^ 1)) with 2. field. exact Ps0. }
    assert (Hm : round_half_even (inject_Z m * 2 ^ s / 2 ^ (s + 1)) = (2 ^ (prec - 1))%Z).
    { apply Z.le_antisymm.
      - rewrite <- (round_half_even_int (2 ^ (prec - 1))) at 1.
        apply round_half_even_monotone. rewrite Hd. apply Qle_refl.
      - rewrite <- (round_half_even_int (2 ^ (prec - 1))) at 1.
        apply round_half_even_monotone. rewrite Hd. apply Qle_refl. }
    rewrite Hm, Em, pow2_succ.
    replace prec with (prec - 1 + 1)%Z at 2 by lia.
    rewrite Z.pow_add_r by lia. rewrite inject_Z_mult.
    change (inject_Z (2 ^ 1)) with 2. ring.
  - assert (Hbin : binade (inject_Z m * 2 ^ s) e).
    { unfold binade. rewrite E1, E2. split.
      - apply Qmult_le_compat_r; [|apply Qlt_le_weak; exact Ps].
        rewrite <- Zle_Qle. exact M1.
      - apply Qmult_lt_compat_r; [exact Ps|].
        rewrite <- Zlt_Qlt. lia. }
    unfold round_positive. cbv zeta. rewrite (exponent_unique _ _ Hbin).
    fold s.
    assert (Hd : inject_Z m * 2 ^ s / 2 ^ s == inject_Z m) by (field; exact Ps0).
    assert (Hm : round_half_even (inject_Z m * 2 ^ s / 2 ^ s) = m).
    { apply Z.le_antisymm.
      - rewrite <- (round_half_even_int m) at 2.
        apply round_half_even_monotone. rewrite Hd. apply Qle_refl.
      - rewrite <- (round_half_even_int m) at 1.
        apply round_half_even_monotone. rewrite Hd. apply Qle_refl. }
    rewrite Hm. reflexivity.
Qed.

Lemma round_nearest_even_idempotent : idempotent (round_nearest_even prec).
Proof using Type prec_pos.
  intro x.
  destruct (Q_dec x 0) as [[Hx|Hx]|Hx].
  - pose proof (round_nearest_even_neg x Hx) as E.
    assert (Hp : 0 < round_positive prec (- x)) by (apply round_positive_pos; lra).
    assert (Hn : round_nearest_even prec x < 0) by lra.
    rewrite (round_nearest_even_neg _ Hn).
    assert (E' : - round_nearest_even prec x == round_positive prec (- x)) by lra.
    assert (Hpos : 0 < - round_nearest_even prec x) by lra.
    rewrite (round_positive_comp _ _ Hpos E').
    rewrite round_positive_idempotent by lra. lra.
  - pose proof (round_nearest_even_pos x Hx) as E.
    assert (Hp : 0 < round_positive prec x) by (apply round_positive_pos; lra).
    assert (Hn : 0 < round_nearest_even prec x) by lra.
    rewrite (round_nearest_even_pos _ Hn).
    rewrite (round_positive_comp _ _ Hn E).
    rewrite round_positive_idempotent by lra. lra.
  - pose proof (round_nearest_even_zero x Hx) as E.
    rewrite (round_nearest_even_zero _ E). lra.
Qed.

End Rounding.

Lemma sim_double_monotone : monotone sim_double.
Proof. apply round_nearest_even_monotone. discriminate. Qed.

Lemma sim_double_idempotent : idempotent sim_double.
Proof. apply round_nearest_even_idempotent. discriminate. Qed.

(** ** The claims *)

Lemma probes_allb_sound (R : double -> double -> Prop) (f : double -> bool)
    (s : double) (evs : list event) :
  (forall x, f x = true -> R x s) ->
  probes_allb f evs = true -> probes_all R s evs.
Proof.
  intros Hf Hall p a c s' Hin. unfold probes_allb in Hall.
  rewrite forallb_forall in Hall. apply Hf. exact (Hall _ Hin).
Qed.

Lemma probed_at_iff (p a : double) (evs : list event) :
  probed_at p a evs = true <-> at_point p a evs.
Proof.
  unfold probed_at, at_point. rewrite existsb_exists. split.
  - intros (e & Hin & He). destruct e; try discriminate.
    apply andb_true_iff in He as [Hp Ha].
    apply Qeq_bool_iff in Hp. apply Qeq_bool_iff in Ha. eauto 8.
  - intros (p' & a' & c & s & Hin & Hp & Ha).
    exists (EvProbe p' a' c s). split; [exact Hin|].
    apply andb_true_iff. split; apply Qeq_bool_iff; assumption.
Qed.



(** The width after two rounds on the simulated device: 0.6 times
    (2/4)^2. *)
Lemma window_width_after_rounds_witness :
  (2 <= 5 < 2 ^ 64)%Z /\
  exists l' m',
    search_rounds sim_usrp polar_rat sim_tau 5 tone_bowl sim_fuel 2
      (search_decls (main_decls sim_options)) (sim_machine sim_range_wide 0) = (Ok l', m') /\
    phase_corr_stop l' - phase_corr_start l' ==
      (phase_corr_stop (search_decls (main_decls sim_options)) -
       phase_corr_start (search_decls (main_decls sim_options))) *
      (2 / inject_Z (5 - 1)) ^ Z.of_nat 2.
Proof.
  assert (Hn : (2 <= 5 < 2 ^ 64)%Z) by (split; [discriminate|reflexivity]).
  split; [exact Hn|].
  evaluate (search_rounds sim_usrp polar_rat sim_tau 5 tone_bowl sim_fuel 2
      (search_decls (main_decls sim_options)) (sim_machine sim_range_wide 0)) E.
  match type of E with _ = (Ok ?l, ?m) => exists l, m end.
  split; [exact E|].
  exact (proj1 (window_width_after_rounds sim_usrp polar_rat sim_tau 5
                  tone_bowl _ _ _ _ _ _ Hn E)).
Defined.

(** C2 refuted as stated: after one round on a grid of 5 steps the
    phase window is 0.3 wide, not the initial 0.6 divided by 4. *)
Lemma window_width_counterexample :
  exists l' m',
    search_rounds sim_usrp polar_rat sim_tau 5 tone_bowl sim_fuel 1
      (search_decls (main_decls sim_options)) (sim_machine sim_range_wide 0) = (Ok l', m') /\
    ~ (phase_corr_stop l' - phase_corr_start l' ==
       (phase_corr_stop (search_decls (main_decls sim_options)) -
        phase_corr_start (search_decls (main_decls sim_options))) /
       inject_Z (5 - 1)).
Proof.
  evaluate (search_rounds sim_usrp polar_rat sim_tau 5 tone_bowl sim_fuel 1
      (search_decls (main_decls sim_options)) (sim_machine sim_range_wide 0)) E.
  match type of E with _ = (Ok ?l, ?m) => exists l, m end.
  split; [exact E|].
  vm_compute. intro H. discriminate H.
Qed.

(** The search on an estimator that makes every suppression 40. *)
Lemma ties_keep_first_probe_witness :
  exists l' m',
    search sim_usrp polar_rat sim_tau 5 2 (tone_const 40) sim_fuel
      (main_decls sim_options) (sim_machine sim_range_wide 0) = (Ok l', m') /\
    0 < best_suppression l' /\
    (0 < 40 /\ (0 < 2)%Z /\
     probes_all Qeq 40 (since (sim_machine sim_range_wide 0) m')) /\
    exists s rest,
      since (sim_machine sim_range_wide 0) m' =
        (EvProbe (-0.3) (-0.3) (polar_rat (-0.3 + 1) (-0.3 * sim_tau)) s
         :: rest)%list /\
      best_of l' = (polar_rat (-0.3 + 1) (-0.3 * sim_tau), s, -0.3, -0.3).
Proof.
  evaluate (search sim_usrp polar_rat sim_tau 5 2 (tone_const 40) sim_fuel
      (main_decls sim_options) (sim_machine sim_range_wide 0)) E.
  match type of E with _ = (Ok ?l, ?m) => exists l, m end.
  split; [exact E|].
  split; [vm_compute; reflexivity|].
  assert (Hall : probes_all Qeq 40
                   (since (sim_machine sim_range_wide 0)
                      (snd (search sim_usrp polar_rat sim_tau 5 2 (tone_const 40) sim_fuel
      (main_decls sim_options) (sim_machine sim_range_wide 0))))).
  { apply (probes_allb_sound Qeq (fun x => Qeq_bool x 40)).
    - intros x Hx. apply Qeq_bool_iff. exact Hx.
    - vm_compute. reflexivity. }
  rewrite E in Hall. cbn [snd] in Hall.
  split; [split; [reflexivity|split; [reflexivity|exact Hall]]|].
  exact (proj2 (ties_keep_first_probe sim_usrp polar_rat sim_tau 5 2
                  (tone_const 40) _ _ _ _ _ E)
           40 eq_refl eq_refl Hall).
Defined.

(** C3 refuted as stated: when every probe measures the same
    suppression 0, the correction returned is 0+0i, not the correction
    of the first point scanned. *)
Lemma constant_measure_counterexample :
  exists l' m',
    search sim_usrp polar_rat sim_tau 5 2 tone_flat sim_fuel
      (main_decls sim_options) (sim_machine sim_range_wide 0) = (Ok l', m') /\
    probes_all Qeq 0 (since (sim_machine sim_range_wide 0) m') /\
    exists p a c s rest,
      since (sim_machine sim_range_wide 0) m' =
        (EvProbe p a c s :: rest)%list /\
      best_correction l' <> c.
Proof.
  evaluate (search sim_usrp polar_rat sim_tau 5 2 tone_flat sim_fuel
      (main_decls sim_options) (sim_machine sim_range_wide 0)) E.
  match type of E with _ = (Ok ?l, ?m) => exists l, m end.
  split; [exact E|]. split.
  - apply (probes_allb_sound Qeq (fun x => Qeq_bool x 0)).
    + intros x Hx. apply Qeq_bool_iff. exact Hx.
    + vm_compute. reflexivity.
  - match goal with
    | |- exists p a c s rest, ?e = _ /\ _ =>
        let v := eval vm_compute in e in
        match v with
        | (EvProbe ?p ?a ?c ?s :: ?rest)%list => exists p, a, c, s, rest
        end
    end.
    split; [vm_compute; reflexivity|].
    vm_compute. intro H. discriminate H.
Qed.

(** The row accepted at 150 MHz on the simulated device. *)
Lemma accepted_entry_is_maximum_witness :
  exists l' m' r,
    sweep_body sim_usrp polar_rat sim_tau 5 2 tone_bowl sim_fuel sim_options
      150e6 (main_decls sim_options) (sim_machine sim_range_wide 0) = (Ok l', m') /\
    results l' = (results (main_decls sim_options) ++ [r])%list /\
    probes_all Qle (sup r) (since (sim_machine sim_range_wide 0) m') /\
    exists p a,
      In (EvProbe p a (real_corr r, imag_corr r) (sup r))
         (since (sim_machine sim_range_wide 0) m').
Proof.
  evaluate (sweep_body sim_usrp polar_rat sim_tau 5 2 tone_bowl sim_fuel sim_options
      150e6 (main_decls sim_options) (sim_machine sim_range_wide 0)) E.
  match type of E with
  | _ = (Ok ?l, ?m) =>
      let t := eval vm_compute in (results l) in
      match t with
      | [?r] =>
          exists l, m, r; split; [exact E|];
          assert (Hr : results l = (results (main_decls sim_options) ++ [r])%list)
            by (vm_compute; reflexivity)
      end
  end.
  split; [exact Hr|].
  exact (accepted_entry_is_maximum sim_usrp polar_rat sim_tau 5 2 tone_bowl
           _ _ _ _ _ _ _ _ E Hr).
Defined.

(** The sweep over [100e6, 220e6], where 150e6 and 160e6 are tuned to,
    over [50e6, 2.2e9] with the ninth part of 2.05 GHz as the step,
    where the rounded additions make it tune ten times although nine
    exact steps reach the bound, and over [100e6, 200e6], where nothing
    is tuned to. *)
Lemma sweep_visits_candidates_witness :
  (exists l' m',
      sweep sim_usrp polar_rat sim_tau 5 2 tone_bowl sim_double sim_fuel sim_options
        sim_range_wide (main_decls sim_options) (sim_machine sim_range_wide 0)
        = (Ok l', m') /\
      tuned (since (sim_machine sim_range_wide 0) m') = [150e6; 160e6] /\
      exists n,
        tuned (since (sim_machine sim_range_wide 0) m') =
          sweep_candidates sim_double sim_options sim_range_wide n /\
        (forall k, (k < n)%nat ->
           sweep_candidate sim_double sim_options sim_range_wide k
             < sim_double (snd sim_range_wide - 50e6)) /\
        sim_double (snd sim_range_wide - 50e6) <=
          sweep_candidate sim_double sim_options sim_range_wide n) /\
  (exists l' m',
      sweep sim_usrp polar_rat sim_tau 5 1 (tone_const 40) sim_double 11
        ninth_options sim_range_long (main_decls ninth_options)
        (sim_machine sim_range_long 0) = (Ok l', m') /\
      List.length (tuned (since (sim_machine sim_range_long 0) m')) = 10%nat /\
      sim_double (snd sim_range_long - 50e6)
        <= fst sim_range_long + 50e6 + 9 * freq_step ninth_options /\
      exists n,
        tuned (since (sim_machine sim_range_long 0) m') =
          sweep_candidates sim_double ninth_options sim_range_long n) /\
  (monotone sim_double /\
   sweep_candidate sim_double sim_options sim_range_wide 2 == 170e6) /\
  (200e6 - 100e6 <= 100e6 /\
   sweep sim_usrp polar_rat sim_tau 5 2 tone_bowl sim_double 1 sim_options
     (100e6, 200e6) (main_decls sim_options) (sim_machine (100e6, 200e6) 0)
     = (Ok (main_decls sim_options), sim_machine (100e6, 200e6) 0)).
Proof.
  split; [|split; [|split]].
  - evaluate (sweep sim_usrp polar_rat sim_tau 5 2 tone_bowl sim_double sim_fuel
                sim_options sim_range_wide (main_decls sim_options)
                (sim_machine sim_range_wide 0)) E.
    match type of E with _ = (Ok ?l, ?m) => exists l, m end.
    split; [exact E|]. split; [vm_compute; reflexivity|].
    exact (proj1 (sweep_visits_candidates sim_usrp polar_rat sim_tau 5 2
                    tone_bowl sim_double sim_options sim_range_wide
                    (main_decls sim_options) (sim_machine sim_range_wide 0))
             _ _ _ E).
  - evaluate (sweep sim_usrp polar_rat sim_tau 5 1 (tone_const 40) sim_double 11
                ninth_options sim_range_long (main_decls ninth_options)
                (sim_machine sim_range_long 0)) E.
    match type of E with _ = (Ok ?l, ?m) => exists l, m end.
    split; [exact E|]. split; [vm_compute; reflexivity|].
    split; [vm_compute; discriminate|].
    destruct (proj1 (sweep_visits_candidates sim_usrp polar_rat sim_tau 5 1
                       (tone_const 40) sim_double ninth_options sim_range_long
                       (main_decls ninth_options) (sim_machine sim_range_long 0))
                _ _ _ E) as (n & Hn & _).
    exists n. exact Hn.
  - split; [exact sim_double_monotone|].
    assert (H : sweep_candidate sim_double sim_options sim_range_wide 2
                == fst sim_range_wide + 50e6
                   + inject_Z (Z.of_nat 2) * freq_step sim_options).
    { apply (proj1 (proj2 (proj2 (sweep_visits_candidates sim_usrp polar_rat
                sim_tau 5 2 tone_bowl sim_double sim_options sim_range_wide
                (main_decls sim_options) (sim_machine sim_range_wide 0))))
               sim_double_monotone).
      intros k Hk.
      destruct k as [|[|[|k]]]; [vm_compute; reflexivity ..|lia]. }
    rewrite H. vm_compute. reflexivity.
  - assert (Hn : snd (100e6, 200e6) - fst (100e6, 200e6) <= 100e6)
      by discriminate.
    split; [exact Hn|].
    exact (proj2 (proj2 (proj2 (sweep_visits_candidates sim_usrp polar_rat
                           sim_tau 5 2 tone_bowl sim_double sim_options
                           (100e6, 200e6) (main_decls sim_options)
                           (sim_machine (100e6, 200e6) 0))))
             sim_double_monotone Hn O).
Defined.

(** C5 refuted as stated: over the range [100e6, 200e6] with the step
    10e6 the program completes without tuning at all; 150e6 is not
    visited. *)
Lemma sweep_100_200_counterexample :
  fst (UHD_SAFE_MAIN sim_usrp polar_rat sim_tau 5 2 tone_bowl sim_double sim_fuel sim_options
      {| world := sim_world (100e6, 200e6) 0; log := [] |}) = Ok 0%Z /\
  tuned (log (snd (UHD_SAFE_MAIN sim_usrp polar_rat sim_tau 5 2 tone_bowl sim_double sim_fuel sim_options
      {| world := sim_world (100e6, 200e6) 0; log := [] |}))) = [] /\
  tuned (log (snd (UHD_SAFE_MAIN sim_usrp polar_rat sim_tau 5 2 tone_bowl sim_double sim_fuel sim_options
      {| world := sim_world (100e6, 200e6) 0; log := [] |}))) <> [150e6].
Proof.
  split; [vm_compute; reflexivity|].
  split; [vm_compute; reflexivity|].
  vm_compute. intro H. discriminate H.
Qed.

(** The sweep body at 150 MHz, where the search ends above 30. *)
Lemma entry_appended_iff_above_30_witness :
  exists rx_lo m1 l1 m2,
    tune_rx_and_tx sim_usrp sim_fuel 150e6 (tx_offset sim_options)
      (sim_machine sim_range_wide 0) = (Ok rx_lo, m1) /\
    search sim_usrp polar_rat sim_tau 5 2 tone_bowl sim_fuel
      (main_decls sim_options) m1 = (Ok l1, m2) /\
    30 < best_suppression l1 /\
    exists l' m',
      sweep_body sim_usrp polar_rat sim_tau 5 2 tone_bowl sim_fuel sim_options
      150e6 (main_decls sim_options) (sim_machine sim_range_wide 0) = (Ok l', m') /\
      ((30 < best_suppression l1 /\
        results l' =
          (results (main_decls sim_options) ++
           [ {| freq := rx_lo;
                real_corr := real (best_correction l1);
                imag_corr := imag (best_correction l1);
                sup := best_suppression l1 |} ])%list) \/
       (best_suppression l1 <= 30 /\
        results l' = results (main_decls sim_options))).
Proof.
  evaluate (tune_rx_and_tx sim_usrp sim_fuel 150e6 (tx_offset sim_options)
              (sim_machine sim_range_wide 0)) Et.
  match type of Et with
  | _ = (Ok ?f, ?m1) =>
      evaluate (search sim_usrp polar_rat sim_tau 5 2 tone_bowl sim_fuel
                  (main_decls sim_options) m1) Es;
      match type of Es with
      | _ = (Ok ?l1, ?m2) => exists f, m1, l1, m2
      end
  end.
  split; [exact Et|]. split; [exact Es|].
  split; [vm_compute; reflexivity|].
  exact (entry_appended_iff_above_30 sim_usrp polar_rat sim_tau 5 2 tone_bowl
           _ _ _ _ _ _ _ _ _ Et Es).
Defined.

(** A capture on a device that delivers 3 of the 4 samples requested. *)
Lemma capture_samples_raises_iff_witness :
  exists md w',
    recv sim_usrp 4
      (issue_stream_cmd sim_usrp
         {| stream_mode := STREAM_MODE_NUM_SAMPS_AND_DONE;
            num_samps := 4; stream_now := true |}
         (sim_set_missing 1 (sim_world sim_range_wide 0))) = (md, w') /\
    (List.length (rx_samps md) <= 4)%nat /\
    (List.length (rx_samps md) < 4)%nat /\
    exists e,
      fst (capture_samples sim_usrp (repeat complex_zero 4)
             {| world := sim_set_missing 1 (sim_world sim_range_wide 0);
                log := [] |}) = Throw e.
Proof.
  eexists _, _. split; [reflexivity|].
  assert (Hle : (3 <= 4)%nat) by (repeat constructor).
  split; [exact Hle|]. split; [exact (le_n 4)|].
  apply (proj1 (capture_samples_raises_iff sim_usrp (repeat complex_zero 4)
                  {| world := sim_set_missing 1 (sim_world sim_range_wide 0);
                     log := [] |} _ _ eq_refl Hle)).
  right. exact (le_n 4).
Defined.

(** The stand-in for [std::polar] is not 0 at a positive modulus. *)
Lemma polar_rat_nonzero (rho theta : Q) :
  0 < rho -> polar_rat rho theta <> complex_zero.
Proof.
  intros Hrho H. unfold polar_rat, complex_zero in H. cbv zeta in H.
  set (t := theta / 2) in *.
  pose proof (f_equal fst H) as Hx. pose proof (f_equal snd H) as Hy.
  cbn [fst snd] in Hx, Hy. clear H.
  assert (Hden : 0 < 1 + t * t) by nra.
  assert (Hden0 : ~ 1 + t * t == 0) by (intro H0; rewrite H0 in Hden; lra).
  assert (X : rho * ((1 - t * t) / (1 + t * t)) == 0)
    by (rewrite <- Qred_correct, Hx; reflexivity).
  assert (Y : rho * (2 * t / (1 + t * t)) == 0)
    by (rewrite <- Qred_correct, Hy; reflexivity).
  apply Qmult_integral in X as [X|X]; [lra|].
  apply Qmult_integral in Y as [Y|Y]; [lra|].
  assert (X' : 1 - t * t == (1 - t * t) / (1 + t * t) * (1 + t * t))
    by (field; exact Hden0).
  assert (Y' : 2 * t == 2 * t / (1 + t * t) * (1 + t * t))
    by (field; exact Hden0).
  rewrite X in X'. rewrite Y in Y'. nra.
Qed.

(** Two rounds on an estimator that makes every suppression 0, with
    5 steps a round: the first round probes (0, 0). *)
Lemma best_stays_at_origin_witness :
  exists l' m',
    search_rounds sim_usrp polar_rat sim_tau 5 tone_flat sim_fuel 2
      (search_decls (main_decls sim_options)) (sim_machine sim_range_wide 0)
      = (Ok l', m') /\
    probes_all Qle 0 (since (sim_machine sim_range_wide 0) m') /\
    best_correction l' = complex_zero /\
    best_suppression l' = 0 /\
    phase_corr_start l' = 0 - phase_corr_step l' /\
    phase_corr_stop l' = 0 + phase_corr_step l' /\
    (forall p a c s,
       In (EvProbe p a c s) (since (sim_machine sim_range_wide 0) m') ->
       c <> complex_zero) /\
    exists l1 m1,
      search_round sim_usrp polar_rat sim_tau 5 tone_flat sim_fuel
        (search_decls (main_decls sim_options)) (sim_machine sim_range_wide 0)
        = (Ok l1, m1) /\
      at_point 0 0 (since (sim_machine sim_range_wide 0) m1).
Proof.
  evaluate (search_rounds sim_usrp polar_rat sim_tau 5 tone_flat sim_fuel 2
      (search_decls (main_decls sim_options)) (sim_machine sim_range_wide 0)) E.
  match type of E with _ = (Ok ?l, ?m) => exists l, m end.
  split; [exact E|].
  assert (Hall : probes_all Qle 0
                   (since (sim_machine sim_range_wide 0)
                      (snd (search_rounds sim_usrp polar_rat sim_tau 5 tone_flat sim_fuel 2
      (search_decls (main_decls sim_options)) (sim_machine sim_range_wide 0))))).
  { apply (probes_allb_sound Qle (fun x => Qle_bool x 0)).
    - intros x Hx. apply Qle_bool_iff. exact Hx.
    - vm_compute. reflexivity. }
  rewrite E in Hall. cbn [snd] in Hall.
  split; [exact Hall|].
  destruct (best_stays_at_origin sim_usrp polar_rat sim_tau 5 tone_flat
              _ _ _ _ _ _ E Hall) as (_ & Hc & Hs & _ & _ & Hw & Hnever & Hodd).
  destruct (Hw (Nat.neq_succ_0 1)) as (H1 & H2 & _).
  assert (Hn : (3 <= 5 < 2 ^ 64)%Z) by (split; [discriminate|reflexivity]).
  assert (Hn2 : (2 <= 5 < 2 ^ 64)%Z) by (split; [discriminate|reflexivity]).
  repeat (split; [assumption|]).
  split; [exact (Hnever Hn polar_rat_nonzero)|].
  evaluate (search_round sim_usrp polar_rat sim_tau 5 tone_flat sim_fuel
        (search_decls (main_decls sim_options)) (sim_machine sim_range_wide 0)) E1.
  match type of E1 with _ = (Ok ?l, ?m) => exists l, m end.
  split; [exact E1|].
  exact (proj2 (Hodd Hn2 O _ _ _ _ (Nat.lt_0_succ 1) eq_refl E1) eq_refl).
Defined.

(** C10 refuted as stated: with 5 steps a round and every suppression
    0, each of the two rounds probes the point (0, 0), with the
    correction 1+0i, and the window it leaves is centred there: the
    window is re-centred on a scanned grid point. *)
Lemma origin_probed_counterexample :
  exists l1 m1 l2 m2,
    search_round sim_usrp polar_rat sim_tau 5 tone_flat sim_fuel
      (search_decls (main_decls sim_options)) (sim_machine sim_range_wide 0)
      = (Ok l1, m1) /\
    search_round sim_usrp polar_rat sim_tau 5 tone_flat sim_fuel l1 m1
      = (Ok l2, m2) /\
    probes_all Qle 0 (since (sim_machine sim_range_wide 0) m2) /\
    (phase_corr_start l1 + phase_corr_stop l1) / 2 == 0 /\
    (ampl_corr_start l1 + ampl_corr_stop l1) / 2 == 0 /\
    (phase_corr_start l2 + phase_corr_stop l2) / 2 == 0 /\
    (ampl_corr_start l2 + ampl_corr_stop l2) / 2 == 0 /\
    (exists p a s,
       In (EvProbe p a (1, 0) s) (since (sim_machine sim_range_wide 0) m1) /\
       p == 0 /\ a == 0) /\
    (exists p a s,
       In (EvProbe p a (1, 0) s) (since m1 m2) /\ p == 0 /\ a == 0).
Proof.
  evaluate (search_round sim_usrp polar_rat sim_tau 5 tone_flat sim_fuel
      (search_decls (main_decls sim_options)) (sim_machine sim_range_wide 0)) E1.
  match type of E1 with
  | _ = (Ok ?l1, ?m1) =>
      evaluate (search_round sim_usrp polar_rat sim_tau 5 tone_flat sim_fuel
                  l1 m1) E2;
      match type of E2 with
      | _ = (Ok ?l2, ?m2) => exists l1, m1, l2, m2
      end
  end.
  split; [exact E1|]. split; [exact E2|].
  split.
  { apply (probes_allb_sound Qle (fun x => Qle_bool x 0)).
    - intros x Hx. apply Qle_bool_iff. exact Hx.
    - vm_compute. reflexivity. }
  do 4 (split; [vm_compute; reflexivity|]).
  split.
  - match goal with
    | |- exists p a s, In _ ?evs /\ _ =>
        let e := eval vm_compute in
          (find (fun e => match e with
                          | EvProbe p a _ _ => Qeq_bool p 0 && Qeq_bool a 0
                          | _ => false
                          end) evs) in
        match e with
        | Some (EvProbe ?p ?a _ ?s) => exists p, a, s
        end
    end.
    split; [|split; vm_compute; reflexivity].
    vm_compute. repeat (first [left; reflexivity | right]).
  - match goal with
    | |- exists p a s, In _ ?evs /\ _ =>
        let e := eval vm_compute in
          (find (fun e => match e with
                          | EvProbe p a _ _ => Qeq_bool p 0 && Qeq_bool a 0
                          | _ => false
                          end) evs) in
        match e with
        | Some (EvProbe ?p ?a _ ?s) => exists p, a, s
        end
    end.
    split; [|split; vm_compute; reflexivity].
    vm_compute. repeat (first [left; reflexivity | right]).
Qed.

(** The clock of the simulated devices. *)
Lemma unlocked_usrp_clock : clock unlocked_usrp sim_clock.
Proof.
  intro w. split; [reflexivity|]. split; [simpl; lia|].
  intro name. split; simpl; lia.
Qed.

Lemma sim_usrp_clock : clock sim_usrp sim_clock.
Proof.
  intro w. split; [reflexivity|]. split; [simpl; lia|].
  intro name. split; simpl; lia.
Qed.

Lemma unlocked_usrp_poll : poll_takes unlocked_usrp sim_clock 1000.
Proof. split; [reflexivity|]. intros name w. simpl. lia. Qed.

Lemma unlocked_usrp_never_locks : never_locks unlocked_usrp.
Proof. intro w. left. reflexivity. Qed.

Lemma ideal_usrp_locks (w0 : sim) :
  fst (get_tx_sensor ideal_usrp "lo_locked" w0) = true /\
  fst (get_rx_sensor ideal_usrp "lo_locked" w0) = true.
Proof. split; reflexivity. Qed.

Lemma ideal_usrp_delivers (n : nat) (w0 : sim) :
  error_code (fst (recv ideal_usrp n w0)) = ERROR_CODE_NONE /\
  List.length (rx_samps (fst (recv ideal_usrp n w0))) = n.
Proof. split; [reflexivity|apply repeat_length]. Qed.



(** C9 at a failing input: on a device whose LOs never lock the
    first tuning times out and [main] throws; the transmit thread was
    created, and it is neither interrupted nor joined. *)
Lemma lock_timeout_leaves_tx_thread_running :
  fst (UHD_SAFE_MAIN sim_usrp polar_rat sim_tau 5 2 tone_bowl sim_double 200 sim_options
      {| world := sim_world sim_range_wide never; log := [] |}) = Throw lo_timeout /\
  log (snd (UHD_SAFE_MAIN sim_usrp polar_rat sim_tau 5 2 tone_bowl sim_double 200 sim_options
      {| world := sim_world sim_range_wide never; log := [] |})) =
    [EvPrint ""; EvPrint "Creating the usrp device with: ...";
     EvThreadCreated 0.7; EvTune 150e6] /\
  ~ In EvInterruptAll (log (snd (UHD_SAFE_MAIN sim_usrp polar_rat sim_tau 5 2 tone_bowl sim_double 200 sim_options
      {| world := sim_world sim_range_wide never; log := [] |}))) /\
  ~ In EvJoinAll (log (snd (UHD_SAFE_MAIN sim_usrp polar_rat sim_tau 5 2 tone_bowl sim_double 200 sim_options
      {| world := sim_world sim_range_wide never; log := [] |}))).
Proof.
  evaluate (UHD_SAFE_MAIN sim_usrp polar_rat sim_tau 5 2 tone_bowl sim_double 200 sim_options
      {| world := sim_world sim_range_wide never; log := [] |}) E.
  rewrite E. cbn [fst snd log].
  split; [reflexivity|]. split; [reflexivity|].
  split; intro H; repeat (destruct H as [H|H]; [discriminate H|]);
    destruct H.
Qed.

(** * The further properties on the simulated device *)

Lemma In_last {A} (l : list A) (d : A) : l <> [] -> In (last l d) l.
Proof.
  intro Hne. destruct (exists_last Hne) as (l0 & a & ->).
  rewrite last_last. apply in_or_app. right. left. reflexivity.
Qed.

(** A capture of 4 samples on the simulated device. *)
Lemma capture_fills_whole_buffer_witness :
  exists b' m',
    capture_samples sim_usrp (repeat complex_zero 4)
      (sim_machine sim_range_wide 0) = (Ok b', m') /\
    b' = rx_samps (fst (capture_recv sim_usrp (repeat complex_zero 4)
                          (world (sim_machine sim_range_wide 0)))) /\
    List.length b' = List.length (repeat complex_zero 4) /\
    b' = repeat (1, 0) 4.
Proof.
  evaluate (capture_samples sim_usrp (repeat complex_zero 4)
              (sim_machine sim_range_wide 0)) E.
  match type of E with _ = (Ok ?b, ?m) => exists b, m end.
  split; [exact E|].
  destruct (capture_fills_whole_buffer sim_usrp _ _ _ _ E) as (Hb & Hlen & _).
  split; [exact Hb|]. split; [exact Hlen|]. reflexivity.
Defined.

(** A capture on a device that reports the error code 8 and delivers
    3 of the 4 samples: the exception is that of the error code. *)
Lemma capture_error_code_first_witness :
  error_code
    (fst (capture_recv sim_usrp (repeat complex_zero 4)
            {| sim_antennas := ["TX/RX"; "RX2"; "CAL"];
               sim_range := sim_range_wide; sim_rate := 12.5e6;
               sim_rx_freq := 150e6; sim_tx_freq := 149e6; sim_iq := (1, 0);
               sim_clock := 0; sim_lock_at := 0; sim_missing := 1;
               sim_error_code := 8; sim_stop_at := 25 |}))
    <> ERROR_CODE_NONE /\
  List.length
    (rx_samps
       (fst (capture_recv sim_usrp (repeat complex_zero 4)
               {| sim_antennas := ["TX/RX"; "RX2"; "CAL"];
                  sim_range := sim_range_wide; sim_rate := 12.5e6;
                  sim_rx_freq := 150e6; sim_tx_freq := 149e6; sim_iq := (1, 0);
                  sim_clock := 0; sim_lock_at := 0; sim_missing := 1;
                  sim_error_code := 8; sim_stop_at := 25 |}))) = 3%nat /\
  fst (capture_samples sim_usrp (repeat complex_zero 4)
         {| world :=
              {| sim_antennas := ["TX/RX"; "RX2"; "CAL"];
                 sim_range := sim_range_wide; sim_rate := 12.5e6;
                 sim_rx_freq := 150e6; sim_tx_freq := 149e6; sim_iq := (1, 0);
                 sim_clock := 0; sim_lock_at := 0; sim_missing := 1;
                 sim_error_code := 8; sim_stop_at := 25 |};
            log := [] |})
    = Throw (runtime_error "Unexpected error code 0x8").
Proof.
  assert (Hne : error_code
            (fst (capture_recv sim_usrp (repeat complex_zero 4)
                    {| sim_antennas := ["TX/RX"; "RX2"; "CAL"];
                       sim_range := sim_range_wide; sim_rate := 12.5e6;
                       sim_rx_freq := 150e6; sim_tx_freq := 149e6;
                       sim_iq := (1, 0);
                       sim_clock := 0; sim_lock_at := 0; sim_missing := 1;
                       sim_error_code := 8; sim_stop_at := 25 |}))
            <> ERROR_CODE_NONE) by discriminate.
  split; [exact Hne|]. split; [reflexivity|].
  destruct (capture_error_code_first sim_usrp (repeat complex_zero 4)
              {| world :=
                   {| sim_antennas := ["TX/RX"; "RX2"; "CAL"];
                      sim_range := sim_range_wide; sim_rate := 12.5e6;
                      sim_rx_freq := 150e6; sim_tx_freq := 149e6;
                      sim_iq := (1, 0);
                      sim_clock := 0; sim_lock_at := 0; sim_missing := 1;
                      sim_error_code := 8; sim_stop_at := 25 |};
                 log := [] |}) as (Hcode & _ & _).
  cbn [world] in Hcode. rewrite (Hcode Hne). reflexivity.
Defined.

(** The run on a device without the CAL antennas. *)
Lemma no_cal_antenna_iff_witness :
  help sim_options = false /\
  lacks_cal sim_usrp sim_options
    {| sim_antennas := ["TX/RX"; "RX2"];
       sim_range := sim_range_wide; sim_rate := 0;
       sim_rx_freq := 0; sim_tx_freq := 0; sim_iq := (1, 0);
       sim_clock := 0; sim_lock_at := 0; sim_missing := 0;
       sim_error_code := 0; sim_stop_at := 25 |} = true /\
  UHD_SAFE_MAIN sim_usrp polar_rat sim_tau 2 1 (tone_const 40) sim_double sim_fuel sim_options
    {| world :=
         {| sim_antennas := ["TX/RX"; "RX2"];
            sim_range := sim_range_wide; sim_rate := 0;
            sim_rx_freq := 0; sim_tx_freq := 0; sim_iq := (1, 0);
            sim_clock := 0; sim_lock_at := 0; sim_missing := 0;
            sim_error_code := 0; sim_stop_at := 25 |};
       log := [] |} =
    (Throw no_cal_antenna,
     {| world :=
          make sim_usrp (args sim_options)
            {| sim_antennas := ["TX/RX"; "RX2"];
               sim_range := sim_range_wide; sim_rate := 0;
               sim_rx_freq := 0; sim_tx_freq := 0; sim_iq := (1, 0);
               sim_clock := 0; sim_lock_at := 0; sim_missing := 0;
               sim_error_code := 0; sim_stop_at := 25 |};
        log := preamble sim_options |}).
Proof.
  assert (Hhelp : help sim_options = false) by reflexivity.
  assert (Hcal : lacks_cal sim_usrp sim_options
            {| sim_antennas := ["TX/RX"; "RX2"];
               sim_range := sim_range_wide; sim_rate := 0;
               sim_rx_freq := 0; sim_tx_freq := 0; sim_iq := (1, 0);
               sim_clock := 0; sim_lock_at := 0; sim_missing := 0;
               sim_error_code := 0; sim_stop_at := 25 |} = true)
    by reflexivity.
  split; [exact Hhelp|]. split; [exact Hcal|].
  exact (proj2 (no_cal_antenna_iff sim_usrp polar_rat sim_tau 2 1 (tone_const 40) sim_double
                  sim_fuel sim_options _ Hhelp) Hcal).
Defined.

(** The run with [--help]. *)
Lemma help_returns_all_ones_witness :
  help {| help := true; verbose := false; args := ""; rate := 12.5e6;
          tx_wave_ampl := 0.7; tx_offset := 0.9344e6; tx_gain := 0;
          rx_gain := 0; freq_step := 10e6; nsamps := 4 |} = true /\
  UHD_SAFE_MAIN sim_usrp polar_rat sim_tau 2 1 (tone_const 40) sim_double sim_fuel
    {| help := true; verbose := false; args := ""; rate := 12.5e6;
       tx_wave_ampl := 0.7; tx_offset := 0.9344e6; tx_gain := 0;
       rx_gain := 0; freq_step := 10e6; nsamps := 4 |}
    {| world := sim_world sim_range_wide 0; log := [] |} =
    (Ok (-1)%Z, {| world := sim_world sim_range_wide 0; log := [EvHelp] |}).
Proof.
  split; [reflexivity|].
  exact (proj2 (help_returns_all_ones sim_usrp polar_rat sim_tau 2 1 (tone_const 40) sim_double
                  sim_fuel
                  {| help := true; verbose := false; args := "";
                     rate := 12.5e6; tx_wave_ampl := 0.7;
                     tx_offset := 0.9344e6; tx_gain := 0; rx_gain := 0;
                     freq_step := 10e6; nsamps := 4 |}
                  (sim_world sim_range_wide 0)) eq_refl).
Defined.

(** The completed run over [100e6, 220e6]: two frequencies, two rows. *)
Lemma stored_rows_above_30_witness :
  exists z m' t,
    UHD_SAFE_MAIN sim_usrp polar_rat sim_tau 2 1 (tone_const 40) sim_double sim_fuel sim_options
      {| world := sim_world sim_range_wide 0; log := [] |} = (Ok z, m') /\
    In (EvStoreResults t "RX" "rx") (log m') /\
    List.length t = 2%nat /\
    Forall (fun r => 30 < sup r) t /\
    (List.length t <= List.length (tuned (log m')))%nat.
Proof.
  evaluate (UHD_SAFE_MAIN sim_usrp polar_rat sim_tau 2 1 (tone_const 40) sim_double sim_fuel
              sim_options {| world := sim_world sim_range_wide 0; log := [] |}) E.
  match type of E with
  | _ = (Ok ?z, ?m) =>
      let e := eval vm_compute in (last (log m) EvHelp) in
      match e with
      | EvStoreResults ?t _ _ =>
          exists z, m, t; split; [exact E|];
          assert (Hin : In (EvStoreResults t "RX" "rx") (log m))
            by (apply (In_last (log m) EvHelp); discriminate)
      end
  end.
  split; [exact Hin|]. split; [reflexivity|].
  destruct (stored_rows_above_30 sim_usrp polar_rat sim_tau 2 1 (tone_const 40) sim_double
              _ _ _ _ _ _ _ _ E Hin) as (Hall & Hlen & _).
  split; assumption.
Defined.

(** The same run in verbose mode. *)
Lemma rows_are_the_values_reported_witness :
  exists z m' t,
    UHD_SAFE_MAIN sim_usrp polar_rat sim_tau 2 1 (tone_const 40) sim_double sim_fuel
      {| help := false; verbose := true; args := ""; rate := 12.5e6;
         tx_wave_ampl := 0.7; tx_offset := 0.9344e6; tx_gain := 0;
         rx_gain := 0; freq_step := 10e6; nsamps := 4 |}
      {| world := sim_world sim_range_wide 0; log := [] |} = (Ok z, m') /\
    In (EvStoreResults t "RX" "rx") (log m') /\
    map (fun r => (freq r, sup r)) t = reported (log m').
Proof.
  evaluate (UHD_SAFE_MAIN sim_usrp polar_rat sim_tau 2 1 (tone_const 40) sim_double sim_fuel
              {| help := false; verbose := true; args := ""; rate := 12.5e6;
                 tx_wave_ampl := 0.7; tx_offset := 0.9344e6; tx_gain := 0;
                 rx_gain := 0; freq_step := 10e6; nsamps := 4 |}
              {| world := sim_world sim_range_wide 0; log := [] |}) E.
  match type of E with
  | _ = (Ok ?z, ?m) =>
      let e := eval vm_compute in (last (log m) EvHelp) in
      match e with
      | EvStoreResults ?t _ _ =>
          exists z, m, t; split; [exact E|];
          assert (Hin : In (EvStoreResults t "RX" "rx") (log m))
            by (apply (In_last (log m) EvHelp); discriminate)
      end
  end.
  split; [exact Hin|].
  refine (rows_are_the_values_reported sim_usrp polar_rat sim_tau 2 1 (tone_const 40) sim_double
            _ _ _ _ _ _ _ _ _ E Hin).
  reflexivity.
Defined.

(** The output of the completed run: the banner, two dots and the
    newline. *)
Lemma one_mark_per_frequency_witness :
  help sim_options = false /\ verbose sim_options = false /\
  exists z m',
    UHD_SAFE_MAIN sim_usrp polar_rat sim_tau 2 1 (tone_const 40) sim_double sim_fuel sim_options
      {| world := sim_world sim_range_wide 0; log := [] |} = (Ok z, m') /\
    printed (log m') =
      (preamble sim_options ++
       repeat (EvPrint ".") (List.length (tuned (log m'))) ++
       [EvPrint ""])%list /\
    List.length (tuned (log m')) = 2%nat.
Proof.
  split; [reflexivity|]. split; [reflexivity|].
  evaluate (UHD_SAFE_MAIN sim_usrp polar_rat sim_tau 2 1 (tone_const 40) sim_double sim_fuel
              sim_options {| world := sim_world sim_range_wide 0; log := [] |}) E.
  match type of E with _ = (Ok ?z, ?m) => exists z, m end.
  split; [exact E|].
  split; [|reflexivity].
  refine (proj2 (one_mark_per_frequency sim_usrp polar_rat sim_tau 2 1 (tone_const 40) sim_double
                   _ _ _ _ _ _ E) _); reflexivity.
Defined.

(** The first round at 150 MHz with 3 steps a round: a grid of 3 by 3. *)
Lemma round_probes_full_grid_witness :
  (2 <= 3 < 2 ^ 64)%Z /\
  wide (search_decls (main_decls sim_options)) /\
  exists l' m',
    search_round sim_usrp polar_rat sim_tau 3 tone_bowl sim_fuel
      (search_decls (main_decls sim_options)) (sim_machine sim_range_wide 0)
      = (Ok l', m') /\
    coords (since (sim_machine sim_range_wide 0) m') =
      full_grid (Z.to_nat 3)
        (phase_corr_start (search_decls (main_decls sim_options)))
        ((phase_corr_stop (search_decls (main_decls sim_options))
          - phase_corr_start (search_decls (main_decls sim_options)))
         / steps_divisor 3)
        (ampl_corr_start (search_decls (main_decls sim_options)))
        ((ampl_corr_stop (search_decls (main_decls sim_options))
          - ampl_corr_start (search_decls (main_decls sim_options)))
         / steps_divisor 3) /\
    List.length (since (sim_machine sim_range_wide 0) m')
      = (Z.to_nat 3 * Z.to_nat 3)%nat.
Proof.
  assert (Hn : (2 <= 3 < 2 ^ 64)%Z) by (split; [discriminate|reflexivity]).
  assert (Hw : wide (search_decls (main_decls sim_options)))
    by (split; reflexivity).
  split; [exact Hn|]. split; [exact Hw|].
  evaluate (search_round sim_usrp polar_rat sim_tau 3 tone_bowl sim_fuel
              (search_decls (main_decls sim_options))
              (sim_machine sim_range_wide 0)) E.
  match type of E with _ = (Ok ?l, ?m) => exists l, m end.
  split; [exact E|].
  destruct (round_probes_full_grid sim_usrp polar_rat sim_tau 3 tone_bowl
              _ _ _ _ _ Hn Hw E) as (Hc & _ & Hlen & _).
  split; [exact Hc|exact Hlen].
Defined.

(** The search at 150 MHz with 3 steps a round and 2 rounds: 18 probes. *)
Lemma search_probes_count_witness :
  (2 <= 3 < 2 ^ 64)%Z /\
  exists l' m',
    search sim_usrp polar_rat sim_tau 3 2 (tone_const 40) sim_fuel
      (main_decls sim_options) (sim_machine sim_range_wide 0) = (Ok l', m') /\
    List.length (since (sim_machine sim_range_wide 0) m') =
      (Z.to_nat 2 * (Z.to_nat 3 * Z.to_nat 3))%nat.
Proof.
  assert (Hn : (2 <= 3 < 2 ^ 64)%Z) by (split; [discriminate|reflexivity]).
  split; [exact Hn|].
  evaluate (search sim_usrp polar_rat sim_tau 3 2 (tone_const 40) sim_fuel
              (main_decls sim_options) (sim_machine sim_range_wide 0)) E.
  match type of E with _ = (Ok ?l, ?m) => exists l, m end.
  split; [exact E|].
  exact (proj2 (search_probes_count sim_usrp polar_rat sim_tau 3 2
                  (tone_const 40) _ _ _ _ _ Hn E)).
Defined.

(** The completed run with 2 steps a round and one round a search:
    2 frequencies, 8 probes. *)
Lemma run_probes_count_witness :
  (2 <= 2 < 2 ^ 64)%Z /\ help sim_options = false /\
  exists z m',
    UHD_SAFE_MAIN sim_usrp polar_rat sim_tau 2 1 (tone_const 40) sim_double sim_fuel
      sim_options {| world := sim_world sim_range_wide 0; log := [] |}
      = (Ok z, m') /\
    List.length (probes (log m')) =
      (List.length (tuned (log m')) *
       (Z.to_nat 1 * (Z.to_nat 2 * Z.to_nat 2)))%nat /\
    List.length (probes (log m')) = 8%nat.
Proof.
  assert (Hn : (2 <= 2 < 2 ^ 64)%Z) by (split; [discriminate|reflexivity]).
  split; [exact Hn|]. split; [reflexivity|].
  evaluate (UHD_SAFE_MAIN sim_usrp polar_rat sim_tau 2 1 (tone_const 40) sim_double
              sim_fuel sim_options
              {| world := sim_world sim_range_wide 0; log := [] |}) E.
  match type of E with _ = (Ok ?z, ?m) => exists z, m end.
  split; [exact E|].
  split; [|reflexivity].
  refine (run_probes_count sim_usrp polar_rat sim_tau 2 1 (tone_const 40) sim_double
            _ _ _ _ _ Hn _ E).
  reflexivity.
Defined.

(** The run over the range [100e6, 200e6], on a device whose LOs
    never lock: nothing is tuned, and the empty table is stored. *)
Lemma narrow_range_stores_empty_table_witness :
  monotone sim_double /\
  help sim_options = false /\
  lacks_cal sim_usrp sim_options (sim_world (100e6, 200e6) never) = false /\
  snd (get_rx_freq_range sim_usrp
         (setup_world sim_usrp sim_options (sim_world (100e6, 200e6) never)))
  - fst (get_rx_freq_range sim_usrp
           (setup_world sim_usrp sim_options (sim_world (100e6, 200e6) never)))
    <= 100e6 /\
  UHD_SAFE_MAIN sim_usrp polar_rat sim_tau 2 1 (tone_const 40) sim_double 1 sim_options
    {| world := sim_world (100e6, 200e6) never; log := [] |} =
    (Ok 0%Z,
     {| world :=
          setup_world sim_usrp sim_options (sim_world (100e6, 200e6) never);
        log := (preamble sim_options ++
                [EvThreadCreated (tx_wave_ampl sim_options); EvPrint "";
                 EvInterruptAll; EvJoinAll;
                 EvStoreResults [] "RX" "rx"])%list |}).
Proof.
  assert (Hhelp : help sim_options = false) by reflexivity.
  assert (Hcal : lacks_cal sim_usrp sim_options
                   (sim_world (100e6, 200e6) never) = false) by reflexivity.
  assert (Hnarrow :
    snd (get_rx_freq_range sim_usrp
           (setup_world sim_usrp sim_options (sim_world (100e6, 200e6) never)))
    - fst (get_rx_freq_range sim_usrp
             (setup_world sim_usrp sim_options
                (sim_world (100e6, 200e6) never)))
      <= 100e6) by discriminate.
  split; [exact sim_double_monotone|].
  split; [exact Hhelp|]. split; [exact Hcal|]. split; [exact Hnarrow|].
  exact (narrow_range_stores_empty_table sim_usrp polar_rat sim_tau 2 1
           (tone_const 40) sim_double O sim_options _ sim_double_monotone
           Hhelp Hcal Hnarrow).
Defined.

(** The run with a step of 0 Hz does not return 0. *)
Lemma nonpositive_step_never_returns_witness :
  monotone sim_double /\ idempotent sim_double /\
  help stuck_options = false /\
  freq_step stuck_options <= 0 /\
  sim_double
    (fst (get_rx_freq_range sim_usrp
            (setup_world sim_usrp stuck_options (sim_world sim_range_wide 0)))
     + 50e6)
  < sim_double
      (snd (get_rx_freq_range sim_usrp
              (setup_world sim_usrp stuck_options (sim_world sim_range_wide 0)))
       - 50e6) /\
  UHD_SAFE_MAIN sim_usrp polar_rat sim_tau 2 1 (tone_const 40) sim_double sim_fuel
    stuck_options {| world := sim_world sim_range_wide 0; log := [] |}
    <> (Ok 0%Z, {| world := sim_world sim_range_wide 0; log := [] |}).
Proof.
  assert (Hstep : freq_step stuck_options <= 0) by discriminate.
  assert (Hfirst :
    sim_double
      (fst (get_rx_freq_range sim_usrp
              (setup_world sim_usrp stuck_options (sim_world sim_range_wide 0)))
       + 50e6)
    < sim_double
        (snd (get_rx_freq_range sim_usrp
                (setup_world sim_usrp stuck_options
                   (sim_world sim_range_wide 0)))
         - 50e6)) by (vm_compute; reflexivity).
  split; [exact sim_double_monotone|]. split; [exact sim_double_idempotent|].
  split; [reflexivity|]. split; [exact Hstep|]. split; [exact Hfirst|].
  exact (nonpositive_step_never_returns sim_usrp polar_rat sim_tau 2 1
           (tone_const 40) sim_double sim_fuel stuck_options
           (sim_world sim_range_wide 0) _ _ sim_double_monotone
           sim_double_idempotent eq_refl Hstep Hfirst).
Defined.

(** One round with 2 steps a round: the window is twice as wide
    after it. *)
Lemma window_shrinks_iff_more_than_3_steps_witness :
  (2 <= 2 < 2 ^ 64)%Z /\
  wide (search_decls (main_decls sim_options)) /\
  exists l' m',
    search_round sim_usrp polar_rat sim_tau 2 (tone_const 40) sim_fuel
      (search_decls (main_decls sim_options)) (sim_machine sim_range_wide 0)
      = (Ok l', m') /\
    phase_corr_stop l' - phase_corr_start l'
      == 2 * (phase_corr_stop (search_decls (main_decls sim_options))
              - phase_corr_start (search_decls (main_decls sim_options))) /\
    ~ (phase_corr_stop l' - phase_corr_start l'
       < phase_corr_stop (search_decls (main_decls sim_options))
         - phase_corr_start (search_decls (main_decls sim_options))).
Proof.
  assert (Hn : (2 <= 2 < 2 ^ 64)%Z) by (split; [discriminate|reflexivity]).
  assert (Hw : wide (search_decls (main_decls sim_options)))
    by (split; reflexivity).
  split; [exact Hn|]. split; [exact Hw|].
  evaluate (search_round sim_usrp polar_rat sim_tau 2 (tone_const 40) sim_fuel
              (search_decls (main_decls sim_options))
              (sim_machine sim_range_wide 0)) E.
  match type of E with _ = (Ok ?l, ?m) => exists l, m end.
  split; [exact E|].
  destruct (window_shrinks_iff_more_than_3_steps sim_usrp polar_rat sim_tau 2
              (tone_const 40) _ _ _ _ _ Hn Hw E) as (Hp & _ & _ & H2).
  split; [exact (H2 eq_refl)|].
  intro Hlt. apply Hp in Hlt. discriminate Hlt.
Defined.

(** Two rounds at 150 MHz: the best suppression has increased from 0,
    and the best point is one of the probes. *)
Lemma best_never_degrades_witness :
  exists l' m',
    search_rounds sim_usrp polar_rat sim_tau 2 (tone_const 40) sim_fuel 2
      (search_decls (main_decls sim_options)) (sim_machine sim_range_wide 0)
      = (Ok l', m') /\
    best_suppression (search_decls (main_decls sim_options))
      < best_suppression l' /\
    In (EvProbe (best_phase_corr l') (best_ampl_corr l') (best_correction l')
          (best_suppression l'))
       (since (sim_machine sim_range_wide 0) m').
Proof.
  evaluate (search_rounds sim_usrp polar_rat sim_tau 2 (tone_const 40)
              sim_fuel 2
              (search_decls (main_decls sim_options))
              (sim_machine sim_range_wide 0)) E.
  match type of E with
  | _ = (Ok ?l, ?m) =>
      exists l, m; split; [exact E|];
      assert (Hlt : best_suppression (search_decls (main_decls sim_options))
                    < best_suppression l) by reflexivity
  end.
  split; [exact Hlt|].
  destruct (best_never_degrades sim_usrp polar_rat sim_tau 2 (tone_const 40)
              _ _ _ _ _ _ E) as (_ & _ & Hin).
  exact (Hin Hlt).
Defined.

(** The tuning to 150 MHz on a device whose LOs lock 52 ms after the
    start: two polls without lock, then the lock. *)
Lemma tune_tunes_once_then_polls_witness :
  exists o m' start polls,
    tune_rx_and_tx (traced sim_usrp) sim_fuel 150e6 0.9344e6
      {| world := (sim_world sim_range_wide 52000, @nil devcall); log := [] |}
      = (o, m') /\
    journal m' =
      (journal {| world := (sim_world sim_range_wide 52000, @nil devcall); log := [] |} ++
       [CallSetRxFreq {| target_freq := 150e6;
                         dsp_freq_policy := POLICY_MANUAL; dsp_freq := 0 |};
        CallSetTxFreq
          {| target_freq :=
               get_rx_freq sim_usrp
                 (set_rx_freq sim_usrp
                    {| target_freq := 150e6;
                       dsp_freq_policy := POLICY_MANUAL; dsp_freq := 0 |}
                    (fst (world {| world := (sim_world sim_range_wide 52000, @nil devcall);
                                   log := [] |}))) - 0.9344e6;
             dsp_freq_policy := POLICY_MANUAL; dsp_freq := 0 |};
        CallSleep (milliseconds 50);
        CallGetSystemTime start] ++ polls)%list /\
    Forall lo_poll polls /\
    List.length polls = 6%nat.
Proof.
  evaluate (tune_rx_and_tx (traced sim_usrp) sim_fuel 150e6 0.9344e6
              {| world := (sim_world sim_range_wide 52000, @nil devcall); log := [] |}) E.
  match type of E with _ = (?o, ?m) => exists o, m end.
  destruct (tune_tunes_once_then_polls sim_usrp _ _ _ _ _ _ E)
    as (start & polls & Hj & Hp).
  exists start, polls. split; [exact E|]. split; [exact Hj|].
  split; [exact Hp|].
  apply (f_equal (@List.length devcall)) in Hj.
  cbn [journal world snd] in Hj. rewrite !length_app in Hj.
  cbn [List.length] in Hj. lia.
Defined.

Lemma tune_returns_locked_or_times_out_witness :
  exists rx_lo m' head start polls,
    tune_rx_and_tx (traced sim_usrp) sim_fuel 150e6 0.9344e6
      {| world := (sim_world sim_range_wide 52000, @nil devcall); log := [] |}
      = (Ok rx_lo, m') /\
    journal m' =
      (journal {| world := (sim_world sim_range_wide 52000, @nil devcall); log := [] |} ++
       head ++ CallGetSystemTime start :: polls)%list /\
    List.length head = 3%nat /\
    rx_lo = get_rx_freq sim_usrp (fst (world m')) /\
    Forall (clock_within (start + milliseconds 100)) polls /\
    exists before, polls = (before ++ locked_poll)%list.
Proof.
  evaluate (tune_rx_and_tx (traced sim_usrp) sim_fuel 150e6 0.9344e6
              {| world := (sim_world sim_range_wide 52000, @nil devcall); log := [] |}) E.
  match type of E with _ = (Ok ?r, ?m) => exists r, m end.
  destruct (tune_returns_locked_or_times_out sim_usrp _ _ _ _ _ _ E)
    as (head & start & polls & Hj & Hh & Hend).
  exists head, start, polls. split; [exact E|]. split; [exact Hj|].
  split; [exact Hh|]. exact Hend.
Defined.

(** The calls of the completed run on the simulated device. *)
Lemma main_calls_are_well_formed_witness :
  exists o m',
    UHD_SAFE_MAIN (traced sim_usrp) polar_rat sim_tau 2 1 (tone_const 40) sim_double sim_fuel
      sim_options {| world := (sim_world sim_range_wide 0, @nil devcall); log := [] |}
      = (o, m') /\
    Forall (main_call sim_options) (journal m') /\
    List.length (journal m') = 44%nat.
Proof.
  evaluate (UHD_SAFE_MAIN (traced sim_usrp) polar_rat sim_tau 2 1 (tone_const 40) sim_double
              sim_fuel sim_options
              {| world := (sim_world sim_range_wide 0, @nil devcall); log := [] |}) E.
  match type of E with _ = (?o, ?m) => exists o, m end.
  split; [exact E|].
  split; [|reflexivity].
  exact (main_calls_are_well_formed sim_usrp polar_rat sim_tau 2 1 (tone_const 40) sim_double
           _ _ _ _ _ E).
Defined.

Lemma corrections_applied_are_those_probed_witness :
  exists z m',
    UHD_SAFE_MAIN (traced sim_usrp) polar_rat sim_tau 2 1 (tone_const 40) sim_double sim_fuel
      sim_options {| world := (sim_world sim_range_wide 0, @nil devcall); log := [] |}
      = (Ok z, m') /\
    iq_calls (journal m') = corrections (log m') /\
    List.length (iq_calls (journal m')) = 8%nat.
Proof.
  evaluate (UHD_SAFE_MAIN (traced sim_usrp) polar_rat sim_tau 2 1 (tone_const 40) sim_double
              sim_fuel sim_options
              {| world := (sim_world sim_range_wide 0, @nil devcall); log := [] |}) E.
  match type of E with _ = (Ok ?z, ?m) => exists z, m end.
  split; [exact E|].
  split; [|reflexivity].
  exact (proj1 (corrections_applied_are_those_probed sim_usrp polar_rat sim_tau
                  2 1 (tone_const 40) sim_double _ _ _ _ _ E)).
Defined.

(** The transmit thread on the simulated device, interrupted at
    25 us: three buffers of 20 samples, then the end of burst.  The
    amplitude 0.7 is sent as the nearest float, 11744051 / 2^24. *)
Lemma tx_thread_sends_constant_then_eob_witness :
  exists m',
    tx_thread (traced sim_usrp) sim_float sim_fuel 0.7
      {| world := (sim_world sim_range_wide 0, @nil devcall); log := [] |}
      = (Ok tt, m') /\
    sim_float 0.7 = 11744051 # 16777216 /\
    journal m' =
      [CallSetThreadPrioritySafe; CallGetTxStream "fc32";
       CallInterruptionRequested false;
       CallSend (repeat (11744051 # 16777216, 0) 20)
         {| has_time_spec := false; end_of_burst := false |};
       CallInterruptionRequested false;
       CallSend (repeat (11744051 # 16777216, 0) 20)
         {| has_time_spec := false; end_of_burst := false |};
       CallInterruptionRequested false;
       CallSend (repeat (11744051 # 16777216, 0) 20)
         {| has_time_spec := false; end_of_burst := false |};
       CallInterruptionRequested true;
       CallSend [] {| has_time_spec := false; end_of_burst := true |}] /\
    exists k,
      journal m' =
        (journal {| world := (sim_world sim_range_wide 0, @nil devcall); log := [] |} ++
         [CallSetThreadPrioritySafe; CallGetTxStream "fc32"] ++
         tx_turns k
           (repeat (sim_float 0.7, 0)
              (get_max_num_samps sim_usrp
                 (get_tx_stream sim_usrp "fc32"
                    (set_thread_priority_safe sim_usrp
                       (fst (world {| world := (sim_world sim_range_wide 0, @nil devcall);
                                      log := [] |})))) * 10))
           {| has_time_spec := false; end_of_burst := false |} ++
         [CallInterruptionRequested true;
          CallSend [] {| has_time_spec := false; end_of_burst := true |}])%list.
Proof.
  evaluate (tx_thread (traced sim_usrp) sim_float sim_fuel 0.7
              {| world := (sim_world sim_range_wide 0, @nil devcall); log := [] |}) E.
  match type of E with _ = (Ok tt, ?m) => exists m end.
  split; [exact E|]. split; [vm_compute; reflexivity|].
  split; [reflexivity|].
  destruct (tx_thread_sends_constant_then_eob sim_usrp sim_float _ _ _ _ _ E)
    as (_ & k & Hj & _).
  exists k. exact Hj.
Defined.

(** The thread of the run that the lock timeout aborts. *)
Lemma one_tx_thread_per_run_witness :
  help sim_options = false /\
  lacks_cal sim_usrp sim_options (sim_world sim_range_wide never) = false /\
  exists o m' rest,
    UHD_SAFE_MAIN sim_usrp polar_rat sim_tau 2 1 (tone_const 40) sim_double 200 sim_options
      {| world := sim_world sim_range_wide never; log := [] |} = (o, m') /\
    log m' = (preamble sim_options ++
              EvThreadCreated (tx_wave_ampl sim_options) :: rest)%list /\
    (forall a, ~ In (EvThreadCreated a) rest).
Proof.
  assert (Hhelp : help sim_options = false) by reflexivity.
  assert (Hcal : lacks_cal sim_usrp sim_options
                   (sim_world sim_range_wide never) = false) by reflexivity.
  split; [exact Hhelp|]. split; [exact Hcal|].
  evaluate (UHD_SAFE_MAIN sim_usrp polar_rat sim_tau 2 1 (tone_const 40) sim_double 200
              sim_options
              {| world := sim_world sim_range_wide never; log := [] |}) E.
  match type of E with _ = (?o, ?m) => exists o, m end.
  destruct (one_tx_thread_per_run sim_usrp polar_rat sim_tau 2 1 (tone_const 40) sim_double
              _ _ _ _ _ Hhelp Hcal E) as (rest & Hl & Hno & _).
  exists rest. split; [exact E|]. split; [exact Hl|exact Hno].
Defined.
